(** * Import resolution and deployment ordering of the Flow CLI

    A shallow embedding of
      - [flow/project/contracts/contracts.go]  (the [Preprocessor]), and
      - [pkg/flowcli/contracts/resolver.go]    (the [Resolver]),
    together with the parts of the Go standard library ([strings], [path],
    [path/filepath]), of Cadence ([common.Location]), of the Flow SDK
    ([flow.Address]) and of gonum ([simple.DirectedGraph], [topo.Sort]) that
    the two files call.

    Go strings are byte sequences: they are modelled by [string], whose
    characters are the 256 values of [ascii].  Go maps are [gmap]s; the order
    in which a [range] statement visits a map is not fixed by the language, so
    every function that ranges over a map takes the visiting order as an
    argument. *)

From Stdlib Require Import ZArith Lia Ascii String DecimalString.
From stdpp Require Import gmap strings list relations sorting.

Local Open Scope string_scope.
Local Open Scope list_scope.

(* ===================================================================== *)
(** * Part I.  The Go standard library                                    *)
(* ===================================================================== *)

Module strings.

(** [len(s)]. *)
Definition len (s : string) : nat := String.length s.

(** [strings.HasPrefix(s, prefix)]. *)
Fixpoint HasPrefix (s pre : string) : bool :=
  match pre with
  | EmptyString => true
  | String c pre' =>
      match s with
      | EmptyString => false
      | String d s' => if Ascii.eqb c d then HasPrefix s' pre' else false
      end
  end.

(** [s[n:]] for [n <= len(s)]. *)
Fixpoint drop (n : nat) (s : string) : string :=
  match n with
  | O => s
  | S k => match s with EmptyString => EmptyString | String _ s' => drop k s' end
  end.

(** [s[:n]] for [n <= len(s)]. *)
Fixpoint take (n : nat) (s : string) : string :=
  match n with
  | O => EmptyString
  | S k => match s with EmptyString => EmptyString | String c s' => String c (take k s') end
  end.

(** [strings.Index(s, substr)]: the index of the leftmost occurrence; [None]
    stands for -1. *)
Fixpoint Index (s sub : string) : option nat :=
  if HasPrefix s sub then Some O
  else match s with
       | EmptyString => None
       | String _ s' => option_map S (Index s' sub)
       end.

(** [strings.Replace(s, old, new, 1)]: [s] itself when [old] is [new] or does
    not occur; otherwise the text before the leftmost occurrence, then [new],
    then the text after that occurrence. *)
Definition Replace1 (s old new : string) : string :=
  if String.eqb old new then s
  else match Index s old with
       | None => s
       | Some j => take j s +:+ new +:+ drop (j + len old) s
       end.

(** The loop of [strings.Replace(s, old, new, -1)] for a non-empty [old]:
    occurrences are found left to right and do not overlap; [skip] counts the
    bytes of the occurrence just replaced that are still to be passed over. *)
Fixpoint replaceAll (old new : string) (skip : nat) (s : string) : string :=
  match s with
  | EmptyString => EmptyString
  | String c s' =>
      match skip with
      | S k => replaceAll old new k s'
      | O => if HasPrefix s old
             then new +:+ replaceAll old new (len old - 1) s'
             else String c (replaceAll old new 0 s')
      end
  end.

(** [strings.ReplaceAll(s, old, new)], for the non-empty patterns the
    repository passes (an empty [old], which Go matches between runes, does
    not occur: the only caller passes the constant [".cdc"]). *)
Definition ReplaceAll (s old new : string) : string :=
  if String.eqb old new then s
  else match old with
       | EmptyString => s
       | String _ _ => replaceAll old new 0 s
       end.

(** [strings.Contains(s, substr)]. *)
Fixpoint Contains (s sub : string) : bool :=
  if HasPrefix s sub then true
  else match s with
       | EmptyString => false
       | String _ s' => Contains s' sub
       end.

End strings.

Module path.

Definition slash : ascii := "/"%char.
Definition dot : ascii := "."%char.

(** The output buffer of [Clean] ([lazybuf]) holds the bytes written so far;
    it is kept with the byte written last at the head, so [out.w] is its
    length. *)
Definition lazybuf := list ascii.

(** The backtracking loop of the [..] case,
      [for out.w > dotdot && out.index(out.w) != '/' { out.w-- }],
    entered after a first [out.w--] that dropped the byte [dropped]. *)
Fixpoint backtrack (dotdot : nat) (dropped : ascii) (out : lazybuf) : lazybuf :=
  match out with
  | [] => []
  | x :: out' =>
      if (dotdot <? length out)%nat && negb (Ascii.eqb dropped slash)
      then backtrack dotdot x out'
      else out
  end.

(** Does the path continue with the end of the string or with a slash?
    ([r+1 == n || path[r+1] == '/']). *)
Definition atBoundary (rest : string) : bool :=
  match rest with
  | EmptyString => true
  | String c _ => Ascii.eqb c slash
  end.

(** The main loop of [path.Clean], [for r < n { switch ... }], over the bytes
    that remain to be read.  [copying] is set while the loop that copies a
    real path element ([for ; r < n && path[r] != '/'; r++]) is running. *)
Fixpoint cleanLoop (rooted : bool) (copying : bool) (rest : string)
    (out : lazybuf) (dotdot : nat) : lazybuf :=
  match rest with
  | EmptyString => out
  | String c rest' =>
      if copying then
        if Ascii.eqb c slash
        then cleanLoop rooted false rest' out dotdot
        else cleanLoop rooted true rest' (c :: out) dotdot
      else if Ascii.eqb c slash then
        (* empty path element *)
        cleanLoop rooted false rest' out dotdot
      else if Ascii.eqb c dot && atBoundary rest' then
        (* . element *)
        cleanLoop rooted false rest' out dotdot
      else
        match rest' with
        | String c2 rest'' =>
            if Ascii.eqb c dot && Ascii.eqb c2 dot && atBoundary rest'' then
              (* .. element: remove to last / *)
              if (dotdot <? length out)%nat then
                match out with
                | x :: out' => cleanLoop rooted false rest'' (backtrack dotdot x out') dotdot
                | [] => cleanLoop rooted false rest'' out dotdot
                end
              else if negb rooted then
                let out1 := match out with [] => out | _ => slash :: out end in
                let out2 := dot :: dot :: out1 in
                cleanLoop rooted false rest'' out2 (length out2)
              else cleanLoop rooted false rest'' out dotdot
            else
              (* real path element: add slash if needed, copy element *)
              let out1 :=
                if (rooted && negb (length out =? 1)%nat)
                   || (negb rooted && negb (length out =? 0)%nat)
                then slash :: out else out in
              cleanLoop rooted true rest' (c :: out1) dotdot
        | EmptyString =>
            let out1 :=
              if (rooted && negb (length out =? 1)%nat)
                 || (negb rooted && negb (length out =? 0)%nat)
              then slash :: out else out in
            cleanLoop rooted true rest' (c :: out1) dotdot
        end
  end.

Definition bufString (out : lazybuf) : string := string_of_list_ascii (rev out).

(** [path.Clean(path)]. *)
Definition Clean (p : string) : string :=
  match p with
  | EmptyString => "."
  | String c rest =>
      let rooted := Ascii.eqb c slash in
      let out := if rooted then cleanLoop true false rest [slash] 1
                 else cleanLoop false false p [] 0 in
      match out with
      | [] => "."
      | _ => bufString out
      end
  end.

(** [path[:i+1]] where [i] is the index of the last slash of [path]: the
    directory part returned by [path.Split] (empty without a slash). *)
Fixpoint splitDir (p : string) : string :=
  match p with
  | EmptyString => EmptyString
  | String c p' =>
      match splitDir p' with
      | EmptyString => if Ascii.eqb c slash then String c EmptyString else EmptyString
      | d => String c d
      end
  end.

(** [path.Dir(path)]. *)
Definition Dir (p : string) : string := Clean (splitDir p).

(** [path.Join(a, b)]: empty elements are ignored, the others are joined by
    slashes and the result is cleaned; two empty elements give [""]. *)
Definition Join (a b : string) : string :=
  match a, b with
  | EmptyString, EmptyString => EmptyString
  | EmptyString, _ => Clean b
  | _, _ => Clean (a +:+ "/" +:+ b)
  end.

End path.

Module filepath.

(** [path[0:len(path)-1]] repeated while the last byte is a separator. *)
Fixpoint stripTrailingSlashes (p : string) : string :=
  match p with
  | EmptyString => EmptyString
  | String c p' =>
      match stripTrailingSlashes p' with
      | EmptyString => if Ascii.eqb c path.slash then EmptyString else String c EmptyString
      | s => String c s
      end
  end.

(** [path[i+1:]] where [i] is the index of the last separator (the whole
    string without one). *)
Fixpoint lastElement (p : string) : string :=
  match p with
  | EmptyString => EmptyString
  | String c p' =>
      if strings.Contains p' "/" then lastElement p'
      else if Ascii.eqb c path.slash then p' else p
  end.

(** [filepath.Base(path)] on a system whose separator is the slash (no
    volume names). *)
Definition Base (p : string) : string :=
  match p with
  | EmptyString => "."
  | _ =>
      match lastElement (stripTrailingSlashes p) with
      | EmptyString => "/"
      | s => s
      end
  end.

End filepath.

(** [fmt.Sprintf(`"%s"`, s)]: the string between two double quotes. *)
Definition quoted (s : string) : string :=
  String "034"%char (s +:+ String "034"%char EmptyString).

(** Errors: the values built by [fmt.Errorf], gonum's [topo.Unorderable], and
    the errors of [ioutil.ReadFile] and [parser2.ParseProgram], which the
    repository passes on unread. *)
Inductive error : Type :=
  | errorString (msg : string)
  | Unorderable (cycles : list (list Z))
  | ReadFileError (filename : string)
  | ParseError (code : string).

(** What a call does: it returns, it panics, or the model ran out of the
    fuel that bounds its recursion. *)
Inductive outcome (A : Type) : Type :=
  | Returns (a : A)
  | Panics (msg : string)
  | OutOfFuel.
Arguments Returns {A} a.
Arguments Panics {A} msg.
Arguments OutOfFuel {A}.

(* ===================================================================== *)
(** * Part II.  The libraries the repository calls                        *)
(* ===================================================================== *)

(** Hexadecimal text ([encoding/hex]). *)
Module hex.

Definition digit (n : Z) : ascii :=
  match n with
  | 0 => "0" | 1 => "1" | 2 => "2" | 3 => "3" | 4 => "4" | 5 => "5" | 6 => "6"
  | 7 => "7" | 8 => "8" | 9 => "9" | 10 => "a" | 11 => "b" | 12 => "c"
  | 13 => "d" | 14 => "e" | _ => "f"
  end%Z%char.

(** [fromHexChar]: upper and lower case digits are read alike. *)
Definition fromHexChar (c : ascii) : option Z :=
  let n := Z.of_nat (nat_of_ascii c) in
  if (48 <=? n)%Z && (n <=? 57)%Z then Some (n - 48)%Z
  else if (97 <=? n)%Z && (n <=? 102)%Z then Some (n - 97 + 10)%Z
  else if (65 <=? n)%Z && (n <=? 70)%Z then Some (n - 65 + 10)%Z
  else None.

(** [hex.EncodeToString] of the [width] low bytes of [v], most significant
    byte first. *)
Fixpoint encodeBytes (width : nat) (v : Z) : string :=
  match width with
  | O => EmptyString
  | S k =>
      let b := ((v / 256 ^ Z.of_nat k) mod 256)%Z in
      String (digit (b / 16)) (String (digit (b mod 16)) (encodeBytes k v))
  end.

(** [hex.DecodeString]: the bytes decoded before the first malformed pair
    (the error is what the callers here drop). *)
Fixpoint DecodeString (s : string) : list Z :=
  match s with
  | String a (String b rest) =>
      match fromHexChar a, fromHexChar b with
      | Some x, Some y => (x * 16 + y)%Z :: DecodeString rest
      | _, _ => []
      end
  | _ => []
  end.

End hex.

(** The Flow SDK's [flow.Address], an array of eight bytes, kept as the
    number the bytes spell most significant byte first. *)
Module flow.

Definition Address : Type := Z.

Definition AddressLength : nat := 8.

(** [flow.BytesToAddress]: a longer slice is cropped from the left, a shorter
    one is padded with zeroes at the front. *)
Definition BytesToAddress (b : list Z) : Address :=
  (fold_left (fun acc x => acc * 256 + x) b 0 mod 2 ^ 64)%Z.

(** [flow.HexToAddress]. *)
Definition HexToAddress (h : string) : Address :=
  BytesToAddress (hex.DecodeString h).

(** [Address.String], which is what [%s] prints. *)
Definition Address_String (a : Address) : string :=
  hex.encodeBytes AddressLength a.

End flow.

(** Cadence's import locations ([runtime/common]). *)
Module common.

(** [common.AddressLocation]: an address and an optional name. *)
Record AddressLocation_t : Type := mkAddressLocation {
  Address : Z;
  Name : string
}.

(** Modelled from the spec: the parser hands over import declarations whose
    location is either an address literal or a path/name literal (spec
    sections 6 and 9); these are Cadence's [common.AddressLocation] and
    [common.StringLocation], the two dynamic types the type assertions of
    the repository name. *)
Inductive Location : Type :=
  | StringLocation (s : string)
  | AddressLocation (l : AddressLocation_t).

(** The zero value of [AddressLocation], which a failed type assertion
    [x.(common.AddressLocation)] yields. *)
Definition zeroAddressLocation : AddressLocation_t :=
  {| Address := 0; Name := EmptyString |}.

(** [StringLocation.String]. *)
Definition StringLocation_String (s : string) : string := s.

(** [AddressLocation.String]: the address in hexadecimal, followed by a dot
    and the name when there is a name. *)
Definition AddressLocation_String (l : AddressLocation_t) : string :=
  match Name l with
  | EmptyString => hex.encodeBytes 8 (Address l)
  | _ => hex.encodeBytes 8 (Address l) +:+ "." +:+ Name l
  end.

(** [v, ok := loc.(common.StringLocation)]. *)
Definition asStringLocation (loc : Location) : string * bool :=
  match loc with
  | StringLocation s => (s, true)
  | AddressLocation _ => (EmptyString, false)
  end.

(** [v, ok := loc.(common.AddressLocation)]. *)
Definition asAddressLocation (loc : Location) : AddressLocation_t * bool :=
  match loc with
  | AddressLocation l => (l, true)
  | StringLocation _ => (zeroAddressLocation, false)
  end.

End common.

(** Cadence's syntax trees, of which the repository reads the import
    declarations only. *)
Module ast.

Record ImportDeclaration : Type := mkImportDeclaration {
  Location : common.Location
}.

Record Program : Type := mkProgram {
  ImportDeclarations : list ImportDeclaration
}.

End ast.

(** Sequencing of calls that may panic. *)
Definition outcome_bind {A B : Type} (m : outcome A) (k : A -> outcome B) : outcome B :=
  match m with
  | Returns a => k a
  | Panics msg => Panics msg
  | OutOfFuel => OutOfFuel
  end.

(** A loop [for _, x := range l { b = f(b, x) }] whose body may panic. *)
Fixpoint foldOutcome {A B : Type} (f : B -> A -> outcome B) (l : list A) (b : B)
    : outcome B :=
  match l with
  | [] => Returns b
  | x :: l' => outcome_bind (f b x) (foldOutcome f l')
  end.

(** The keys of a map, in the order stdpp lists them.  A [range] over the map
    visits them in an order of its own: a rearrangement [order (keys m)],
    where [order] is any function that permutes its argument. *)
Definition keys {K : Type} `{Countable K} {A : Type} (m : gmap K A) : list K :=
  (map_to_list m).*1.

(** Go's [fmt]: the verb [%d] prints an integer in decimal, with a minus sign
    when it is negative. *)
Module fmt.

Definition decimal (n : Z) : string := NilZero.string_of_int (Z.to_int n).

End fmt.

(** gonum's [graph/simple.DirectedGraph]: nodes by ID, and for every node the
    IDs its edges lead to ([from]) and come from ([to]). *)
Module simple.

Section Graph.
Context {N : Type}.

Record DirectedGraph : Type := mkDirectedGraph {
  nodes : gmap Z N;
  from : gmap Z (gset Z);
  to : gmap Z (gset Z)
}.

(** [simple.NewDirectedGraph()]. *)
Definition NewDirectedGraph : DirectedGraph :=
  {| nodes := ∅; from := ∅; to := ∅ |}.

(** [g.AddNode(n)], where [id] is [n.ID()]: it panics when the ID is taken,
    with [fmt.Sprintf("simple: node ID collision: %d", n.ID())]. *)
Definition AddNode (g : DirectedGraph) (id : Z) (n : N) : outcome DirectedGraph :=
  match nodes g !! id with
  | Some _ => Panics ("simple: node ID collision: " +:+ fmt.decimal id)
  | None => Returns {| nodes := <[id := n]> (nodes g); from := from g; to := to g |}
  end.

(** [g.SetEdge(g.NewEdge(f, t))]: it panics on a self edge; both end nodes
    are added to the graph, or replace the node that has their ID. *)
Definition SetEdge (g : DirectedGraph) (fid : Z) (f : N) (tid : Z) (t : N)
    : outcome DirectedGraph :=
  if decide (fid = tid) then Panics "simple: adding self edge"
  else Returns
    {| nodes := <[tid := t]> (<[fid := f]> (nodes g));
       from := <[fid := {[tid]} ∪ default ∅ (from g !! fid)]> (from g);
       to := <[tid := {[fid]} ∪ default ∅ (to g !! tid)]> (to g) |}.

(** The IDs that [g.From(id)] lists, as a set. *)
Definition From (g : DirectedGraph) (id : Z) : gset Z := default ∅ (from g !! id).

End Graph.
Arguments DirectedGraph N : clear implicits.

End simple.

(** gonum's [graph/topo]: Tarjan's strongly connected components and the
    topological sort that [topo.Sort] derives from them. *)
Module topo.

(** The state of [tarjan].  The stack has its top at the head. *)
Record tarjan : Type := mkTarjan {
  index : nat;
  indexTable : gmap Z nat;
  lowLink : gmap Z nat;
  onStack : gset Z;
  stack : list Z;
  sccs : list (list Z)
}.

(** [t.indexTable[id]] and [t.lowLink[id]]: an absent key reads as 0. *)
Definition indexOf (t : tarjan) (id : Z) : nat := default 0%nat (indexTable t !! id).
Definition lowOf (t : tarjan) (id : Z) : nat := default 0%nat (lowLink t !! id).

Definition setLowLink (id : Z) (n : nat) (t : tarjan) : tarjan :=
  {| index := index t; indexTable := indexTable t;
     lowLink := <[id := n]> (lowLink t);
     onStack := onStack t; stack := stack t; sccs := sccs t |}.

(** The first lines of [strongconnect]: [v] gets the smallest unused index
    and is pushed. *)
Definition visit (vID : Z) (t : tarjan) : tarjan :=
  {| index := S (index t);
     indexTable := <[vID := S (index t)]> (indexTable t);
     lowLink := <[vID := S (index t)]> (lowLink t);
     onStack := {[vID]} ∪ onStack t;
     stack := vID :: stack t;
     sccs := sccs t |}.

(** The loop that pops the stack down to [vID] and collects the component;
    popping an empty stack is an index out of range. *)
Fixpoint popComponent (vID : Z) (stk : list Z) (on : gset Z) (scc : list Z)
    : outcome (list Z * gset Z * list Z) :=
  match stk with
  | [] => Panics "index out of range"
  | w :: stk' =>
      let on' := on ∖ {[w]} in
      let scc' := scc ++ [w] in
      if decide (w = vID) then Returns (stk', on', scc')
      else popComponent vID stk' on' scc'
  end.

Section Tarjan.
(** [succ id] lists the IDs of [g.From(id)] in the order of the iterator. *)
Variable succ : Z -> list Z.

(** [t.strongconnect(v)]; [fuel] bounds the depth of the recursion. *)
Fixpoint strongconnect (fuel : nat) (vID : Z) (t : tarjan) : outcome tarjan :=
  match fuel with
  | O => OutOfFuel
  | S fuel' =>
      let t1 := visit vID t in
      (* Consider successors of v. *)
      outcome_bind
        (foldOutcome
           (fun t wID =>
              if decide (indexOf t wID = 0)%nat then
                (* w has not yet been visited; recur on it. *)
                outcome_bind (strongconnect fuel' wID t)
                  (fun t' => Returns
                     (setLowLink vID (Nat.min (lowOf t' vID) (lowOf t' wID)) t'))
              else if decide (wID ∈ onStack t) then
                (* w is in stack s and hence in the current SCC. *)
                Returns (setLowLink vID (Nat.min (lowOf t vID) (indexOf t wID)) t)
              else Returns t)
           (succ vID) t1)
        (fun t2 =>
           (* If v is a root node, pop the stack and generate an SCC. *)
           if decide (lowOf t2 vID = indexOf t2 vID) then
             outcome_bind (popComponent vID (stack t2) (onStack t2) [])
               (fun '(stk, on, scc) => Returns
                  {| index := index t2; indexTable := indexTable t2;
                     lowLink := lowLink t2; onStack := on; stack := stk;
                     sccs := sccs t2 ++ [scc] |})
           else Returns t2)
  end.

Definition newTarjan : tarjan :=
  {| index := 0; indexTable := ∅; lowLink := ∅; onStack := ∅; stack := [];
     sccs := [] |}.

(** [topo.TarjanSCC(g)], where [nodes] lists the IDs of [g.Nodes()] in the
    order of the iterator.  The recursion is never deeper than the number of
    nodes. *)
Definition TarjanSCC (nodes : list Z) : outcome (list (list Z)) :=
  outcome_bind
    (foldOutcome
       (fun t vID =>
          if decide (indexOf t vID = 0)%nat
          then strongconnect (length nodes) vID t
          else Returns t)
       nodes newTarjan)
    (fun t => Returns (sccs t)).

End Tarjan.

(** [sortedFrom(sccs, ordered.ByID)]: a component of one node gives that
    node; any other component gives [nil] and is reported, its nodes sorted by
    ID, in the [Unorderable] error; the list of nodes and the list of reported
    components are reversed at the end. *)
Definition sortedFrom (sccs : list (list Z)) : list (option Z) * option error :=
  let sorted := map (fun s => match s with [x] => Some x | _ => None end) sccs in
  let sc := filter (fun s => length s ≠ 1%nat) sccs in
  (rev sorted,
   match sc with
   | [] => None
   | _ => Some (Unorderable (rev (map (merge_sort Z.le) sc)))
   end).

(** [topo.Sort(g)]. *)
Definition Sort (succ : Z -> list Z) (nodes : list Z)
    : outcome (list (option Z) * option error) :=
  outcome_bind (TarjanSCC succ nodes) (fun sccs => Returns (sortedFrom sccs)).

End topo.

(* ===================================================================== *)
(** * Part III.  flow/project/contracts/contracts.go                      *)
(* ===================================================================== *)

Module project_contracts.

(** A [*Contract] is an address in the store of contracts. *)
Abbreviation ptr := nat.

Record Contract : Type := mkContract {
  index : Z;
  name : string;
  source : string;
  target : flow.Address;
  code : string;
  program : ast.Program;
  dependencies : gmap string ptr;
  aliases : gmap string flow.Address
}.

(** The store: the contracts allocated so far, in the order of allocation. *)
Abbreviation heap := (list Contract).

Definition zeroContract : Contract :=
  {| index := 0; name := EmptyString; source := EmptyString; target := 0%Z;
     code := EmptyString; program := ast.mkProgram [];
     dependencies := ∅; aliases := ∅ |}.

(** [*c]. *)
Definition deref (h : heap) (c : ptr) : Contract := default zeroContract (h !! c).

Record Preprocessor : Type := mkPreprocessor {
  p_aliases : gmap string string;
  p_contracts : gmap string ptr
}.

Section Registration.
(** [ioutil.ReadFile] on the file system of the run, and Cadence's
    [parser2.ParseProgram]. *)
Variable ReadFile : string -> option string.
Variable ParseProgram : string -> option ast.Program.

(** [newContract]. *)
Definition newContract (idx : nat) (contractName contractSource : string)
    (tgt : flow.Address) : Contract + error :=
  match ReadFile contractSource with
  | None => inr (ReadFileError contractSource)
  | Some code =>
      match ParseProgram code with
      | None => inr (ParseError code)
      | Some prog =>
          inl {| index := Z.of_nat idx; name := contractName;
                 source := contractSource; target := tgt; code := code;
                 program := prog; dependencies := ∅; aliases := ∅ |}
      end
  end.

(** [NewPreprocessor]. *)
Definition NewPreprocessor (aliases : gmap string string) : Preprocessor :=
  {| p_aliases := aliases; p_contracts := ∅ |}.

(** [p.AddContractSource]: the new contract is allocated and stored under
    its source path. *)
Definition AddContractSource (p : Preprocessor) (h : heap)
    (contractName contractSource : string) (tgt : flow.Address)
    : Preprocessor * heap * option error :=
  match newContract (size (p_contracts p)) contractName contractSource tgt with
  | inr err => (p, h, Some err)
  | inl c =>
      ({| p_aliases := p_aliases p;
          p_contracts := <[source c := length h]> (p_contracts p) |},
       h ++ [c], None)
  end.

End Registration.

(** [c.Name()], [c.Code()] and [c.Dependencies()]. *)
Definition Name (h : heap) (c : ptr) : string := name (deref h c).
Definition Code (h : heap) (c : ptr) : string := code (deref h c).
Definition Dependencies (h : heap) (c : ptr) : gmap string ptr :=
  dependencies (deref h c).

(** [c.ID()]. *)
Definition ID (h : heap) (c : ptr) : Z := index (deref h c).

(** [c.Target()]. *)
Definition Target (h : heap) (c : ptr) : flow.Address := target (deref h c).

(** [c.imports()]: the string locations of the import declarations. *)
Definition imports (c : Contract) : list string :=
  fold_left
    (fun imports imp =>
       let '(location, ok) := common.asStringLocation (ast.Location imp) in
       if ok then imports ++ [common.StringLocation_String location] else imports)
    (ast.ImportDeclarations (program c)) [].

(** The contract [v] with [v.dependencies[location] = dep]. *)
Definition withDependency (v : Contract) (location : string) (dep : ptr) : Contract :=
  {| index := index v; name := name v; source := source v;
     target := target v; code := code v; program := program v;
     dependencies := <[location := dep]> (dependencies v);
     aliases := aliases v |}.

(** The contract [v] with [v.aliases[location] = tgt]. *)
Definition withAlias (v : Contract) (location : string) (tgt : flow.Address) : Contract :=
  {| index := index v; name := name v; source := source v;
     target := target v; code := code v; program := program v;
     dependencies := dependencies v;
     aliases := <[location := tgt]> (aliases v) |}.

(** [c.addDependency(location, dep)]: the contract at [c] is updated in
    place. *)
Definition addDependency (c : ptr) (location : string) (dep : ptr) (h : heap) : heap :=
  <[c := withDependency (deref h c) location dep]> h.

(** [c.addAlias(location, target)]. *)
Definition addAlias (c : ptr) (location : string) (tgt : flow.Address) (h : heap) : heap :=
  <[c := withAlias (deref h c) location tgt]> h.

(** [absolutePath]. *)
Definition absolutePath (basePath relativePath : string) : string :=
  path.Join (path.Dir basePath) relativePath.

(** [getAliasForImport]. *)
Definition getAliasForImport (location : string) : string :=
  strings.ReplaceAll (filepath.Base location) ".cdc" EmptyString.

(** [c.TranspiledCode()]; [depOrder] and [aliasOrder] rearrange the keys of
    [c.dependencies] and [c.aliases] into the orders in which the two [range]
    loops visit them. *)
Definition TranspiledCode (h : heap) (c : Contract)
    (depOrder aliasOrder : list string -> list string) : string :=
  let code1 :=
    fold_left
      (fun code location =>
         match dependencies c !! location with
         | Some dep =>
             strings.Replace1 code (quoted location)
               ("0x" +:+ flow.Address_String (Target h dep))
         | None => code
         end)
      (depOrder (keys (dependencies c))) (code c) in
  fold_left
    (fun code location =>
       match aliases c !! location with
       | Some tgt =>
           strings.Replace1 code (quoted location)
             ("0x" +:+ flow.Address_String tgt)
       | None => code
       end)
    (aliasOrder (keys (aliases c))) code1.

(** The orders in which the iterations over maps run during one call of
    [PrepareForDeployment], each as a rearrangement of the keys of the map:
    the three [range p.contracts] loops (source paths), the
    [range c.dependencies] loop of the contract registered under a given path
    (locations), and gonum's iterators [g.Nodes()] and [g.From(id)] (node
    IDs). *)
Record Schedule : Type := mkSchedule {
  rangeResolve : list string -> list string;
  rangeNodes : list string -> list string;
  rangeEdges : list string -> list string;
  rangeDependencies : string -> list string -> list string;
  graphNodes : list Z -> list Z;
  graphFrom : Z -> list Z -> list Z
}.

(** The message of the unresolved-import error. *)
Definition unresolvedImport (contractName importPath : string) : error :=
  errorString ("Import from " +:+ contractName +:+ " could not be find: "
               +:+ importPath +:+ ", make sure import path is correct.").

(** The inner loop of [PrepareForDeployment], over the imports of [c]. *)
Fixpoint resolveLocations (p : Preprocessor) (c : ptr) (locations : list string)
    (h : heap) : heap * option error :=
  match locations with
  | [] => (h, None)
  | location :: rest =>
      let importPath := absolutePath (source (deref h c)) location in
      let importPathAlias := getAliasForImport location in
      match p_contracts p !! importPath, p_aliases p !! importPathAlias with
      | Some importContract, _ =>
          resolveLocations p c rest (addDependency c location importContract h)
      | None, Some importAlias =>
          resolveLocations p c rest
            (addAlias c location (flow.HexToAddress importAlias) h)
      | None, None =>
          (h, Some (unresolvedImport (name (deref h c)) importPath))
      end
  end.

(** The outer loop of [PrepareForDeployment], over [p.contracts]. *)
Fixpoint resolveContracts (p : Preprocessor) (order : list string) (h : heap)
    : heap * option error :=
  match order with
  | [] => (h, None)
  | k :: rest =>
      match p_contracts p !! k with
      | None => resolveContracts p rest h
      | Some c =>
          match resolveLocations p c (imports (deref h c)) h with
          | (h', None) => resolveContracts p rest h'
          | (h', Some err) => (h', Some err)
          end
      end
  end.

(** The first loop of [sortByDeploymentOrder]: one node per contract. *)
Definition addNodes (contracts : gmap string ptr) (h : heap) (order : list string)
    (g : simple.DirectedGraph ptr) : outcome (simple.DirectedGraph ptr) :=
  foldOutcome
    (fun g k =>
       match contracts !! k with
       | None => Returns g
       | Some c => simple.AddNode g (ID h c) c
       end)
    order g.

(** The second loop: one edge from every dependency to its dependent. *)
Definition addEdges (contracts : gmap string ptr) (h : heap) (order : list string)
    (depOrder : string -> list string -> list string) (g : simple.DirectedGraph ptr)
    : outcome (simple.DirectedGraph ptr) :=
  foldOutcome
    (fun g k =>
       match contracts !! k with
       | None => Returns g
       | Some c =>
           foldOutcome
             (fun g location =>
                match dependencies (deref h c) !! location with
                | None => Returns g
                | Some dep => simple.SetEdge g (ID h dep) dep (ID h c) c
                end)
             (depOrder k (keys (dependencies (deref h c)))) g
       end)
    order g.

(** The loop that fills [results]: each sorted node is asserted to be a
    contract pointer, which panics on a nil node. *)
Fixpoint toContracts (g : simple.DirectedGraph ptr) (sorted : list (option Z))
    : outcome (list ptr) :=
  match sorted with
  | [] => Returns []
  | s :: rest =>
      match s ≫= (fun id => simple.nodes g !! id) with
      | None => Panics "interface conversion: interface is nil, not *contracts.Contract"
      | Some c => outcome_bind (toContracts g rest) (fun cs => Returns (c :: cs))
      end
  end.

(** [sortByDeploymentOrder]. *)
Definition sortByDeploymentOrder (s : Schedule) (contracts : gmap string ptr)
    (h : heap) : outcome (list ptr * option error) :=
  outcome_bind (addNodes contracts h (rangeNodes s (keys contracts))
                  simple.NewDirectedGraph) (fun g1 =>
  outcome_bind (addEdges contracts h (rangeEdges s (keys contracts))
                  (rangeDependencies s) g1) (fun g =>
  outcome_bind (topo.Sort (fun id => graphFrom s id (elements (simple.From g id)))
                  (graphNodes s (keys (simple.nodes g)))) (fun '(sorted, err) =>
  match err with
  | Some e => Returns ([], Some e)
  | None => outcome_bind (toContracts g sorted) (fun results => Returns (results, None))
  end))).

(** [p.PrepareForDeployment()]: the store after the call, and what the call
    returned. *)
Definition PrepareForDeployment (s : Schedule) (p : Preprocessor) (h : heap)
    : heap * outcome (list ptr * option error) :=
  match resolveContracts p (rangeResolve s (keys (p_contracts p))) h with
  | (h', Some err) => (h', Returns ([], Some err))
  | (h', None) =>
      (h', outcome_bind (sortByDeploymentOrder s (p_contracts p) h')
             (fun '(sorted, err) =>
                match err with
                | Some e => Returns ([], Some e)
                | None => Returns (sorted, None)
                end))
  end.

End project_contracts.

(** The project configuration read by the resolver ([pkg/flowcli/project]). *)
Module project.

Record Contract : Type := mkContract {
  Name : string;
  Source : string;
  Target : flow.Address
}.

(** [project.Aliases] is [map[string]string]. *)
Abbreviation Aliases := (gmap string string).

End project.

(* ===================================================================== *)
(** * Part IV.  pkg/flowcli/contracts/resolver.go                         *)
(* ===================================================================== *)

Module flowcli_contracts.

Record Resolver : Type := mkResolver {
  code : string;
  program : ast.Program
}.

(** [NewResolver]. *)
Definition NewResolver (ParseProgram : string -> option ast.Program)
    (code : string) : Resolver + error :=
  match ParseProgram code with
  | None => inr (ParseError code)
  | Some prog => inl {| code := code; program := prog |}
  end.

(** [absolutePath] of this package is not in the file; it is the function of
    the same name of [flow/project/contracts]. *)
Definition absolutePath := project_contracts.absolutePath.

(** [r.getFileImports()].  When the assertion fails, [location] is the zero
    [AddressLocation], and that is the value whose [String] is appended. *)
Definition getFileImports (r : Resolver) : list string :=
  fold_left
    (fun imports importDeclaration =>
       let '(location, ok) := common.asAddressLocation (ast.Location importDeclaration) in
       if negb ok then imports ++ [common.AddressLocation_String location] else imports)
    (ast.ImportDeclarations (program r)) [].

(** [r.HasFileImports()]. *)
Definition HasFileImports (r : Resolver) : bool :=
  (0 <? length (getFileImports r))%nat.

(** [r.replaceImport(from, to)]. *)
Definition replaceImport (r : Resolver) (from to : string) : string :=
  strings.Replace1 (code r) (quoted from) ("0x" +:+ to).

(** [r.getSourceTarget(contracts, aliases)]; [aliasOrder] rearranges the
    keys of [aliases] into the order in which [range aliases] visits them. *)
Definition getSourceTarget (contracts : list project.Contract)
    (aliases : project.Aliases) (aliasOrder : list string -> list string)
    : gmap string string :=
  let sourceTarget :=
    fold_left
      (fun m contract =>
         <[path.Clean (project.Source contract)
             := flow.Address_String (project.Target contract)]> m)
      contracts (∅ : gmap string string) in
  fold_left
    (fun m source =>
       match aliases !! source with
       | Some tgt =>
           <[path.Clean source := flow.Address_String (flow.HexToAddress tgt)]> m
       | None => m
       end)
    (aliasOrder (keys aliases)) sourceTarget.

Definition unresolved (imp : string) : error :=
  errorString ("import " +:+ imp +:+ " could not be resolved from the configuration").

(** The loop of [ResolveImports]. *)
Fixpoint resolveLoop (codePath : string) (sourceTarget : gmap string string)
    (imports : list string) (r : Resolver) : Resolver * (string * option error) :=
  match imports with
  | [] => (r, (code r, None))
  | imp :: rest =>
      let tgt := default EmptyString (sourceTarget !! absolutePath codePath imp) in
      if negb (String.eqb tgt EmptyString)
      then resolveLoop codePath sourceTarget rest
             {| code := replaceImport r imp tgt; program := program r |}
      else (r, (EmptyString, Some (unresolved imp)))
  end.

(** [r.ResolveImports(codePath, contracts, aliases)]: the resolver after the
    call, and the code and error returned. *)
Definition ResolveImports (r : Resolver) (codePath : string)
    (contracts : list project.Contract) (aliases : project.Aliases)
    (aliasOrder : list string -> list string)
    : Resolver * (string * option error) :=
  let imports := getFileImports r in
  let sourceTarget := getSourceTarget contracts aliases aliasOrder in
  resolveLoop codePath sourceTarget imports r.

End flowcli_contracts.

(* ===================================================================== *)
(** * Part V.  Specifications                                             *)
(* ===================================================================== *)

(** ** The graph that Tarjan's algorithm walks *)

(** An edge leads from [v] to each ID that [succ v] lists. *)
Definition edge (succ : Z -> list Z) (v w : Z) : Prop := w ∈ succ v.

(** A node is visited once it has an index. *)
Definition visited (t : topo.tarjan) (x : Z) : Prop := topo.indexOf t x ≠ 0%nat.

(** The nodes of the components generated so far, in the order of output. *)
Definition emitted (t : topo.tarjan) : list Z := concat (topo.sccs t).

(** The nodes of [nodes] that have no index yet. *)
Definition unvisited (nodes : list Z) (t : topo.tarjan) : nat :=
  length (filter (fun x => topo.indexOf t x = 0%nat) nodes).

(** Every successor of an element of [l] stands before it in [l]. *)
Definition closed (succ : Z -> list Z) (l : list Z) : Prop :=
  ∀ i x w, l !! i = Some x → w ∈ succ x → ∃ j, (j < i)%nat ∧ l !! j = Some w.

(** All components have exactly one node. *)
Definition singletons (l : list (list Z)) : Prop :=
  Forall (fun s => length s = 1%nat) l.

(** The invariant of the state of [tarjan] between the calls. *)
Record Inv (succ : Z -> list Z) (nodes : list Z) (t : topo.tarjan) : Prop := mkInv {
  inv_index : ∀ x, (topo.indexOf t x ≤ topo.index t)%nat;
  inv_sorted :
    StronglySorted (fun a b => (topo.indexOf t b < topo.indexOf t a)%nat) (topo.stack t);
  inv_stack_visited : ∀ x, x ∈ topo.stack t → visited t x;
  inv_onStack : ∀ x, x ∈ topo.onStack t ↔ x ∈ topo.stack t;
  inv_visited : ∀ x, visited t x → x ∈ topo.stack t ∨ x ∈ emitted t;
  inv_emitted : ∀ x, x ∈ emitted t → visited t x ∧ x ∉ topo.stack t;
  inv_emitted_nodup : NoDup (emitted t);
  inv_nodes : ∀ x, visited t x → x ∈ nodes;
  inv_sound : ∀ scc x y, scc ∈ topo.sccs t → x ∈ scc → y ∈ scc → rtc (edge succ) x y;
  inv_nonempty : ∀ scc, scc ∈ topo.sccs t → scc ≠ [];
  inv_closed : singletons (topo.sccs t) → closed succ (emitted t)
}.

(** What holds while [strongconnect(v)], entered in state [t0], runs through
    the successors of [v]; [done] are the successors dealt with so far. *)
Record LoopInv (succ : Z -> list Z) (nodes : list Z) (t0 : topo.tarjan) (v : Z)
    (done : list Z) (t : topo.tarjan) : Prop := mkLoopInv {
  li_inv : Inv succ nodes t;
  li_index : (topo.index t0 < topo.index t)%nat;
  li_old : ∀ x, visited t0 x → topo.indexOf t x = topo.indexOf t0 x;
  li_low_old : ∀ x, visited t0 x → topo.lowOf t x = topo.lowOf t0 x;
  li_v : topo.indexOf t v = S (topo.index t0);
  li_new : ∀ x, ¬ visited t0 x → visited t x →
           (topo.index t0 < topo.indexOf t x)%nat ∧ rtc (edge succ) v x;
  li_stack : ∃ T, topo.stack t = T ++ v :: topo.stack t0 ∧
             ∀ x, x ∈ T → rtc (edge succ) x v ∧ ¬ visited t0 x;
  li_low : (topo.lowOf t v ≤ topo.indexOf t v)%nat ∧
           (topo.lowOf t v = topo.indexOf t v ∨
            ∃ y, y ∈ topo.stack t0 ∧ topo.indexOf t y = topo.lowOf t v ∧
                 rtc (edge succ) v y);
  li_done : ∀ w, w ∈ done →
            visited t w ∧ (w ∈ topo.stack t0 → (topo.lowOf t v ≤ topo.indexOf t w)%nat)
}.

(** What [strongconnect(v)], entered in state [t0], leaves behind: either [v]
    was a root and the stack is as before, or [v] and the nodes above it stay
    on the stack, linked to a node that was on it before. *)
Record Post (succ : Z -> list Z) (nodes : list Z) (t0 : topo.tarjan) (v : Z)
    (t : topo.tarjan) : Prop := mkPost {
  post_inv : Inv succ nodes t;
  post_index : (topo.index t0 < topo.index t)%nat;
  post_old : ∀ x, visited t0 x → topo.indexOf t x = topo.indexOf t0 x;
  post_low_old : ∀ x, visited t0 x → topo.lowOf t x = topo.lowOf t0 x;
  post_v : topo.indexOf t v = S (topo.index t0);
  post_new : ∀ x, ¬ visited t0 x → visited t x →
             (topo.index t0 < topo.indexOf t x)%nat ∧ rtc (edge succ) v x;
  post_stack :
    (topo.stack t = topo.stack t0 ∧ topo.lowOf t v = topo.indexOf t v) ∨
    (∃ T, topo.stack t = T ++ v :: topo.stack t0 ∧
          (topo.lowOf t v < topo.indexOf t v)%nat ∧
          (∃ y, y ∈ topo.stack t0 ∧ topo.indexOf t y = topo.lowOf t v ∧
                rtc (edge succ) v y) ∧
          ∀ x, x ∈ T → rtc (edge succ) x v ∧ ¬ visited t0 x)
}.

(** The body of the loop of [strongconnect(v)] over the successors of [v]. *)
Definition successorStep (succ : Z -> list Z) (fuel : nat) (vID : Z)
    (t : topo.tarjan) (wID : Z) : outcome topo.tarjan :=
  if decide (topo.indexOf t wID = 0)%nat then
    outcome_bind (topo.strongconnect succ fuel wID t)
      (fun t' => Returns
         (topo.setLowLink vID (Nat.min (topo.lowOf t' vID) (topo.lowOf t' wID)) t'))
  else if decide (wID ∈ topo.onStack t) then
    Returns (topo.setLowLink vID (Nat.min (topo.lowOf t vID) (topo.indexOf t wID)) t)
  else Returns t.

(** The body of the loop of [TarjanSCC] over the nodes. *)
Definition nodeStep (succ : Z -> list Z) (fuel : nat) (t : topo.tarjan) (vID : Z)
    : outcome topo.tarjan :=
  if decide (topo.indexOf t vID = 0)%nat
  then topo.strongconnect succ fuel vID t
  else Returns t.

(** No node reaches itself along one edge or more. *)
Definition acyclic (succ : Z -> list Z) : Prop := ∀ x, ¬ tc (edge succ) x x.

(** ** The working set of the preprocessor *)

(** The immutable part of a contract. *)
Definition sameContract (v v' : project_contracts.Contract) : Prop :=
  project_contracts.index v' = project_contracts.index v ∧
  project_contracts.name v' = project_contracts.name v ∧
  project_contracts.source v' = project_contracts.source v ∧
  project_contracts.target v' = project_contracts.target v ∧
  project_contracts.code v' = project_contracts.code v ∧
  project_contracts.program v' = project_contracts.program v.

(** [h'] has the contracts of [h], with the same immutable parts and with
    dependency and alias maps that have at least the keys they had. *)
Definition extends (h h' : project_contracts.heap) : Prop :=
  length h' = length h ∧
  ∀ c v, h !! c = Some v →
    ∃ v', h' !! c = Some v' ∧ sameContract v v' ∧
          dom (project_contracts.dependencies v) ⊆ dom (project_contracts.dependencies v') ∧
          dom (project_contracts.aliases v) ⊆ dom (project_contracts.aliases v').

(** The contract at [c] is registered. *)
Definition member (p : project_contracts.Preprocessor) (c : project_contracts.ptr) : Prop :=
  ∃ k, project_contracts.p_contracts p !! k = Some c.

(** The recorded dependencies of the contract [v] registered under [k] are
    imports of [v] that lead to registered contracts. *)
Definition consistent (p : project_contracts.Preprocessor) (k : string)
    (v : project_contracts.Contract) : Prop :=
  ∀ loc d, project_contracts.dependencies v !! loc = Some d →
    loc ∈ project_contracts.imports v ∧
    project_contracts.p_contracts p !! project_contracts.absolutePath k loc = Some d.

(** Every import of [v] that leads to a registered contract is recorded. *)
Definition complete (p : project_contracts.Preprocessor) (k : string)
    (v : project_contracts.Contract) : Prop :=
  ∀ loc d, loc ∈ project_contracts.imports v →
    project_contracts.p_contracts p !! project_contracts.absolutePath k loc = Some d →
    project_contracts.dependencies v !! loc = Some d.

(** A working set: each registered pointer leads to a contract stored under
    its own source path, no two registered contracts share an ID, and the
    dependencies recorded so far come from resolution. *)
Record wf (p : project_contracts.Preprocessor) (h : project_contracts.heap) : Prop := mkWf {
  wf_ptr : ∀ k c, project_contracts.p_contracts p !! k = Some c →
           ∃ v, h !! c = Some v ∧ project_contracts.source v = k;
  wf_ids : ∀ k1 k2 c1 c2,
           project_contracts.p_contracts p !! k1 = Some c1 →
           project_contracts.p_contracts p !! k2 = Some c2 →
           project_contracts.ID h c1 = project_contracts.ID h c2 → k1 = k2;
  wf_deps : ∀ k c, project_contracts.p_contracts p !! k = Some c →
            consistent p k (project_contracts.deref h c)
}.

(** The import [loc] of the contract registered under [k] matches a
    registered contract or an alias. *)
Definition resolves (p : project_contracts.Preprocessor) (k loc : string) : Prop :=
  is_Some (project_contracts.p_contracts p !! project_contracts.absolutePath k loc) ∨
  is_Some (project_contracts.p_aliases p !! project_contracts.getAliasForImport loc).

(** Every import of every registered contract resolves. *)
Definition resolvable (p : project_contracts.Preprocessor) (h : project_contracts.heap) : Prop :=
  ∀ k c loc, project_contracts.p_contracts p !! k = Some c →
    loc ∈ project_contracts.imports (project_contracts.deref h c) → resolves p k loc.

(** The dependency relation: [m] imports a location that leads to the
    registered contract [d]. *)
Definition depends (p : project_contracts.Preprocessor) (h : project_contracts.heap)
    (m d : project_contracts.ptr) : Prop :=
  ∃ k loc, project_contracts.p_contracts p !! k = Some m ∧
           loc ∈ project_contracts.imports (project_contracts.deref h m) ∧
           project_contracts.p_contracts p !! project_contracts.absolutePath k loc = Some d.

(** [a] stands before [b] in [l]. *)
Definition before {A : Type} (l : list A) (a b : A) : Prop :=
  ∃ i j, (i < j)%nat ∧ l !! i = Some a ∧ l !! j = Some b.

(** A schedule that Go and gonum can follow: every order is a rearrangement
    of the keys it is given. *)
Definition admissible (s : project_contracts.Schedule) : Prop :=
  (∀ l, project_contracts.rangeResolve s l ≡ₚ l) ∧
  (∀ l, project_contracts.rangeNodes s l ≡ₚ l) ∧
  (∀ l, project_contracts.rangeEdges s l ≡ₚ l) ∧
  (∀ k l, project_contracts.rangeDependencies s k l ≡ₚ l) ∧
  (∀ l, project_contracts.graphNodes s l ≡ₚ l) ∧
  (∀ id l, project_contracts.graphFrom s id l ≡ₚ l).

(** The contract [v] after the imports [locs] have been resolved, when they
    all resolve. *)
Fixpoint resolved (p : project_contracts.Preprocessor) (v : project_contracts.Contract)
    (locs : list string) : project_contracts.Contract :=
  match locs with
  | [] => v
  | loc :: rest =>
      match project_contracts.p_contracts p
              !! project_contracts.absolutePath (project_contracts.source v) loc,
            project_contracts.p_aliases p !! project_contracts.getAliasForImport loc with
      | Some d, _ => resolved p (project_contracts.withDependency v loc d) rest
      | None, Some a =>
          resolved p (project_contracts.withAlias v loc (flow.HexToAddress a)) rest
      | None, None => v
      end
  end.

(** The error of the first import among [locs] that does not resolve, for
    the contract named [nm] and registered under [src]. *)
Fixpoint firstUnresolved (p : project_contracts.Preprocessor) (nm src : string)
    (locs : list string) : option error :=
  match locs with
  | [] => None
  | loc :: rest =>
      match project_contracts.p_contracts p !! project_contracts.absolutePath src loc,
            project_contracts.p_aliases p !! project_contracts.getAliasForImport loc with
      | None, None =>
          Some (project_contracts.unresolvedImport nm
                  (project_contracts.absolutePath src loc))
      | _, _ => firstUnresolved p nm src rest
      end
  end.

(** ** Registration *)

(** A sequence of calls of [AddContractSource], each with the name, source
    path and target of a contract; [None] when one of the calls fails. *)
Fixpoint registerAll (ReadFile : string -> option string)
    (ParseProgram : string -> option ast.Program)
    (calls : list (string * string * flow.Address))
    (p : project_contracts.Preprocessor) (h : project_contracts.heap)
    : option (project_contracts.Preprocessor * project_contracts.heap) :=
  match calls with
  | [] => Some (p, h)
  | (contractName, contractSource, tgt) :: rest =>
      match project_contracts.AddContractSource ReadFile ParseProgram p h
              contractName contractSource tgt with
      | (p', h', None) => registerAll ReadFile ParseProgram rest p' h'
      | (_, _, Some _) => None
      end
  end.

(** The source paths of a sequence of calls. *)
Definition sources (calls : list (string * string * flow.Address)) : list string :=
  map (fun call => call.1.2) calls.

(** The invariant of registration under distinct source paths: a working set
    whose IDs are the numbers below the size of the working set. *)
Record registered (p : project_contracts.Preprocessor) (h : project_contracts.heap)
    : Prop := mkRegistered {
  reg_wf : wf p h;
  reg_ids : ∀ k c, project_contracts.p_contracts p !! k = Some c →
            (0 ≤ project_contracts.ID h c < Z.of_nat (size (project_contracts.p_contracts p)))%Z
}.

(** ** Checks that decide the hypotheses on a concrete working set *)

(** Every import of every registered contract resolves. *)
Definition resolvableb (p : project_contracts.Preprocessor) (h : project_contracts.heap)
    : bool :=
  forallb
    (fun '(k, c) =>
       forallb
         (fun loc =>
            match project_contracts.p_contracts p !! project_contracts.absolutePath k loc,
                  project_contracts.p_aliases p !! project_contracts.getAliasForImport loc with
            | None, None => false
            | _, _ => true
            end)
         (project_contracts.imports (project_contracts.deref h c)))
    (map_to_list (project_contracts.p_contracts p)).

(** Every dependency of a registered contract has a smaller rank than the
    contract. *)
Definition rankedb (rank : project_contracts.ptr -> nat)
    (p : project_contracts.Preprocessor) (h : project_contracts.heap) : bool :=
  forallb
    (fun '(k, c) =>
       forallb
         (fun loc =>
            match project_contracts.p_contracts p !! project_contracts.absolutePath k loc with
            | Some d => (rank d <? rank c)%nat
            | None => true
            end)
         (project_contracts.imports (project_contracts.deref h c)))
    (map_to_list (project_contracts.p_contracts p)).

(** No registered contract imports itself. *)
Definition noSelfImportb (p : project_contracts.Preprocessor) (h : project_contracts.heap)
    : bool :=
  forallb
    (fun '(k, c) =>
       forallb
         (fun loc =>
            match project_contracts.p_contracts p !! project_contracts.absolutePath k loc with
            | Some d => negb (d =? c)%nat
            | None => true
            end)
         (project_contracts.imports (project_contracts.deref h c)))
    (map_to_list (project_contracts.p_contracts p)).

(** ** Location extraction *)

(** The locations of the import declarations that are string locations, in
    the order of declaration. *)
Definition stringLocations (decls : list ast.ImportDeclaration) : list string :=
  omap (fun d => match ast.Location d with
                 | common.StringLocation s => Some s
                 | common.AddressLocation _ => None
                 end) decls.

(** ** Text substitution *)

(** One replacement for each entry of a list of locations and addresses, in
    the order of the list: the leftmost occurrence of the quoted location that
    the text holds when its turn comes gives way to [0x] and the address; an
    entry whose quoted location the text does not hold changes nothing. *)
Definition rewriteEach (entries : list (string * string)) (code : string) : string :=
  fold_left
    (fun code entry => strings.Replace1 code (quoted entry.1) ("0x" +:+ entry.2))
    entries code.

(* ===================================================================== *)
(** * Part VI.  Example projects                                          *)
(* ===================================================================== *)

Module Example.

Definition importOf (location : string) : ast.ImportDeclaration :=
  ast.mkImportDeclaration (common.StringLocation location).

(** Three contracts in a chain: [B] imports [A], [C] imports [B]. *)
Definition codeA : string := "pub contract A {}".
Definition codeB : string :=
  "import A from " +:+ quoted "./A.cdc" +:+ " pub contract B {}".
Definition codeC : string :=
  "import B from " +:+ quoted "./B.cdc" +:+ " pub contract C {}".

(** Two contracts that import each other. *)
Definition codeX : string :=
  "import Y from " +:+ quoted "./Y.cdc" +:+ " pub contract X {}".
Definition codeY : string :=
  "import X from " +:+ quoted "./X.cdc" +:+ " pub contract Y {}".

(** A contract that imports its own file. *)
Definition codeS : string :=
  "import S from " +:+ quoted "./S.cdc" +:+ " pub contract S {}".

(** A contract with an import that nothing provides, and a contract without
    imports. *)
Definition codeM : string :=
  "import Gone from " +:+ quoted "./Gone.cdc" +:+ " pub contract M {}".
Definition codeD : string := "pub contract D {}".

(** The files of the examples, each with its text and its parsed program. *)
Definition files : list (string * (string * ast.Program)) :=
  [ ("/proj/A.cdc", (codeA, ast.mkProgram []));
    ("/proj/B.cdc", (codeB, ast.mkProgram [importOf "./A.cdc"]));
    ("/proj/C.cdc", (codeC, ast.mkProgram [importOf "./B.cdc"]));
    ("/proj/D.cdc", (codeD, ast.mkProgram []));
    ("/cyc/X.cdc", (codeX, ast.mkProgram [importOf "./Y.cdc"]));
    ("/cyc/Y.cdc", (codeY, ast.mkProgram [importOf "./X.cdc"]));
    ("/proj/M.cdc", (codeM, ast.mkProgram [importOf "./Gone.cdc"]));
    ("/proj/S.cdc", (codeS, ast.mkProgram [importOf "./S.cdc"])) ].

(** The file system: the text of each file. *)
Fixpoint readFrom (fs : list (string * (string * ast.Program))) (filename : string)
    : option string :=
  match fs with
  | [] => None
  | (n, (code, _)) :: rest =>
      if String.eqb n filename then Some code else readFrom rest filename
  end.

(** The parser, on the texts of the files. *)
Fixpoint parseFrom (fs : list (string * (string * ast.Program))) (code : string)
    : option ast.Program :=
  match fs with
  | [] => None
  | (_, (c, prog)) :: rest =>
      if String.eqb c code then Some prog else parseFrom rest code
  end.

Definition readFile : string -> option string := readFrom files.
Definition parseProgram : string -> option ast.Program := parseFrom files.

(** The working set after the calls, on a new preprocessor without
    aliases. *)
Definition register (calls : list (string * string * flow.Address))
    : project_contracts.Preprocessor * list project_contracts.Contract :=
  default (project_contracts.NewPreprocessor ∅, [])
    (registerAll readFile parseProgram calls (project_contracts.NewPreprocessor ∅) []).

Definition chainCalls : list (string * string * flow.Address) :=
  [ ("A", "/proj/A.cdc", 1%Z); ("B", "/proj/B.cdc", 2%Z); ("C", "/proj/C.cdc", 3%Z) ].
Definition chain := register chainCalls.

Definition cycleCalls : list (string * string * flow.Address) :=
  [ ("X", "/cyc/X.cdc", 1%Z); ("Y", "/cyc/Y.cdc", 2%Z) ].
Definition cycle := register cycleCalls.


Definition selfCalls : list (string * string * flow.Address) :=
  [ ("S", "/proj/S.cdc", 7%Z) ].
Definition selfImport := register selfCalls.

Definition missingCalls : list (string * string * flow.Address) :=
  [ ("M", "/proj/M.cdc", 4%Z) ].
Definition missing := register missingCalls.

(** Two contracts that import each other, the first of which imports its
    own file as well. *)
Definition codeP : string :=
  "import Q from " +:+ quoted "./Q.cdc" +:+ " import P from " +:+ quoted "./P.cdc"
  +:+ " pub contract P {}".
Definition codeQ : string :=
  "import P from " +:+ quoted "./P.cdc" +:+ " pub contract Q {}".
Definition mixedFiles : list (string * (string * ast.Program)) :=
  [ ("/mix/P.cdc", (codeP, ast.mkProgram [importOf "./Q.cdc"; importOf "./P.cdc"]));
    ("/mix/Q.cdc", (codeQ, ast.mkProgram [importOf "./P.cdc"])) ].
Definition mixedCalls : list (string * string * flow.Address) :=
  [ ("P", "/mix/P.cdc", 1%Z); ("Q", "/mix/Q.cdc", 2%Z) ].
Definition mixed : project_contracts.Preprocessor * list project_contracts.Contract :=
  default (project_contracts.NewPreprocessor ∅, [])
    (registerAll (readFrom mixedFiles) (parseFrom mixedFiles) mixedCalls
       (project_contracts.NewPreprocessor ∅) []).

(** Every map is visited in the order in which its keys are listed. *)
Definition inOrder : project_contracts.Schedule :=
  project_contracts.mkSchedule id id id (fun _ => id) id (fun _ => id).


(** In [chain] the pointers grow along the imports. *)
Definition chainRank (c : project_contracts.ptr) : nat := c.

(** A contract whose text imports the same location twice, resolved to the
    contract at address 1 of the store [dupStore]. *)
Definition dupCode : string :=
  "import D from " +:+ quoted "./Dup.cdc" +:+ " import E from "
  +:+ quoted "./Dup.cdc" +:+ " pub contract T {}".
Definition dupContract : project_contracts.Contract :=
  {| project_contracts.index := 0; project_contracts.name := "T";
     project_contracts.source := "/proj/T.cdc"; project_contracts.target := 6%Z;
     project_contracts.code := dupCode;
     project_contracts.program :=
       ast.mkProgram [importOf "./Dup.cdc"; importOf "./Dup.cdc"];
     project_contracts.dependencies := {["./Dup.cdc" := 1%nat]};
     project_contracts.aliases := ∅ |}.
Definition dupStore : list project_contracts.Contract :=
  [ dupContract;
    {| project_contracts.index := 1; project_contracts.name := "Dup";
       project_contracts.source := "/proj/Dup.cdc"; project_contracts.target := 5%Z;
       project_contracts.code := "pub contract Dup {}";
       project_contracts.program := ast.mkProgram [];
       project_contracts.dependencies := ∅; project_contracts.aliases := ∅ |} ].

(** The same text in a contract for which the location is an alias. *)
Definition dupAliased : project_contracts.Contract :=
  {| project_contracts.index := 0; project_contracts.name := "T";
     project_contracts.source := "/proj/T.cdc"; project_contracts.target := 6%Z;
     project_contracts.code := dupCode;
     project_contracts.program :=
       ast.mkProgram [importOf "./Dup.cdc"; importOf "./Dup.cdc"];
     project_contracts.dependencies := ∅;
     project_contracts.aliases := {["./Dup.cdc" := 9%Z]} |}.

(** Scripts that import the location [0000000000000000], twice and once,
    and the configured contract that this location stands for. *)
Definition zeros : string := "0000000000000000".
Definition twiceCode : string :=
  "import A from " +:+ quoted zeros +:+ " import B from " +:+ quoted zeros.
Definition twice : flowcli_contracts.Resolver :=
  {| flowcli_contracts.code := twiceCode;
     flowcli_contracts.program := ast.mkProgram [importOf zeros; importOf zeros] |}.
Definition onceCode : string := "import A from " +:+ quoted zeros.
Definition once : flowcli_contracts.Resolver :=
  {| flowcli_contracts.code := onceCode;
     flowcli_contracts.program := ast.mkProgram [importOf zeros] |}.
Definition library : list project.Contract :=
  [ {| project.Name := "Lib"; project.Source := "/p/0000000000000000";
       project.Target := 5%Z |} ].

(** A script with an import that the configuration does not provide. *)
Definition scriptCode : string :=
  "import X from " +:+ quoted "./X.cdc" +:+ " pub fun main() {}".
Definition script : flowcli_contracts.Resolver :=
  {| flowcli_contracts.code := scriptCode;
     flowcli_contracts.program := ast.mkProgram [importOf "./X.cdc"] |}.

End Example.
(* ===================================================================== *)
(** * Part VII.  Further specifications and examples                      *)
(* ===================================================================== *)

(** The store in which every registered contract has had all its imports
    resolved: what the first loop of [PrepareForDeployment] computes when
    every import resolves. *)
Definition resolvedStore (p : project_contracts.Preprocessor)
    (h : project_contracts.heap) : project_contracts.heap :=
  imap (fun c v =>
          if decide (project_contracts.p_contracts p !! project_contracts.source v = Some c)
          then resolved p v (project_contracts.imports v) else v) h.

(** The contracts of a configuration whose cleaned source path is [k]. *)
Definition withSource (k : string) (contracts : list project.Contract)
    : list project.Contract :=
  filter (fun c => path.Clean (project.Source c) = k) contracts.

(** ** Paths as sequences of elements *)

(** The text of the path elements [segs], with a slash between
    neighbours. *)
Fixpoint joinSegs (segs : list string) : string :=
  match segs with
  | [] => EmptyString
  | s :: rest =>
      match rest with
      | [] => s
      | _ => s +:+ "/" +:+ joinSegs rest
      end
  end.

(** The elements of a path: the texts between its slashes. *)
Fixpoint splitSegs (p : string) : list string :=
  match p with
  | EmptyString => [EmptyString]
  | String c p' =>
      if Ascii.eqb c "/" then EmptyString :: splitSegs p'
      else match splitSegs p' with
           | s :: rest => String c s :: rest
           | [] => [String c EmptyString]
           end
  end.

(** A path begins with a slash. *)
Definition isRooted (p : string) : bool :=
  match p with
  | String c _ => Ascii.eqb c "/"
  | EmptyString => false
  end.

(** A text without slashes. *)
Definition slashFree (s : string) : Prop := strings.Contains s "/" = false.

(** A name: a path element that is not empty, not [.] and not [..]. *)
Definition plain (s : string) : Prop :=
  s ≠ EmptyString ∧ s ≠ "." ∧ s ≠ ".." ∧ slashFree s.

(** Lexical normalization, one element at a time.  [st] holds the elements
    kept so far, the last one first.  An empty element and [.] are dropped;
    [..] removes the last name, is dropped at the root, and is kept at the
    start of a path that is not rooted; a name is kept. *)
Definition stepSeg (rooted : bool) (st : list string) (seg : string) : list string :=
  if decide (seg = EmptyString ∨ seg = ".") then st
  else if decide (seg = "..") then
    match st with
    | top :: st' => if decide (top = "..") then seg :: st else st'
    | [] => if rooted then [] else [seg]
    end
  else seg :: st.

Definition cleanSegs (rooted : bool) (segs : list string) (st : list string)
    : list string :=
  fold_left (stepSeg rooted) segs st.

(** The path that the kept elements spell. *)
Definition renderPath (rooted : bool) (st : list string) : string :=
  if rooted then "/" +:+ joinSegs (rev st)
  else match st with
       | [] => "."
       | _ => joinSegs (rev st)
       end.

(** What follows an element in a path: nothing, or a slash and the
    elements that are left. *)
Definition tailOf (rest : list string) : string :=
  match rest with
  | [] => EmptyString
  | _ => "/" +:+ joinSegs rest
  end.

(** The output buffer of [Clean] that holds the elements [st]. *)
Fixpoint bufOf (rooted : bool) (st : list string) : path.lazybuf :=
  match st with
  | [] => if rooted then [path.slash] else []
  | seg :: st' =>
      rev (list_ascii_of_string seg)
      ++ match st' with
         | [] => if rooted then [path.slash] else []
         | _ => path.slash :: bufOf rooted st'
         end
  end.

(** The index [dotdot] of [Clean] when the buffer starts with [n] elements
    [..]: the length of the part of the buffer that backtracking leaves. *)
Definition dotdotOf (rooted : bool) (n : nat) : nat :=
  if rooted then 1 else length (bufOf false (replicate n "..")).


Module Cases.

(** The file [A.cdc] registered once, twice, and twice before [D.cdc]. *)
Definition onceCalls : list (string * string * flow.Address) :=
  [ ("A", "/proj/A.cdc", 1%Z) ].
Definition twiceCalls : list (string * string * flow.Address) :=
  [ ("A", "/proj/A.cdc", 1%Z); ("A2", "/proj/A.cdc", 8%Z) ].
Definition againCalls : list (string * string * flow.Address) :=
  [ ("A", "/proj/A.cdc", 1%Z); ("A2", "/proj/A.cdc", 8%Z); ("D", "/proj/D.cdc", 2%Z) ].
Definition once := Example.register onceCalls.
Definition twice := Example.register twiceCalls.
Definition again := Example.register againCalls.

(** Two contracts registered under source paths that start with [./]; the
    second imports the first. *)
Definition relativeFiles : list (string * (string * ast.Program)) :=
  [ ("./A.cdc", (Example.codeA, ast.mkProgram []));
    ("./B.cdc", (Example.codeB, ast.mkProgram [Example.importOf "./A.cdc"])) ].
Definition relativeCalls : list (string * string * flow.Address) :=
  [ ("A", "./A.cdc", 1%Z); ("B", "./B.cdc", 2%Z) ].
Definition relative : project_contracts.Preprocessor * list project_contracts.Contract :=
  default (project_contracts.NewPreprocessor ∅, [])
    (registerAll (Example.readFrom relativeFiles) (Example.parseFrom relativeFiles)
       relativeCalls (project_contracts.NewPreprocessor ∅) []).

(** A script that imports from an address only. *)
Definition addressOnlyCode : string := "import A from 0x01 pub fun main() {}".
Definition addressOnly : flowcli_contracts.Resolver :=
  {| flowcli_contracts.code := addressOnlyCode;
     flowcli_contracts.program :=
       ast.mkProgram
         [ ast.mkImportDeclaration
             (common.AddressLocation {| common.Address := 1; common.Name := "A" |}) ] |}.

(** A configuration: three contracts, two of them with the same normalized
    source path, and an alias whose path normalizes to the source path of the
    first contract. *)
Definition configured : list project.Contract :=
  [ {| project.Name := "X"; project.Source := "X.cdc"; project.Target := 5%Z |};
    {| project.Name := "Y"; project.Source := "./lib/../Y.cdc"; project.Target := 6%Z |};
    {| project.Name := "Y2"; project.Source := "Y.cdc"; project.Target := 7%Z |} ].
Definition aliasTable : gmap string string := {[ "./X.cdc" := "0000000000000003" ]}.

(** A contract that records a dependency under a location that its text
    does not hold. *)
Definition stale : project_contracts.Contract :=
  {| project_contracts.index := 0; project_contracts.name := "T";
     project_contracts.source := "/proj/T.cdc"; project_contracts.target := 6%Z;
     project_contracts.code := "pub contract T {}";
     project_contracts.program := ast.mkProgram [];
     project_contracts.dependencies := {[ "./Gone.cdc" := 1%nat ]};
     project_contracts.aliases := ∅ |}.

(** As [Example.inOrder], but every map of Go is visited backwards. *)
Definition mapsReversed : project_contracts.Schedule :=
  project_contracts.mkSchedule reverse reverse reverse (fun _ => reverse)
    id (fun _ => id).

End Cases.


(* ===================================================================== *)
(** * Part VIII.  Strings, paths and location extraction                    *)
(* ===================================================================== *)

Section Strings.
#[local] Arguments String.append : simpl nomatch.

Lemma append_assoc (a b c : string) : (a +:+ b) +:+ c = a +:+ (b +:+ c).
Proof. induction a as [|x a IH]; simpl; [done|by rewrite IH]. Qed.

Lemma take_app (pre s : string) : strings.take (strings.len pre) (pre +:+ s) = pre.
Proof. induction pre as [|c pre IH]; simpl; [done|by rewrite IH]. Qed.

Lemma drop_app (pre s : string) : strings.drop (strings.len pre) (pre +:+ s) = s.
Proof. induction pre as [|c pre IH]; simpl; [done|by rewrite IH]. Qed.

Lemma len_app (a b : string) : strings.len (a +:+ b) = (strings.len a + strings.len b)%nat.
Proof. induction a as [|c a IH]; simpl; [done|]. unfold strings.len in *. simpl. by rewrite IH. Qed.

(** [Replace1] at the leftmost occurrence: the text before and the text after
    the occurrence stay as they are. *)
Lemma Replace1_first s old new pre post :
  String.eqb old new = false →
  s = pre +:+ old +:+ post →
  strings.Index s old = Some (strings.len pre) →
  strings.Replace1 s old new = pre +:+ new +:+ post.
Proof.
  intros Hne -> Hidx. unfold strings.Replace1. rewrite Hne, Hidx.
  rewrite take_app. f_equal. f_equal.
  rewrite <- len_app, <- append_assoc. apply drop_app.
Qed.

Lemma quoted_ne_address loc a : String.eqb (quoted loc) ("0x" +:+ a) = false.
Proof. reflexivity. Qed.

(** ** Location extraction *)

Lemma imports_fold decls acc :
  fold_left
    (fun imports imp =>
       let '(location, ok) := common.asStringLocation (ast.Location imp) in
       if ok then imports ++ [common.StringLocation_String location] else imports)
    decls acc
  = acc ++ stringLocations decls.
Proof.
  revert acc. induction decls as [|d decls IH]; intros acc; simpl.
  - by rewrite app_nil_r.
  - rewrite IH. unfold stringLocations. simpl.
    destruct (ast.Location d) as [s|l]; simpl; [|done].
    by rewrite <- app_assoc.
Qed.

(** [imports] returns the string locations, in declaration order, with
    duplicates. *)
Lemma imports_stringLocations c :
  project_contracts.imports c
  = stringLocations (ast.ImportDeclarations (project_contracts.program c)).
Proof. unfold project_contracts.imports. by rewrite imports_fold. Qed.

Lemma getFileImports_fold decls acc :
  fold_left
    (fun imports importDeclaration =>
       let '(location, ok) := common.asAddressLocation (ast.Location importDeclaration) in
       if negb ok then imports ++ [common.AddressLocation_String location] else imports)
    decls acc
  = acc ++ map (fun _ => "0000000000000000") (stringLocations decls).
Proof.
  revert acc. induction decls as [|d decls IH]; intros acc; simpl.
  - by rewrite app_nil_r.
  - rewrite IH. unfold stringLocations. simpl.
    destruct (ast.Location d) as [s|l]; simpl; [|done].
    by rewrite <- app_assoc.
Qed.

(** [getFileImports] returns, for every import that is not an address
    import, the text of the zero address location, whatever the location of
    the import is. *)
Lemma getFileImports_zero r :
  flowcli_contracts.getFileImports r
  = map (fun _ => "0000000000000000")
      (stringLocations (ast.ImportDeclarations (flowcli_contracts.program r))).
Proof. unfold flowcli_contracts.getFileImports. by rewrite getFileImports_fold. Qed.

(** ** Path normalization *)

Lemma Clean_nonempty p : path.Clean p ≠ EmptyString.
Proof.
  unfold path.Clean. destruct p as [|c rest]; [done|].
  set (out := if Ascii.eqb c path.slash then _ else _). clearbody out.
  destruct out as [|x out]; [done|].
  unfold path.bufString. simpl.
  destruct (rev out) as [|y l]; simpl; done.
Qed.

Lemma Dir_nonempty p : path.Dir p ≠ EmptyString.
Proof. apply Clean_nonempty. Qed.

Lemma Join_nonempty a b :
  a ≠ EmptyString → path.Join a b = path.Clean (a +:+ "/" +:+ b).
Proof. destruct a; [done|]. by destruct b. Qed.

Lemma Clean_root_slash rest :
  path.Clean ("/" +:+ "/" +:+ "/" +:+ rest) = path.Clean ("/" +:+ rest).
Proof. reflexivity. Qed.

(** C6, as amended.  For every source path and every location, absolute or
    not, the normalized key is the cleaned concatenation of the directory of
    the importing module, a slash, and the location: an absolute location is
    looked up below the directory of the importing module.  The key is the
    cleaned location itself when that directory is the root. *)
Theorem absolutePath_joins basePath location :
  project_contracts.absolutePath basePath location
  = path.Clean (path.Dir basePath +:+ "/" +:+ location) ∧
  (∀ rest, path.Dir basePath = "/" → location = "/" +:+ rest →
           project_contracts.absolutePath basePath location = path.Clean location).
Proof.
  unfold project_contracts.absolutePath.
  rewrite Join_nonempty by apply Dir_nonempty. split; [done|].
  intros rest -> ->. apply Clean_root_slash.
Qed.

(** ** The alias key *)

Lemma HasPrefix_cdc_app pre post :
  pre ≠ EmptyString → strings.HasPrefix pre ".cdc" = false →
  strings.HasPrefix (pre +:+ ".cdc" +:+ post) ".cdc" = false.
Proof.
  intros Hne Hp.
  destruct pre as [|c1 [|c2 [|c3 [|c4 pre]]]]; [done| | | |];
    cbn [strings.HasPrefix String.append] in *;
    repeat match goal with
           | |- context [Ascii.eqb ?a ?b] =>
               is_var b; destruct (Ascii.eqb_spec a b) as [<-|?]; [|done]
           end;
    first [reflexivity | by destruct pre].
Qed.

(** [ReplaceAll] removes the leftmost occurrence and goes on behind it. *)
Lemma replaceAll_cdc pre post :
  strings.Contains pre ".cdc" = false →
  strings.replaceAll ".cdc" EmptyString 0 (pre +:+ ".cdc" +:+ post)
  = pre +:+ strings.replaceAll ".cdc" EmptyString 0 post.
Proof.
  induction pre as [|c pre IH]; intros Hc.
  - by destruct post.
  - assert (strings.HasPrefix (String c pre) ".cdc" = false
            ∧ strings.Contains pre ".cdc" = false) as [Hp Hc'].
    { cbn [strings.Contains] in Hc.
      destruct (strings.HasPrefix (String c pre) ".cdc"); done. }
    pose proof (HasPrefix_cdc_app (String c pre) post ltac:(done) Hp) as Hp'.
    change (String c pre +:+ ".cdc" +:+ post) with (String c (pre +:+ ".cdc" +:+ post)) in *.
    cbn [strings.replaceAll]. rewrite Hp'. by rewrite IH.
Qed.

(** Without an occurrence [ReplaceAll] changes nothing. *)
Lemma replaceAll_absent s :
  strings.Contains s ".cdc" = false →
  strings.replaceAll ".cdc" EmptyString 0 s = s.
Proof.
  induction s as [|c s IH]; [done|]. intros Hc.
  cbn [strings.Contains] in Hc.
  destruct (strings.HasPrefix (String c s) ".cdc") eqn:Hp; [done|].
  cbn [strings.replaceAll]. rewrite Hp. by rewrite IH.
Qed.

Lemma HasPrefix_split s pre :
  strings.HasPrefix s pre = true → ∃ post, s = pre +:+ post.
Proof.
  revert s. induction pre as [|c pre IH]; intros s.
  - intros _. by exists s.
  - destruct s as [|d s]; [done|]. cbn [strings.HasPrefix].
    destruct (Ascii.eqb_spec c d) as [<-|]; [|done].
    intros (post & ->)%IH. by exists post.
Qed.

Lemma HasPrefix_extend pre a b :
  strings.HasPrefix a pre = true → strings.HasPrefix (a +:+ b) pre = true.
Proof.
  revert a. induction pre as [|c pre IH]; intros a.
  { intros _. by destruct (a +:+ b). }
  destruct a as [|d a]; [done|].
  change (String d a +:+ b) with (String d (a +:+ b)).
  cbn [strings.HasPrefix].
  destruct (Ascii.eqb c d); [apply IH|done].
Qed.

(** A text that holds [.cdc] reads: a part without [.cdc], then [.cdc], then
    the rest. *)
Lemma Contains_cdc_split s :
  strings.Contains s ".cdc" = true →
  ∃ pre post, s = pre +:+ ".cdc" +:+ post ∧ strings.Contains pre ".cdc" = false.
Proof.
  induction s as [|c s IH]; [done|]. cbn [strings.Contains].
  destruct (strings.HasPrefix (String c s) ".cdc") eqn:Hp.
  - intros _. destruct (HasPrefix_split _ _ Hp) as (post & ->).
    by exists EmptyString, post.
  - intros (pre & post & -> & Hpre)%IH.
    exists (String c pre), post. split; [done|].
    cbn [strings.Contains].
    destruct (strings.HasPrefix (String c pre) ".cdc") eqn:Hp'; [|done].
    apply (HasPrefix_extend _ _ (".cdc" +:+ post)) in Hp'.
    change (String c pre +:+ ".cdc" +:+ post)
      with (String c (pre +:+ ".cdc" +:+ post)) in Hp'.
    congruence.
Qed.

(** C7, as amended.  For every import location, the alias key is the final
    path segment of the location ([filepath.Base]) from which one pass from
    the left has removed every occurrence of [.cdc], wherever it stands in
    the segment.  A segment without [.cdc] is the key as it is.  A segment
    that holds [.cdc] reads [pre], then [.cdc], then [post], where [pre]
    holds no [.cdc]; the key is then [pre] followed by what the removal
    leaves of [post], and in particular a segment whose only [.cdc] is its
    extension gives the segment without the extension. *)
Theorem getAliasForImport_removes_all location :
  (strings.Contains (filepath.Base location) ".cdc" = false →
   project_contracts.getAliasForImport location = filepath.Base location) ∧
  (strings.Contains (filepath.Base location) ".cdc" = true →
   ∃ pre post, filepath.Base location = pre +:+ ".cdc" +:+ post ∧
               strings.Contains pre ".cdc" = false) ∧
  (∀ pre post,
     filepath.Base location = pre +:+ ".cdc" +:+ post →
     strings.Contains pre ".cdc" = false →
     project_contracts.getAliasForImport location
     = pre +:+ strings.ReplaceAll post ".cdc" EmptyString ∧
     (strings.Contains post ".cdc" = false →
      project_contracts.getAliasForImport location = pre +:+ post) ∧
     (post = EmptyString → project_contracts.getAliasForImport location = pre)).
Proof.
  unfold project_contracts.getAliasForImport.
  assert (∀ s, strings.ReplaceAll s ".cdc" EmptyString
               = strings.replaceAll ".cdc" EmptyString 0 s) as HR by done.
  split; [|split].
  - intros Hc. rewrite HR. by apply replaceAll_absent.
  - apply Contains_cdc_split.
  - intros pre post HB Hc. rewrite HB, !HR, (replaceAll_cdc pre post Hc).
    split; [done|]. split.
    + intros Hpost. by rewrite (replaceAll_absent post Hpost).
    + intros ->. cbn [strings.replaceAll]. clear.
      induction pre as [|c pre IH]; [done|].
      change (String c pre +:+ EmptyString) with (String c (pre +:+ EmptyString)).
      by rewrite IH.
Qed.

End Strings.

(* ===================================================================== *)
(** * Part IX.  Tarjan's algorithm and the topological sort              *)
(* ===================================================================== *)

Lemma indexOf_visit v t x :
  topo.indexOf (topo.visit v t) x
  = if decide (x = v) then S (topo.index t) else topo.indexOf t x.
Proof.
  unfold topo.indexOf, topo.visit; simpl.
  destruct (decide (x = v)) as [->|Hne].
  - by rewrite lookup_insert_eq.
  - by rewrite lookup_insert_ne.
Qed.

Lemma lowOf_visit v t x :
  topo.lowOf (topo.visit v t) x
  = if decide (x = v) then S (topo.index t) else topo.lowOf t x.
Proof.
  unfold topo.lowOf, topo.visit; simpl.
  destruct (decide (x = v)) as [->|Hne].
  - by rewrite lookup_insert_eq.
  - by rewrite lookup_insert_ne.
Qed.

Lemma lowOf_setLowLink v n t x :
  topo.lowOf (topo.setLowLink v n t) x
  = if decide (x = v) then n else topo.lowOf t x.
Proof.
  unfold topo.lowOf, topo.setLowLink; simpl.
  destruct (decide (x = v)) as [->|Hne].
  - by rewrite lookup_insert_eq.
  - by rewrite lookup_insert_ne.
Qed.

Lemma Inv_setLowLink succ nodes v n t :
  Inv succ nodes t → Inv succ nodes (topo.setLowLink v n t).
Proof. intros [???????????]. by constructor. Qed.

(** Sortedness of the stack only looks at the indices of its elements. *)
Lemma sorted_indices (f g : Z → nat) (l : list Z) :
  (∀ x, x ∈ l → g x = f x) →
  StronglySorted (fun a b => (f b < f a)%nat) l →
  StronglySorted (fun a b => (g b < g a)%nat) l.
Proof.
  induction l as [|a l IH]; intros Heq Hs; [constructor|].
  apply StronglySorted_cons in Hs as [Hall Hs].
  apply StronglySorted_cons. split.
  - rewrite Forall_forall in Hall |- *. intros b Hb.
    rewrite (Heq a), (Heq b); [by apply Hall| |]; set_solver.
  - apply IH; [|done]. intros x Hx. apply Heq. set_solver.
Qed.

Lemma sorted_NoDup (f : Z → nat) (l : list Z) :
  StronglySorted (fun a b => (f b < f a)%nat) l → NoDup l.
Proof.
  induction l as [|a l IH]; intros Hs; [constructor|].
  apply StronglySorted_cons in Hs as [Hall Hs].
  constructor; [|by apply IH].
  intros Hin. rewrite Forall_forall in Hall. specialize (Hall a Hin). lia.
Qed.

(** The pop loop takes the nodes above [v], then [v], off the stack. *)
Lemma popComponent_spec v T S on acc :
  v ∉ T →
  topo.popComponent v (T ++ v :: S) on acc
  = Returns (S, on ∖ list_to_set (T ++ [v]), acc ++ T ++ [v]).
Proof.
  revert on acc. induction T as [|w T IH]; intros on acc Hv; simpl.
  - rewrite decide_True by done. do 3 f_equal. set_solver.
  - rewrite decide_False by set_solver.
    rewrite IH by set_solver. do 2 f_equal.
    + f_equal. set_solver.
    + by rewrite <- app_assoc.
Qed.

Lemma unvisited_mono nodes t t' :
  (∀ x, visited t x → visited t' x) → (unvisited nodes t' ≤ unvisited nodes t)%nat.
Proof.
  intros Hm. unfold unvisited. induction nodes as [|a l IH]; simpl; [done|].
  rewrite !filter_cons.
  destruct (decide (topo.indexOf t' a = 0%nat)) as [H'|H'];
    destruct (decide (topo.indexOf t a = 0%nat)) as [H|H]; simpl; try lia.
  exfalso. by apply (Hm a).
Qed.

Lemma unvisited_lt nodes t t' v :
  v ∈ nodes → ¬ visited t v → visited t' v →
  (∀ x, visited t x → visited t' x) → (unvisited nodes t' < unvisited nodes t)%nat.
Proof.
  intros Hin Hv Hv' Hm. unfold unvisited.
  induction nodes as [|a l IH]; [by apply elem_of_nil in Hin|].
  rewrite !filter_cons.
  pose proof (unvisited_mono l t t' Hm) as Hle. unfold unvisited in Hle.
  destruct (decide (a = v)) as [->|Hne].
  - rewrite decide_False by done.
    rewrite decide_True; [simpl; lia|].
    unfold visited in Hv. destruct (topo.indexOf t v); [done|]. by destruct Hv.
  - assert (v ∈ l) as Hl by set_solver. specialize (IH Hl).
    destruct (decide (topo.indexOf t' a = 0%nat)) as [H'|H'];
      destruct (decide (topo.indexOf t a = 0%nat)) as [H|H]; simpl; try lia.
    exfalso. by apply (Hm a).
Qed.

Lemma closed_snoc succ l v :
  closed succ l → (∀ w, w ∈ succ v → w ∈ l) → closed succ (l ++ [v]).
Proof.
  intros Hc Hv i x w Hi Hw.
  destruct (decide (i < length l)%nat) as [Hlt|Hge].
  - rewrite lookup_app_l in Hi by done.
    destruct (Hc i x w Hi Hw) as (j & Hj & Hjw).
    exists j. split; [done|]. rewrite lookup_app_l; [done|lia].
  - rewrite lookup_app_r in Hi by lia.
    destruct (i - length l)%nat as [|k] eqn:Hk; simpl in Hi; [|by destruct k].
    injection Hi as <-.
    apply Hv, list_elem_of_lookup in Hw as [j Hj].
    exists j. pose proof (lookup_lt_Some _ _ _ Hj).
    split; [lia|]. by rewrite lookup_app_l.
Qed.

Lemma singletons_snoc l s : singletons (l ++ [s]) → singletons l ∧ length s = 1%nat.
Proof.
  unfold singletons. rewrite Forall_app, Forall_singleton. tauto.
Qed.

Section TarjanCorrect.
Variable succ : Z → list Z.
Variable nodes : list Z.
Hypothesis succ_closed : ∀ v w, w ∈ succ v → w ∈ nodes.
Hypothesis succ_irrefl : ∀ v, v ∉ succ v.

Local Abbreviation reach := (rtc (edge succ)).
Local Abbreviation Inv := (Inv succ nodes).
Local Abbreviation LoopInv := (LoopInv succ nodes).
Local Abbreviation Post := (Post succ nodes).

Lemma visited_visit v t x : visited (topo.visit v t) x ↔ x = v ∨ visited t x.
Proof.
  unfold visited. rewrite indexOf_visit.
  destruct (decide (x = v)); split; intros; try tauto; try lia.
Qed.

Lemma Inv_visit v t :
  Inv t → ¬ visited t v → v ∈ nodes → Inv (topo.visit v t).
Proof.
  intros HI Hv Hn.
  assert (topo.indexOf t v = 0%nat) as Hv0.
  { unfold visited in Hv. destruct (topo.indexOf t v); [done|]. by destruct Hv. }
  assert (v ∉ topo.stack t) as Hvs.
  { intros Hin. by apply Hv, (inv_stack_visited _ _ _ HI). }
  constructor.
  - intros x. rewrite indexOf_visit. simpl.
    destruct (decide (x = v)); [lia|]. pose proof (inv_index _ _ _ HI x). lia.
  - simpl. apply StronglySorted_cons. split.
    + apply Forall_forall. intros x Hx. rewrite !indexOf_visit.
      rewrite (decide_True (P := v = v)) by done.
      rewrite (decide_False (P := x = v)) by set_solver.
      pose proof (inv_index _ _ _ HI x). lia.
    + eapply sorted_indices; [|apply (inv_sorted _ _ _ HI)].
      intros x Hx. rewrite indexOf_visit. rewrite decide_False; [done|set_solver].
  - simpl. intros x Hx. apply visited_visit.
    apply elem_of_cons in Hx as [->|Hx]; [by left|right].
    by apply (inv_stack_visited _ _ _ HI).
  - simpl. intros x. rewrite elem_of_union, elem_of_singleton, elem_of_cons.
    by rewrite (inv_onStack _ _ _ HI).
  - intros x Hx. apply visited_visit in Hx as [->|Hx]; simpl.
    + left. set_solver.
    + destruct (inv_visited _ _ _ HI x Hx); [left; set_solver|by right].
  - intros x Hx. change (emitted (topo.visit v t)) with (emitted t) in Hx.
    destruct (inv_emitted _ _ _ HI x Hx) as [Hvx Hns]. split.
    + apply visited_visit. by right.
    + simpl. intros [->|Hin]%elem_of_cons; [by apply Hv|by apply Hns].
  - apply (inv_emitted_nodup _ _ _ HI).
  - intros x [->|Hx]%visited_visit; [done|]. by apply (inv_nodes _ _ _ HI).
  - apply (inv_sound _ _ _ HI).
  - apply (inv_nonempty _ _ _ HI).
  - apply (inv_closed _ _ _ HI).
Qed.

Lemma LoopInv_init v t0 :
  Inv t0 → ¬ visited t0 v → v ∈ nodes → LoopInv t0 v [] (topo.visit v t0).
Proof.
  intros HI Hv Hn. constructor.
  - by apply Inv_visit.
  - simpl. lia.
  - intros x Hx. rewrite indexOf_visit.
    rewrite decide_False; [done|]. by intros ->.
  - intros x Hx. rewrite lowOf_visit.
    rewrite decide_False; [done|]. by intros ->.
  - rewrite indexOf_visit. by rewrite decide_True.
  - intros x Hx [->|Hx']%visited_visit; [|done].
    rewrite indexOf_visit, decide_True by done. split; [lia|done].
  - exists []. split; [done|]. intros x Hx. by apply elem_of_nil in Hx.
  - rewrite lowOf_visit, indexOf_visit, !decide_True by done. split; [lia|by left].
  - intros w Hw. by apply elem_of_nil in Hw.
Qed.

(** Where a node of the stack lies, by its index. *)
Lemma stack_below t0 v T t y :
  Inv t → topo.stack t = T ++ v :: topo.stack t0 → y ∈ topo.stack t →
  (topo.indexOf t y < topo.indexOf t v)%nat → y ∈ topo.stack t0.
Proof.
  intros HI Hst Hy Hlt.
  pose proof (inv_sorted _ _ _ HI) as Hs. rewrite Hst in Hs, Hy.
  apply elem_of_app in Hy as [Hy|Hy].
  - exfalso.
    pose proof (StronglySorted_app_1_elem_of _ _ _ y v Hs Hy) as H.
    simpl in H. specialize (H ltac:(set_solver)). lia.
  - apply elem_of_cons in Hy as [->|Hy]; [lia|done].
Qed.

Lemma stack_above t0 v T t y :
  Inv t → topo.stack t = T ++ v :: topo.stack t0 → y ∈ topo.stack t0 →
  (topo.indexOf t y < topo.indexOf t v)%nat.
Proof.
  intros HI Hst Hy.
  pose proof (inv_sorted _ _ _ HI) as Hs. rewrite Hst in Hs.
  apply StronglySorted_app_1_r, StronglySorted_cons in Hs as [Hall _].
  rewrite Forall_forall in Hall. by apply Hall.
Qed.

Lemma visited_old t0 t x :
  (∀ x, visited t0 x → topo.indexOf t x = topo.indexOf t0 x) →
  visited t0 x → visited t x.
Proof. intros Hold Hx. unfold visited. rewrite Hold; done. Qed.

(** A successor that is on the stack. *)
Lemma step_onStack t0 v done t w :
  LoopInv t0 v done t → ¬ visited t0 v → w ∈ succ v →
  visited t w → w ∈ topo.onStack t →
  LoopInv t0 v (done ++ [w])
    (topo.setLowLink v (Nat.min (topo.lowOf t v) (topo.indexOf t w)) t).
Proof.
  intros [HI Hidx Hold Hlow Hv Hnew (T & Hst & HT) [Hle Hl] Hdone] Hv0 Hw Hwv Hon.
  set (n := Nat.min (topo.lowOf t v) (topo.indexOf t w)).
  assert (topo.lowOf (topo.setLowLink v n t) v = n) as Hn.
  { by rewrite lowOf_setLowLink, decide_True. }
  constructor; try done.
  - by apply Inv_setLowLink.
  - intros x Hx. rewrite lowOf_setLowLink, decide_False; [by apply Hlow|].
    by intros ->.
  - by exists T.
  - rewrite Hn. change (topo.indexOf (topo.setLowLink v n t)) with (topo.indexOf t).
    split; [lia|].
    destruct (decide (topo.lowOf t v ≤ topo.indexOf t w)%nat) as [Hc|Hc].
    + replace n with (topo.lowOf t v) by lia. done.
    + right. exists w. replace n with (topo.indexOf t w) by lia.
      split; [|split; [done|by apply rtc_once]].
      eapply stack_below; [done|done| |lia]. by apply (inv_onStack _ _ _ HI).
  - intros x [Hx|Hx]%elem_of_app.
    + destruct (Hdone x Hx) as [Hxv Hxs]. split; [done|].
      intros Hin. rewrite Hn. specialize (Hxs Hin).
      change (topo.indexOf (topo.setLowLink v n t)) with (topo.indexOf t). lia.
    + apply list_elem_of_singleton in Hx as ->. split; [done|].
      intros _. rewrite Hn.
      change (topo.indexOf (topo.setLowLink v n t)) with (topo.indexOf t). lia.
Qed.

(** A successor that was visited and is no longer on the stack. *)
Lemma step_offStack t0 v done t w :
  LoopInv t0 v done t → visited t w → w ∉ topo.onStack t →
  LoopInv t0 v (done ++ [w]) t.
Proof.
  intros [HI Hidx Hold Hlow Hv Hnew (T & Hst & HT) Hl Hdone] Hwv Hoff.
  constructor; try done.
  - by exists T.
  - intros x [Hx|Hx]%elem_of_app; [by apply Hdone|].
    apply list_elem_of_singleton in Hx as ->. split; [done|].
    intros Hin. exfalso. apply Hoff, (inv_onStack _ _ _ HI). rewrite Hst. set_solver.
Qed.

(** A successor that had not been visited: the state after the recursive
    call and the update of the low link of [v]. *)
Lemma step_call t0 v done t w t' :
  LoopInv t0 v done t → ¬ visited t0 v → w ∈ succ v →
  (∀ x, x ∈ topo.stack t0 → reach x v) →
  ¬ visited t w → Post t w t' →
  LoopInv t0 v (done ++ [w])
    (topo.setLowLink v (Nat.min (topo.lowOf t' v) (topo.lowOf t' w)) t').
Proof.
  intros [HI Hidx Hold Hlow Hv Hnew (T & Hst & HT) [Hle Hl] Hdone] Hv0 Hw Hpre Hwn
         [HI' Hidx' Hold' Hlow' Hw' Hnew' Hstack'].
  set (n := Nat.min (topo.lowOf t' v) (topo.lowOf t' w)).
  assert (topo.lowOf (topo.setLowLink v n t') v = n) as Hn.
  { by rewrite lowOf_setLowLink, decide_True. }
  assert (visited t v) as Hvt by (unfold visited; lia).
  assert (topo.indexOf t' v = topo.indexOf t v) as Hiv by by apply Hold'.
  assert (topo.lowOf t' v = topo.lowOf t v) as Hlv by by apply Hlow'.
  assert (∀ x, visited t0 x → visited t x) as Hmono.
  { intros x Hx. by eapply visited_old. }
  assert (∀ y, y ∈ topo.stack t → reach y v) as Hreach.
  { intros y Hy. rewrite Hst in Hy.
    apply elem_of_app in Hy as [Hy|Hy]; [by apply HT|].
    apply elem_of_cons in Hy as [->|Hy]; [done|by apply Hpre]. }
  assert (∀ y, y ∈ topo.stack t0 → visited t0 y) as Hs0.
  { intros y Hy. destruct (decide (topo.indexOf t0 y = 0%nat)) as [H0|H0]; [|done].
    exfalso.
    assert (visited t y) as Hyv.
    { apply (inv_stack_visited _ _ _ HI). rewrite Hst. set_solver. }
    assert (¬ visited t0 y) as Hny by (unfold visited; lia).
    destruct (Hnew y Hny Hyv) as [Hgt _].
    pose proof (stack_above t0 v T t y HI Hst Hy). lia. }
  constructor.
  - by apply Inv_setLowLink.
  - change (topo.index (topo.setLowLink v n t')) with (topo.index t'). lia.
  - intros x Hx. change (topo.indexOf (topo.setLowLink v n t') x) with (topo.indexOf t' x).
    rewrite Hold' by auto. by apply Hold.
  - intros x Hx. rewrite lowOf_setLowLink, decide_False by (by intros ->).
    rewrite Hlow' by auto. by apply Hlow.
  - change (topo.indexOf (topo.setLowLink v n t') v) with (topo.indexOf t' v). lia.
  - intros x Hx0 Hx.
    change (topo.indexOf (topo.setLowLink v n t') x) with (topo.indexOf t' x).
    change (visited t' x) in Hx.
    destruct (decide (topo.indexOf t x = 0%nat)) as [Hc|Hc].
    + assert (¬ visited t x) as Hnx by (unfold visited; lia).
      destruct (Hnew' x Hnx Hx) as [Hgt Hr]. split; [lia|].
      eapply rtc_l; [exact Hw|done].
    + rewrite Hold' by done. by apply Hnew.
  - change (topo.stack (topo.setLowLink v n t')) with (topo.stack t').
    destruct Hstack' as [[Hs' _]|(T' & Hs' & _ & (y & Hy & _ & Hry) & HT')].
    + exists T. split; [congruence|done].
    + exists (T' ++ w :: T). split.
      { rewrite Hs', Hst. by rewrite <- app_assoc. }
      assert (reach w v) as Hwv by (etrans; [exact Hry|by apply Hreach]).
      intros x [Hx|Hx]%elem_of_app.
      * destruct (HT' x Hx) as [Hr Hnx]. split; [by etrans|]. intros ?. by apply Hnx, Hmono.
      * apply elem_of_cons in Hx as [->|Hx]; [|by apply HT].
        split; [done|]. intros ?. by apply Hwn, Hmono.
  - rewrite Hn. change (topo.indexOf (topo.setLowLink v n t')) with (topo.indexOf t').
    rewrite Hiv. split; [lia|].
    destruct (decide (topo.lowOf t v ≤ topo.lowOf t' w)%nat) as [Hc|Hc].
    + replace n with (topo.lowOf t v) by lia.
      destruct Hl as [Hl|(y & Hy & Hyi & Hyr)]; [by left|right].
      exists y. split; [done|]. split; [|done].
      rewrite Hold' by (apply Hmono; auto). done.
    + replace n with (topo.lowOf t' w) by lia. right.
      destruct Hstack' as [[_ Hroot]|(T' & Hs' & Hlt & (y & Hy & Hyi & Hry) & HT')].
      { exfalso. pose proof (inv_index _ _ _ HI v). lia. }
      exists y. split; [|split; [done|by eapply rtc_l]].
      assert (visited t y) as Hyv by by apply (inv_stack_visited _ _ _ HI).
      eapply (stack_below t0 v T t); [done|done|done|].
      rewrite <- (Hold' y Hyv). lia.
  - intros x [Hx|Hx]%elem_of_app.
    + destruct (Hdone x Hx) as [Hxv Hxs]. split.
      { by eapply visited_old. }
      intros Hin. rewrite Hn. specialize (Hxs Hin).
      change (topo.indexOf (topo.setLowLink v n t') x) with (topo.indexOf t' x).
      rewrite Hold' by done. lia.
    + apply list_elem_of_singleton in Hx as ->. split.
      { unfold visited.
        change (topo.indexOf (topo.setLowLink v n t') w) with (topo.indexOf t' w). lia. }
      intros Hin. exfalso. by apply Hwn, Hmono, Hs0.
Qed.

Lemma emitted_snoc t s :
  concat (topo.sccs t ++ [s]) = emitted t ++ s.
Proof. unfold emitted. by rewrite concat_app; simpl; rewrite app_nil_r. Qed.

(** The end of [strongconnect(v)] when [v] is a root: the component is
    popped and generated. *)
Lemma finish_root t0 v t :
  LoopInv t0 v (succ v) t → ¬ visited t0 v →
  topo.lowOf t v = topo.indexOf t v →
  ∃ stk on scc,
    topo.popComponent v (topo.stack t) (topo.onStack t) [] = Returns (stk, on, scc) ∧
    Post t0 v
      {| topo.index := topo.index t; topo.indexTable := topo.indexTable t;
         topo.lowLink := topo.lowLink t; topo.onStack := on; topo.stack := stk;
         topo.sccs := topo.sccs t ++ [scc] |}.
Proof.
  intros [HI Hidx Hold Hlow Hv Hnew (T & Hst & HT) [Hle Hl] Hdone] Hv0 Hroot.
  pose proof (sorted_NoDup _ _ (inv_sorted _ _ _ HI)) as Hnd.
  rewrite Hst in Hnd.
  apply NoDup_app in Hnd as (HndT & HTS & HndS).
  apply NoDup_cons in HndS as [HvS HndS].
  assert (v ∉ T) as HvT by (intros Hin; apply (HTS v Hin); set_solver).
  exists (topo.stack t0), (topo.onStack t ∖ list_to_set (T ++ [v])), (T ++ [v]).
  split. { rewrite Hst. by rewrite popComponent_spec. }
  set (t' := topo.mkTarjan _ _ _ _ _ _).
  assert (∀ x, topo.indexOf t' x = topo.indexOf t x) as Hi' by done.
  assert (∀ x, visited t' x ↔ visited t x) as Hv' by done.
  assert (emitted t' = emitted t ++ T ++ [v]) as Hem by apply emitted_snoc.
  assert (∀ x, x ∈ T ++ [v] → x ∈ topo.stack t) as Hsub.
  { intros x Hx. rewrite Hst. set_solver. }
  assert (∀ x, x ∈ T ++ [v] → rtc (edge succ) x v ∧ rtc (edge succ) v x) as Hscc.
  { intros x [Hx|Hx]%elem_of_app.
    - destruct (HT x Hx) as [Hr Hn]. split; [done|].
      apply Hnew; [done|]. apply (inv_stack_visited _ _ _ HI), Hsub. set_solver.
    - apply list_elem_of_singleton in Hx as ->. done. }
  constructor; try done.
  - constructor.
    + apply (inv_index _ _ _ HI).
    + simpl. pose proof (inv_sorted _ _ _ HI) as Hs. rewrite Hst in Hs.
      by apply StronglySorted_app_1_r, StronglySorted_cons in Hs as [_ Hs].
    + simpl. intros x Hx. apply Hv', (inv_stack_visited _ _ _ HI).
      rewrite Hst. set_solver.
    + simpl. intros x. rewrite elem_of_difference, elem_of_list_to_set.
      rewrite (inv_onStack _ _ _ HI), Hst. split.
      * intros [Hin Hnot]. set_solver.
      * intros Hin. split; [set_solver|].
        intros [Hx|Hx]%elem_of_app; [by apply (HTS x Hx); set_solver|].
        apply list_elem_of_singleton in Hx as ->. done.
    + intros x Hx. rewrite Hem. simpl.
      destruct (inv_visited _ _ _ HI x) as [Hin|Hin]; [by apply Hv'| |set_solver].
      rewrite Hst in Hin. set_solver.
    + intros x Hx. rewrite Hem in Hx. simpl.
      apply elem_of_app in Hx as [Hx|Hx].
      * destruct (inv_emitted _ _ _ HI x Hx) as [Hxv Hxs]. split; [done|].
        intros Hin. apply Hxs. rewrite Hst. set_solver.
      * split; [by apply (inv_stack_visited _ _ _ HI), Hsub|].
        intros Hin. apply elem_of_app in Hx as [Hx|Hx].
        -- apply (HTS x Hx). set_solver.
        -- apply list_elem_of_singleton in Hx as ->. done.
    + rewrite Hem. apply NoDup_app. split; [apply (inv_emitted_nodup _ _ _ HI)|]. split.
      * intros x Hx Hx'. by apply (inv_emitted _ _ _ HI x Hx), Hsub.
      * apply NoDup_app. split; [done|]. split; [|apply NoDup_singleton].
        intros x Hx ->%list_elem_of_singleton. done.
    + apply (inv_nodes _ _ _ HI).
    + simpl. intros scc x y [Hin|Hin]%elem_of_app Hx Hy.
      * by apply (inv_sound _ _ _ HI scc).
      * apply list_elem_of_singleton in Hin as ->.
        etrans; [apply (Hscc x Hx)|apply (Hscc y Hy)].
    + simpl. intros scc [Hin|Hin]%elem_of_app.
      * by apply (inv_nonempty _ _ _ HI).
      * apply list_elem_of_singleton in Hin as ->. by destruct T.
    + simpl. intros [Hsing Hlen]%singletons_snoc. rewrite Hem.
      destruct T as [|a T]; [|rewrite length_app in Hlen; simpl in Hlen; lia].
      simpl. apply closed_snoc; [by apply (inv_closed _ _ _ HI)|].
      intros w Hw. destruct (Hdone w Hw) as [Hwv Hws].
      destruct (inv_visited _ _ _ HI w Hwv) as [Hin|Hin]; [|done].
      exfalso. rewrite Hst in Hin. simpl in Hin.
      apply elem_of_cons in Hin as [->|Hin]; [by apply (succ_irrefl v)|].
      specialize (Hws Hin).
      pose proof (stack_above t0 v [] t w HI Hst Hin). lia.
  - by left.
Qed.

(** The end of [strongconnect(v)] when [v] is not a root. *)
Lemma finish_nonroot t0 v t :
  LoopInv t0 v (succ v) t →
  topo.lowOf t v ≠ topo.indexOf t v →
  Post t0 v t.
Proof.
  intros [HI Hidx Hold Hlow Hv Hnew (T & Hst & HT) [Hle Hl] Hdone] Hnr.
  constructor; try done.
  right. exists T. split; [done|]. split; [lia|]. split; [|done].
  by destruct Hl.
Qed.

Lemma strongconnect_unfold fuel v t :
  topo.strongconnect succ (S fuel) v t
  = outcome_bind (foldOutcome (successorStep succ fuel v) (succ v) (topo.visit v t))
      (fun t2 =>
         if decide (topo.lowOf t2 v = topo.indexOf t2 v) then
           outcome_bind (topo.popComponent v (topo.stack t2) (topo.onStack t2) [])
             (fun '(stk, on, scc) => Returns
                {| topo.index := topo.index t2; topo.indexTable := topo.indexTable t2;
                   topo.lowLink := topo.lowLink t2; topo.onStack := on;
                   topo.stack := stk; topo.sccs := topo.sccs t2 ++ [scc] |})
         else Returns t2).
Proof. reflexivity. Qed.

Lemma LoopInv_unvisited t0 v done t :
  LoopInv t0 v done t → v ∈ nodes → ¬ visited t0 v →
  (unvisited nodes t < unvisited nodes t0)%nat.
Proof.
  intros HL Hn Hv0. apply (unvisited_lt nodes t0 t v); [done|done| |].
  - unfold visited. rewrite (li_v _ _ _ _ _ _ HL). lia.
  - intros x Hx. eapply visited_old; [|done]. apply (li_old _ _ _ _ _ _ HL).
Qed.

(** The loop over the successors, given that the recursive calls behave. *)
Lemma successors_spec fuel t0 v :
  (∀ w t, Inv t → w ∈ nodes → ¬ visited t w →
          (∀ x, x ∈ topo.stack t → reach x w) →
          (unvisited nodes t ≤ fuel)%nat →
          ∃ t', topo.strongconnect succ fuel w t = Returns t' ∧ Post t w t') →
  v ∈ nodes → ¬ visited t0 v →
  (∀ x, x ∈ topo.stack t0 → reach x v) →
  (unvisited nodes t0 ≤ S fuel)%nat →
  ∀ ws done t,
    (∀ w, w ∈ ws → w ∈ succ v) →
    LoopInv t0 v done t →
    ∃ t2, foldOutcome (successorStep succ fuel v) ws t = Returns t2 ∧
          LoopInv t0 v (done ++ ws) t2.
Proof.
  intros IH Hn Hv0 Hpre Hfuel ws.
  induction ws as [|w ws IHws]; intros done t Hws HL.
  - exists t. by rewrite app_nil_r.
  - assert (w ∈ succ v) as Hw by (apply Hws; set_solver).
    assert (∀ w', w' ∈ ws → w' ∈ succ v) as Hws' by (intros; apply Hws; set_solver).
    replace (done ++ w :: ws) with ((done ++ [w]) ++ ws)
      by (by rewrite <- app_assoc).
    simpl. unfold successorStep at 1.
    destruct (decide (topo.indexOf t w = 0%nat)) as [H0|H0].
    + assert (¬ visited t w) as Hwn by (unfold visited; lia).
      destruct (IH w t) as (t' & Hcall & HP).
      * apply (li_inv _ _ _ _ _ _ HL).
      * by eapply succ_closed.
      * done.
      * intros x Hx. destruct (li_stack _ _ _ _ _ _ HL) as (T & Hst & HT).
        rewrite Hst in Hx. eapply rtc_r; [|exact Hw].
        apply elem_of_app in Hx as [Hx|Hx]; [by apply HT|].
        apply elem_of_cons in Hx as [->|Hx]; [done|by apply Hpre].
      * pose proof (LoopInv_unvisited _ _ _ _ HL Hn Hv0). lia.
      * rewrite Hcall. simpl. apply IHws; [done|].
        by eapply step_call.
    + assert (visited t w) as Hwv by done.
      destruct (decide (w ∈ topo.onStack t)) as [Hon|Hoff]; simpl.
      * apply IHws; [done|]. by apply step_onStack.
      * apply IHws; [done|]. by apply step_offStack.
Qed.

Lemma unvisited_pos t v : v ∈ nodes → ¬ visited t v → (0 < unvisited nodes t)%nat.
Proof.
  intros Hn Hv. unfold unvisited.
  assert (v ∈ filter (fun x => topo.indexOf t x = 0%nat) nodes) as Hin.
  { apply list_elem_of_filter. split; [|done].
    unfold visited in Hv. destruct (topo.indexOf t v); [done|]. by destruct Hv. }
  destruct (filter _ nodes); [by apply elem_of_nil in Hin|simpl; lia].
Qed.

(** [strongconnect] returns, given fuel for the nodes not yet visited, and
    leaves the state described by [Post]. *)
Lemma strongconnect_spec fuel :
  ∀ v t0, Inv t0 → v ∈ nodes → ¬ visited t0 v →
          (∀ x, x ∈ topo.stack t0 → reach x v) →
          (unvisited nodes t0 ≤ fuel)%nat →
          ∃ t, topo.strongconnect succ fuel v t0 = Returns t ∧ Post t0 v t.
Proof.
  induction fuel as [|fuel IH]; intros v t0 HI Hn Hv0 Hpre Hfuel.
  - pose proof (unvisited_pos t0 v Hn Hv0). lia.
  - rewrite strongconnect_unfold.
    destruct (successors_spec fuel t0 v IH Hn Hv0 Hpre Hfuel (succ v) []
                (topo.visit v t0)) as (t2 & Hloop & HL).
    + done.
    + by apply LoopInv_init.
    + rewrite Hloop. simpl in HL |- *.
      destruct (decide (topo.lowOf t2 v = topo.indexOf t2 v)) as [Hroot|Hnr].
      * destruct (finish_root t0 v t2 HL Hv0 Hroot) as (stk & on & scc & Hpop & HP).
        rewrite Hpop. simpl. eauto.
      * exists t2. split; [done|]. by apply finish_nonroot.
Qed.

Lemma indexOf_new x : topo.indexOf topo.newTarjan x = 0%nat.
Proof. unfold topo.indexOf. simpl. by rewrite lookup_empty. Qed.

Lemma Inv_new : Inv topo.newTarjan.
Proof.
  constructor.
  - intros x. rewrite indexOf_new. lia.
  - constructor.
  - intros x Hx. by apply elem_of_nil in Hx.
  - intros x. simpl. set_solver.
  - intros x Hx. exfalso. apply Hx, indexOf_new.
  - intros x Hx. by apply elem_of_nil in Hx.
  - constructor.
  - intros x Hx. exfalso. apply Hx, indexOf_new.
  - intros scc x y Hin. by apply elem_of_nil in Hin.
  - intros scc Hin. by apply elem_of_nil in Hin.
  - intros _ i x w Hi. unfold emitted in Hi. simpl in Hi. by rewrite lookup_nil in Hi.
Qed.

Lemma unvisited_le t : (unvisited nodes t ≤ length nodes)%nat.
Proof. unfold unvisited. apply length_filter. Qed.

(** The loop of [TarjanSCC] over the nodes: between two calls the stack is
    empty. *)
Lemma nodes_spec ws :
  ∀ done t,
    (∀ w, w ∈ ws → w ∈ nodes) →
    Inv t → topo.stack t = [] → (∀ x, x ∈ done → visited t x) →
    ∃ t', foldOutcome (nodeStep succ (length nodes)) ws t = Returns t' ∧
          Inv t' ∧ topo.stack t' = [] ∧ ∀ x, x ∈ done ++ ws → visited t' x.
Proof.
  induction ws as [|w ws IH]; intros done t Hws HI Hst Hdone.
  - exists t. rewrite app_nil_r. done.
  - replace (done ++ w :: ws) with ((done ++ [w]) ++ ws) by (by rewrite <- app_assoc).
    simpl. unfold nodeStep at 1.
    assert (∀ w', w' ∈ ws → w' ∈ nodes) as Hws' by (intros; apply Hws; set_solver).
    destruct (decide (topo.indexOf t w = 0%nat)) as [H0|H0].
    + destruct (strongconnect_spec (length nodes) w t) as (t' & Hcall & HP).
      * done.
      * apply Hws. set_solver.
      * unfold visited. lia.
      * intros x Hx. rewrite Hst in Hx. by apply elem_of_nil in Hx.
      * apply unvisited_le.
      * rewrite Hcall. simpl. apply IH; [done|apply (post_inv _ _ _ _ _ HP)| |].
        -- destruct (post_stack _ _ _ _ _ HP) as [[Hs _]|(T & _ & _ & (y & Hy & _) & _)].
           ++ congruence.
           ++ rewrite Hst in Hy. by apply elem_of_nil in Hy.
        -- intros x [Hx|Hx]%elem_of_app.
           ++ eapply visited_old; [apply (post_old _ _ _ _ _ HP)|by apply Hdone].
           ++ apply list_elem_of_singleton in Hx as ->. unfold visited.
              rewrite (post_v _ _ _ _ _ HP). lia.
    + simpl. apply IH; try done.
      intros x [Hx|Hx]%elem_of_app; [by apply Hdone|].
      by apply list_elem_of_singleton in Hx as ->.
Qed.

Hypothesis nodes_NoDup : NoDup nodes.

(** [TarjanSCC] returns; its components hold every node once, the nodes of a
    component reach one another, and when all components are single nodes
    every node comes after its successors. *)
Lemma TarjanSCC_spec :
  ∃ sccs, topo.TarjanSCC succ nodes = Returns sccs ∧
          concat sccs ≡ₚ nodes ∧
          (∀ scc x y, scc ∈ sccs → x ∈ scc → y ∈ scc → reach x y) ∧
          (∀ scc, scc ∈ sccs → scc ≠ []) ∧
          (singletons sccs → closed succ (concat sccs)).
Proof.
  destruct (nodes_spec nodes [] topo.newTarjan) as (t & Hrun & HI & Hst & Hvis).
  - done.
  - apply Inv_new.
  - done.
  - intros x Hx. by apply elem_of_nil in Hx.
  - exists (topo.sccs t). split.
    { unfold topo.TarjanSCC. fold (nodeStep succ (length nodes)). by rewrite Hrun. }
    split; [|split; [apply (inv_sound _ _ _ HI)|split;
                     [apply (inv_nonempty _ _ _ HI)|apply (inv_closed _ _ _ HI)]]].
    apply NoDup_Permutation; [apply (inv_emitted_nodup _ _ _ HI)|done|].
    intros x. split.
    + intros Hx. by apply (inv_nodes _ _ _ HI), (inv_emitted _ _ _ HI).
    + intros Hx. destruct (inv_visited _ _ _ HI x) as [Hin|Hin]; [by apply Hvis| |done].
      rewrite Hst in Hin. by apply elem_of_nil in Hin.
Qed.

Hypothesis succ_dom : ∀ v w, w ∈ succ v → v ∈ nodes.

(** An order in which every node comes after its successors leaves no room
    for a cycle. *)
Lemma closed_acyclic E :
  E ≡ₚ nodes → closed succ E → acyclic succ.
Proof.
  intros HE Hc.
  assert (∀ x y, tc (edge succ) x y →
            ∀ i, E !! i = Some x → ∃ j, (j < i)%nat ∧ E !! j = Some y) as Hdesc.
  { induction 1 as [x y Hxy|x y z Hxy _ IH]; intros i Hi.
    - by apply (Hc i x y).
    - destruct (Hc i x y Hi Hxy) as (j & Hj & Hjy).
      destruct (IH j Hjy) as (k & Hk & Hkz). exists k. split; [lia|done]. }
  intros x Hx.
  assert (x ∈ E) as Hin.
  { rewrite HE. inversion Hx as [? ? Hxy|? y ? Hxy]; subst; by eapply succ_dom. }
  apply list_elem_of_lookup in Hin as [i Hi].
  revert Hi. induction (lt_wf i) as [i _ IHi]. intros Hi.
  destruct (Hdesc x x Hx i Hi) as (j & Hj & Hjx). by apply (IHi j).
Qed.

Lemma NoDup_concat_elem (l : list (list Z)) s :
  NoDup (concat l) → s ∈ l → NoDup s.
Proof.
  induction l as [|a l IH]; intros Hnd Hin; [by apply elem_of_nil in Hin|].
  simpl in Hnd. apply NoDup_app in Hnd as (Ha & _ & Hl).
  apply elem_of_cons in Hin as [->|Hin]; [done|by apply IH].
Qed.

Lemma sortedFrom_singletons sccs :
  singletons sccs → topo.sortedFrom sccs = (rev (map Some (concat sccs)), None).
Proof.
  intros Hs. unfold topo.sortedFrom.
  assert (map (fun s => match s with [x] => Some x | _ => None end) sccs
          = map Some (concat sccs)) as ->.
  { induction Hs as [|s l Hlen _ IH]; [done|].
    destruct s as [|a [|b s]]; simpl in Hlen; try lia. simpl. by rewrite IH. }
  assert (filter (fun s => length s ≠ 1%nat) sccs = []) as ->; [|done].
  induction Hs as [|s l Hlen _ IH]; [done|].
  rewrite filter_cons. by rewrite decide_False by (intros ?; done).
Qed.

Lemma sortedFrom_cycle sccs :
  ¬ singletons sccs → ∃ cycles, (topo.sortedFrom sccs).2 = Some (Unorderable cycles).
Proof.
  intros Hs. unfold topo.sortedFrom. simpl.
  destruct (filter (fun s => length s ≠ 1%nat) sccs) as [|a l] eqn:Hf; [|eauto].
  exfalso. apply Hs, Forall_forall. intros s Hin.
  destruct (decide (length s = 1%nat)) as [|Hne]; [done|].
  assert (s ∈ filter (fun s => length s ≠ 1%nat) sccs) as Hin'
    by (apply list_elem_of_filter; done).
  rewrite Hf in Hin'. by apply elem_of_nil in Hin'.
Qed.

(** A component of two nodes or more lies on a cycle. *)
Lemma not_singletons_cycle sccs :
  NoDup (concat sccs) →
  (∀ scc x y, scc ∈ sccs → x ∈ scc → y ∈ scc → reach x y) →
  (∀ scc, scc ∈ sccs → scc ≠ []) →
  ¬ singletons sccs → ∃ x, tc (edge succ) x x.
Proof.
  intros Hnd Hsound Hne Hns.
  apply not_Forall_Exists in Hns; [|intros s; apply _].
  apply Exists_exists in Hns as (s & Hs & Hlen).
  pose proof (NoDup_concat_elem _ _ Hnd Hs) as Hnds.
  specialize (Hne s Hs).
  destruct s as [|a [|b s]]; [done|by destruct Hlen|].
  apply NoDup_cons in Hnds as [Hab _].
  assert (a ≠ b) as Hne' by set_solver.
  assert (reach a b) as Hr1 by (apply (Hsound _ a b Hs); set_solver).
  assert (reach b a) as Hr2 by (apply (Hsound _ b a Hs); set_solver).
  apply rtc_tc in Hr1 as [?|Hr1]; [done|].
  exists a. by eapply tc_rtc_r.
Qed.

(** [topo.Sort] returns: a topological order when the graph has no cycle,
    an [Unorderable] error when it has one. *)
Lemma Sort_outcome :
  (acyclic succ ∧
   ∃ E, topo.Sort succ nodes = Returns (rev (map Some E), None) ∧
        E ≡ₚ nodes ∧ closed succ E) ∨
  ((∃ x, tc (edge succ) x x) ∧
   ∃ sorted cycles, topo.Sort succ nodes = Returns (sorted, Some (Unorderable cycles))).
Proof.
  destruct TarjanSCC_spec as (sccs & Hrun & Hperm & Hsound & Hne & Hcl).
  assert (NoDup (concat sccs)) as Hnd by (by rewrite Hperm).
  destruct (decide (singletons sccs)) as [Hs|Hs].
  - left. split; [by apply (closed_acyclic (concat sccs)); [|apply Hcl]|].
    exists (concat sccs). unfold topo.Sort. rewrite Hrun. simpl.
    rewrite sortedFrom_singletons by done. auto.
  - right. split; [by apply (not_singletons_cycle sccs)|].
    destruct (sortedFrom_cycle sccs Hs) as [cycles Hc].
    unfold topo.Sort. rewrite Hrun. unfold outcome_bind.
    destruct (topo.sortedFrom sccs) as [sorted err]. simpl in Hc. subst err.
    by exists sorted, cycles.
Qed.

End TarjanCorrect.

(* ===================================================================== *)
(** * Part X.  Resolution in the preprocessor                          *)
(* ===================================================================== *)

Section Resolution.
Import project_contracts.

Lemma deref_lookup (h : heap) c v : h !! c = Some v → deref h c = v.
Proof. intros H. unfold deref. by rewrite H. Qed.

Lemma deref_insert (h : heap) c v : (c < length h)%nat → deref (<[c := v]> h) c = v.
Proof. intros H. unfold deref. by rewrite list_lookup_insert_eq. Qed.

Lemma deref_insert_ne (h : heap) c c' v : c ≠ c' → deref (<[c := v]> h) c' = deref h c'.
Proof. intros H. unfold deref. by rewrite list_lookup_insert_ne. Qed.

Lemma sameContract_refl v : sameContract v v.
Proof. by repeat split. Qed.

Lemma sameContract_trans v1 v2 v3 :
  sameContract v1 v2 → sameContract v2 v3 → sameContract v1 v3.
Proof. unfold sameContract. intuition congruence. Qed.

Lemma imports_same v v' : sameContract v v' → imports v' = imports v.
Proof. intros (_ & _ & _ & _ & _ & Hp). unfold imports. by rewrite Hp. Qed.

Lemma extends_refl h : extends h h.
Proof.
  split; [done|]. intros c v Hc. exists v. split; [done|]. split; [apply sameContract_refl|done].
Qed.

Lemma extends_trans h1 h2 h3 : extends h1 h2 → extends h2 h3 → extends h1 h3.
Proof.
  intros [Hl1 H1] [Hl2 H2]. split; [congruence|].
  intros c v Hc. destruct (H1 c v Hc) as (v2 & Hc2 & Hs2 & Hd2 & Ha2).
  destruct (H2 c v2 Hc2) as (v3 & Hc3 & Hs3 & Hd3 & Ha3).
  exists v3. split; [done|]. split; [by eapply sameContract_trans|]. split; set_solver.
Qed.

Lemma extends_insert (h : heap) c v v' :
  h !! c = Some v → sameContract v v' →
  dom (dependencies v) ⊆ dom (dependencies v') →
  dom (aliases v) ⊆ dom (aliases v') →
  extends h (<[c := v']> h).
Proof.
  intros Hc Hs Hd Ha. split; [by rewrite length_insert|].
  intros c2 v2 Hc2. destruct (decide (c = c2)) as [->|Hne].
  - exists v'. rewrite list_lookup_insert_eq by (by eapply lookup_lt_Some).
    assert (v2 = v) as -> by congruence. done.
  - exists v2. rewrite list_lookup_insert_ne by done.
    split; [done|]. split; [apply sameContract_refl|done].
Qed.

(** ** The inner loop, on one contract *)

Lemma resolved_same p v locs : sameContract v (resolved p v locs).
Proof.
  revert v. induction locs as [|loc rest IH]; intros v; simpl; [apply sameContract_refl|].
  destruct (p_contracts p !! _) as [d|]; [|destruct (p_aliases p !! _) as [a|]].
  - eapply sameContract_trans; [|apply IH]. by repeat split.
  - eapply sameContract_trans; [|apply IH]. by repeat split.
  - apply sameContract_refl.
Qed.

Lemma resolved_dom p v locs :
  dom (dependencies v) ⊆ dom (dependencies (resolved p v locs)) ∧
  dom (aliases v) ⊆ dom (aliases (resolved p v locs)).
Proof.
  revert v. induction locs as [|loc rest IH]; intros v; simpl; [done|].
  destruct (p_contracts p !! _) as [d|]; [|destruct (p_aliases p !! _) as [a|]].
  - destruct (IH (withDependency v loc d)) as [H1 H2]. simpl in *.
    rewrite dom_insert in H1. split; set_solver.
  - destruct (IH (withAlias v loc (flow.HexToAddress a))) as [H1 H2]. simpl in *.
    rewrite dom_insert in H2. split; set_solver.
  - done.
Qed.

(** [resolveLocations] updates the contract at [c] and nothing else. *)
Lemma resolveLocations_spec p c locs :
  ∀ h v, h !! c = Some v →
    resolveLocations p c locs h
    = (<[c := resolved p v locs]> h, firstUnresolved p (name v) (source v) locs).
Proof.
  induction locs as [|loc rest IH]; intros h v Hc; simpl.
  - by rewrite list_insert_id.
  - rewrite (deref_lookup h c v Hc).
    pose proof (lookup_lt_Some _ _ _ Hc) as Hlt.
    destruct (p_contracts p !! _) as [d|]; [|destruct (p_aliases p !! _) as [a|]].
    + unfold addDependency. rewrite (deref_lookup h c v Hc).
      rewrite (IH _ (withDependency v loc d)) by (by rewrite list_lookup_insert_eq).
      by rewrite list_insert_insert_eq.
    + unfold addAlias. rewrite (deref_lookup h c v Hc).
      rewrite (IH _ (withAlias v loc (flow.HexToAddress a))) by (by rewrite list_lookup_insert_eq).
      by rewrite list_insert_insert_eq.
    + by rewrite list_insert_id.
Qed.

Lemma resolved_consistent p v locs :
  consistent p (source v) v → (∀ loc, loc ∈ locs → loc ∈ imports v) →
  consistent p (source v) (resolved p v locs).
Proof.
  revert v. induction locs as [|loc rest IH]; intros v Hcons Hlocs; simpl; [done|].
  destruct (p_contracts p !! absolutePath (source v) loc) as [d|] eqn:Hd;
    [|destruct (p_aliases p !! _) as [a|]; [|done]].
  - apply (IH (withDependency v loc d)).
    + intros l x. simpl. unfold imports at 1. simpl. fold (imports v).
      destruct (decide (loc = l)) as [<-|Hne].
      * rewrite lookup_insert_eq. intros [= <-]. split; [apply Hlocs; set_solver|done].
      * rewrite lookup_insert_ne by done. apply Hcons.
    + intros l Hl. unfold imports. simpl. apply Hlocs. set_solver.
  - apply (IH (withAlias v loc (flow.HexToAddress a))).
    + intros l x. simpl. unfold imports at 1. simpl. apply Hcons.
    + intros l Hl. unfold imports. simpl. apply Hlocs. set_solver.
Qed.

Lemma resolved_keeps p v locs loc d :
  p_contracts p !! absolutePath (source v) loc = Some d →
  firstUnresolved p (name v) (source v) locs = None →
  dependencies v !! loc = Some d ∨ loc ∈ locs →
  dependencies (resolved p v locs) !! loc = Some d.
Proof.
  intros Hd. revert v Hd. induction locs as [|l rest IH]; intros v Hd Herr Hin; simpl.
  - destruct Hin as [Hin|Hin]; [done|by apply elem_of_nil in Hin].
  - simpl in Herr.
    destruct (p_contracts p !! absolutePath (source v) l) as [d'|] eqn:Hd';
      [|destruct (p_aliases p !! _) as [a|]; [|done]].
    + apply (IH (withDependency v l d')); [done|done|]. simpl.
      destruct (decide (l = loc)) as [->|Hne].
      * left. rewrite lookup_insert_eq. congruence.
      * rewrite lookup_insert_ne by done.
        destruct Hin as [Hin|Hin]; [by left|right]. set_solver.
    + apply (IH (withAlias v l (flow.HexToAddress a))); [done|done|]. simpl.
      destruct Hin as [Hin|Hin]; [by left|right].
      apply elem_of_cons in Hin as [->|Hin]; [congruence|done].
Qed.

Lemma firstUnresolved_None p nm src locs :
  firstUnresolved p nm src locs = None ↔ ∀ loc, loc ∈ locs → resolves p src loc.
Proof.
  induction locs as [|l rest IH]; simpl.
  - split; [|done]. intros _ loc Hin. by apply elem_of_nil in Hin.
  - unfold resolves in *.
    destruct (p_contracts p !! absolutePath src l) as [d|] eqn:Hd;
      [|destruct (p_aliases p !! getAliasForImport l) as [a|] eqn:Ha].
    + rewrite IH. split.
      * intros H loc [->|Hin]%elem_of_cons; [left; by rewrite Hd|by apply H].
      * intros H loc Hin. apply H. set_solver.
    + rewrite IH. split.
      * intros H loc [->|Hin]%elem_of_cons; [right; by rewrite Ha|by apply H].
      * intros H loc Hin. apply H. set_solver.
    + split; [done|]. intros H.
      destruct (H l ltac:(set_solver)) as [[? Hx]|[? Hx]]; congruence.
Qed.

Lemma firstUnresolved_Some p nm src locs e :
  firstUnresolved p nm src locs = Some e →
  ∃ loc, loc ∈ locs ∧ ¬ resolves p src loc ∧
         e = unresolvedImport nm (absolutePath src loc).
Proof.
  induction locs as [|l rest IH]; simpl; [done|].
  destruct (p_contracts p !! absolutePath src l) as [d|] eqn:Hd;
    [|destruct (p_aliases p !! getAliasForImport l) as [a|] eqn:Ha].
  - intros H. destruct (IH H) as (loc & ? & ? & ?). exists loc. set_solver.
  - intros H. destruct (IH H) as (loc & ? & ? & ?). exists loc. set_solver.
  - intros [= <-]. exists l. split; [set_solver|]. split; [|done].
    unfold resolves. rewrite Hd, Ha. intros [[? ?]|[? ?]]; done.
Qed.

(** ** The outer loop, on the working set *)

Lemma wf_ptr_inj p h k1 k2 c :
  wf p h → p_contracts p !! k1 = Some c → p_contracts p !! k2 = Some c → k1 = k2.
Proof.
  intros Hwf H1 H2.
  destruct (wf_ptr _ _ Hwf k1 c H1) as (v1 & Hv1 & Hs1).
  destruct (wf_ptr _ _ Hwf k2 c H2) as (v2 & Hv2 & Hs2). congruence.
Qed.

Lemma wf_update p h k c v' :
  wf p h → p_contracts p !! k = Some c →
  sameContract (deref h c) v' → consistent p k v' →
  wf p (<[c := v']> h).
Proof.
  intros Hwf Hk Hs Hcons.
  destruct (wf_ptr _ _ Hwf k c Hk) as (v & Hv & Hsrc).
  pose proof (lookup_lt_Some _ _ _ Hv) as Hlt.
  rewrite (deref_lookup _ _ _ Hv) in Hs.
  assert (∀ c2, ID (<[c := v']> h) c2 = ID h c2) as HID.
  { intros c2. unfold ID. destruct (decide (c = c2)) as [<-|Hne].
    - rewrite deref_insert by done. rewrite (deref_lookup _ _ _ Hv). apply Hs.
    - by rewrite deref_insert_ne. }
  constructor.
  - intros k2 c2 Hk2. destruct (decide (c = c2)) as [<-|Hne].
    + exists v'. rewrite list_lookup_insert_eq by done. split; [done|].
      rewrite (wf_ptr_inj p h k2 k c Hwf Hk2 Hk).
      destruct Hs as (_ & _ & -> & _). done.
    + rewrite list_lookup_insert_ne by done. by apply (wf_ptr _ _ Hwf).
  - intros k1 k2 c1 c2 H1 H2. rewrite !HID. by apply (wf_ids _ _ Hwf).
  - intros k2 c2 Hk2. destruct (decide (c = c2)) as [<-|Hne].
    + rewrite deref_insert by done.
      by rewrite (wf_ptr_inj p h k2 k c Hwf Hk2 Hk).
    + rewrite deref_insert_ne by done. by apply (wf_deps _ _ Hwf).
Qed.

(** What [resolveContracts] leaves: the same contracts, still a working set;
    without an error every contract of the order has all its resolved
    imports recorded, and an error names an import that does not resolve. *)
Lemma resolveContracts_spec p order :
  ∀ h, wf p h →
    ∃ h' err, resolveContracts p order h = (h', err) ∧
      extends h h' ∧ wf p h' ∧
      (err = None →
         (∀ k c, k ∈ order → p_contracts p !! k = Some c → complete p k (deref h' c)) ∧
         (∀ k c loc, k ∈ order → p_contracts p !! k = Some c →
                     loc ∈ imports (deref h c) → resolves p k loc)) ∧
      (∀ e, err = Some e →
         ∃ k c loc, k ∈ order ∧ p_contracts p !! k = Some c ∧
                    loc ∈ imports (deref h c) ∧ ¬ resolves p k loc ∧
                    e = unresolvedImport (name (deref h c)) (absolutePath k loc)).
Proof.
  induction order as [|k rest IH]; intros h Hwf; simpl.
  - exists h, None. split; [done|]. split; [apply extends_refl|]. split; [done|].
    split; [|done]. intros _. split; intros k c; intros; by apply elem_of_nil in H.
  - destruct (p_contracts p !! k) as [c|] eqn:Hk.
    + destruct (wf_ptr _ _ Hwf k c Hk) as (v & Hv & Hsrc).
      rewrite (deref_lookup _ _ _ Hv).
      rewrite (resolveLocations_spec p c (imports v) h v Hv).
      set (v' := resolved p v (imports v)).
      pose proof (resolved_same p v (imports v)) as Hsame. fold v' in Hsame.
      pose proof (resolved_dom p v (imports v)) as [Hdd Hda]. fold v' in Hdd, Hda.
      assert (consistent p k v') as Hcons.
      { subst k. replace (source v) with (source v') by apply Hsame.
        unfold v'. replace (source (resolved p v (imports v))) with (source v) by (symmetry; apply Hsame).
        apply resolved_consistent; [|done].
        pose proof (wf_deps _ _ Hwf _ c Hk) as H. by rewrite (deref_lookup _ _ _ Hv) in H. }
      assert (wf p (<[c := v']> h)) as Hwf'.
      { eapply wf_update; [done|done| |done]. by rewrite (deref_lookup _ _ _ Hv). }
      assert (extends h (<[c := v']> h)) as Hext by by eapply extends_insert.
      destruct (firstUnresolved p (name v) (source v) (imports v)) as [e|] eqn:Herr.
      * exists (<[c := v']> h), (Some e). split; [done|]. split; [done|]. split; [done|].
        split; [done|]. intros e' [= <-].
        destruct (firstUnresolved_Some _ _ _ _ _ Herr) as (loc & Hin & Hnr & ->).
        exists k, c, loc. rewrite (deref_lookup _ _ _ Hv). subst k.
        split; [set_solver|done].
      * destruct (IH _ Hwf') as (h' & err & Hrun & Hext' & Hwf'' & Hok & Hfail).
        exists h', err. split; [done|]. split; [by eapply extends_trans|].
        split; [done|].
        assert (∀ k2 c2, p_contracts p !! k2 = Some c2 →
                  imports (deref (<[c := v']> h) c2) = imports (deref h c2)
                  ∧ name (deref (<[c := v']> h) c2) = name (deref h c2)) as Himp.
        { intros k2 c2 Hk2. destruct (decide (c = c2)) as [<-|Hne].
          - rewrite deref_insert by (by eapply lookup_lt_Some).
            rewrite (deref_lookup _ _ _ Hv). split; [by apply imports_same|apply Hsame].
          - by rewrite deref_insert_ne. }
        split.
        -- intros ->. destruct (Hok eq_refl) as [Hcomp Hres]. split.
           ++ intros k2 c2 [->|Hin]%elem_of_cons Hk2; [|by apply Hcomp].
              assert (c2 = c) as -> by congruence.
              destruct (proj2 Hext' c v') as (v'' & Hv'' & Hs'' & _).
              { rewrite list_lookup_insert_eq; [done|by eapply lookup_lt_Some]. }
              rewrite (deref_lookup _ _ _ Hv'').
              intros loc d Hloc Hd.
              rewrite (imports_same _ _ Hs''), (imports_same _ _ Hsame) in Hloc.
              pose proof (wf_deps _ _ Hwf'' k c Hk) as Hcons''.
              rewrite (deref_lookup _ _ _ Hv'') in Hcons''.
              (* the entry recorded for [loc] is still there *)
              assert (dependencies v' !! loc = Some d) as Hrec.
              { apply resolved_keeps; [by rewrite Hsrc|done|by right]. }
              assert (loc ∈ dom (dependencies v'')) as Hdom.
              { destruct (proj2 Hext' c v') as (w & Hw & _ & Hdw & _).
                { rewrite list_lookup_insert_eq; [done|by eapply lookup_lt_Some]. }
                assert (w = v'') as -> by congruence.
                apply Hdw, elem_of_dom. by rewrite Hrec. }
              apply elem_of_dom in Hdom as [d' Hd'].
              destruct (Hcons'' loc d' Hd') as [_ Hd'']. congruence.
           ++ intros k2 c2 loc [->|Hin]%elem_of_cons Hk2 Hloc.
              ** assert (c2 = c) as -> by congruence.
                 rewrite (deref_lookup _ _ _ Hv) in Hloc.
                 rewrite <- Hsrc.
                 by apply (proj1 (firstUnresolved_None p (name v) (source v) (imports v)) Herr).
              ** apply (Hres k2 c2 loc Hin Hk2).
                 by rewrite (proj1 (Himp k2 c2 Hk2)).
        -- intros e He. destruct (Hfail e He) as (k2 & c2 & loc & Hin & Hk2 & Hloc & Hnr & ->).
           exists k2, c2, loc.
           destruct (Himp k2 c2 Hk2) as [Hi Hn]. rewrite Hi in Hloc. rewrite Hn.
           split; [set_solver|done].
    + destruct (IH h Hwf) as (h' & err & Hrun & Hext & Hwf' & Hok & Hfail).
      exists h', err. split; [done|]. split; [done|]. split; [done|]. split.
      * intros He. destruct (Hok He) as [Hcomp Hres]. split.
        -- intros k2 c2 [->|Hin]%elem_of_cons Hk2; [congruence|by apply Hcomp].
        -- intros k2 c2 loc [->|Hin]%elem_of_cons Hk2; [congruence|by apply Hres].
      * intros e He. destruct (Hfail e He) as (k2 & c2 & loc & Hin & Hrest).
        exists k2, c2, loc. split; [set_solver|done].
Qed.

End Resolution.

(* ===================================================================== *)
(** * Part XI.  The dependency graph of the working set                   *)
(* ===================================================================== *)

Section DependencyGraph.
Import project_contracts.

Lemma From_SetEdge (g g' : simple.DirectedGraph ptr) fid f tid t x :
  simple.SetEdge g fid f tid t = Returns g' →
  simple.From g' x = if decide (x = fid) then {[tid]} ∪ simple.From g x
                     else simple.From g x.
Proof.
  unfold simple.SetEdge. destruct (decide (fid = tid)); [done|].
  intros [= <-]. unfold simple.From. simpl.
  destruct (decide (x = fid)) as [->|Hne].
  - by rewrite lookup_insert_eq.
  - by rewrite lookup_insert_ne.
Qed.

Lemma keys_elem_of {A : Type} (m : gmap Z A) (k : Z) : k ∈ keys m ↔ is_Some (m !! k).
Proof.
  unfold keys. rewrite list_elem_of_fmap. split.
  - intros ([k' x] & -> & Hin). apply elem_of_map_to_list in Hin. by exists x.
  - intros [x Hx]. exists (k, x). split; [done|]. by apply elem_of_map_to_list.
Qed.

Lemma keys_elem_of_string {A : Type} (m : gmap string A) (k : string) :
  k ∈ keys m ↔ is_Some (m !! k).
Proof.
  unfold keys. rewrite list_elem_of_fmap. split.
  - intros ([k' x] & -> & Hin). apply elem_of_map_to_list in Hin. by exists x.
  - intros [x Hx]. exists (k, x). split; [done|]. by apply elem_of_map_to_list.
Qed.

Variable p : Preprocessor.
Variable h : heap.
Hypothesis Hwf : wf p h.

(** Registered contracts with the same ID are the same contract. *)
Lemma member_ID_inj c1 c2 : member p c1 → member p c2 → ID h c1 = ID h c2 → c1 = c2.
Proof.
  intros [k1 H1] [k2 H2] Hid.
  pose proof (wf_ids _ _ Hwf k1 k2 c1 c2 H1 H2 Hid) as ->. congruence.
Qed.

(** The first loop: one node per registered contract, under its ID. *)
Lemma addNodes_spec order :
  ∀ g0, NoDup order →
    (∀ id c, simple.nodes g0 !! id = Some c →
             ∃ k, (k ∉ order) ∧ p_contracts p !! k = Some c ∧ ID h c = id) →
    ∃ g, addNodes (p_contracts p) h order g0 = Returns g ∧
         simple.from g = simple.from g0 ∧
         ∀ id c, simple.nodes g !! id = Some c ↔
                 simple.nodes g0 !! id = Some c ∨
                 ∃ k, k ∈ order ∧ p_contracts p !! k = Some c ∧ ID h c = id.
Proof.
  unfold addNodes.
  induction order as [|k rest IH]; intros g0 Hnd Hg0; simpl.
  - exists g0. split; [done|]. split; [done|]. intros id c. split; [by left|].
    intros [?|(k & Hk & _)]; [done|by apply elem_of_nil in Hk].
  - apply NoDup_cons in Hnd as [Hk Hnd].
    destruct (p_contracts p !! k) as [c|] eqn:Hc.
    + unfold simple.AddNode.
      destruct (simple.nodes g0 !! ID h c) as [c'|] eqn:Hcol.
      { exfalso. destruct (Hg0 _ _ Hcol) as (k' & Hk' & Hc' & Hid).
        apply Hk'. rewrite (wf_ids _ _ Hwf k' k c' c Hc' Hc Hid). set_solver. }
      simpl.
      destruct (IH {| simple.nodes := <[ID h c := c]> (simple.nodes g0);
                      simple.from := simple.from g0; simple.to := simple.to g0 |})
        as (g & Hrun & Hfrom & Hnodes); [done| |].
      { simpl. intros id c2 Hl. destruct (decide (ID h c = id)) as [<-|Hne].
        - rewrite lookup_insert_eq in Hl. injection Hl as <-. by exists k.
        - rewrite lookup_insert_ne in Hl by done.
          destruct (Hg0 _ _ Hl) as (k' & Hk' & Hrest). exists k'. set_solver. }
      exists g. split; [done|]. split; [done|].
      intros id c2. rewrite Hnodes. simpl. split.
      * intros [Hl|(k' & Hk' & Hrest)].
        -- destruct (decide (ID h c = id)) as [<-|Hne].
           ++ rewrite lookup_insert_eq in Hl. injection Hl as <-. right. exists k. set_solver.
           ++ rewrite lookup_insert_ne in Hl by done. by left.
        -- right. exists k'. set_solver.
      * intros [Hl|(k' & [->|Hk']%elem_of_cons & Hc2 & Hid)].
        -- left. destruct (decide (ID h c = id)) as [<-|Hne]; [congruence|].
           by rewrite lookup_insert_ne.
        -- left. assert (c2 = c) as -> by congruence. subst id. by rewrite lookup_insert_eq.
        -- right. by exists k'.
    + simpl. destruct (IH g0 Hnd) as (g & Hrun & Hfrom & Hnodes).
      { intros id c Hl. destruct (Hg0 _ _ Hl) as (k' & Hk' & Hrest). exists k'. set_solver. }
      exists g. split; [done|]. split; [done|].
      intros id c. rewrite Hnodes. split.
      * intros [?|(k' & ? & ?)]; [by left|right]. exists k'. set_solver.
      * intros [?|(k' & [->|?]%elem_of_cons & Hc' & ?)]; [by left|congruence|right].
        by exists k'.
Qed.

(** The recorded dependencies of registered contracts are registered
    contracts other than the contract itself. *)
Hypothesis Hnoself : ∀ m, ¬ depends p h m m.

Lemma dependency_depends k c loc d :
  p_contracts p !! k = Some c → dependencies (deref h c) !! loc = Some d →
  depends p h c d.
Proof.
  intros Hk Hd. destruct (wf_deps _ _ Hwf k c Hk loc d Hd) as [Hi Hl].
  by exists k, loc.
Qed.

Lemma depends_member m d : depends p h m d → member p m ∧ member p d.
Proof. intros (k & loc & Hk & _ & Hd). split; eexists; eauto. Qed.

Section Edges.
Variable N : gmap Z ptr.
Hypothesis HN : ∀ c, member p c → N !! ID h c = Some c.

(** The inner loop of the second pass, on the contract [c]. *)
Lemma addEdges_inner k c locs :
  p_contracts p !! k = Some c →
  ∀ g, simple.nodes g = N →
    ∃ g', foldOutcome
            (fun g location =>
               match dependencies (deref h c) !! location with
               | None => Returns g
               | Some dep => simple.SetEdge g (ID h dep) dep (ID h c) c
               end) locs g = Returns g' ∧
          simple.nodes g' = N ∧
          ∀ f t, t ∈ simple.From g' f ↔
                 t ∈ simple.From g f ∨
                 (t = ID h c ∧ ∃ loc d, loc ∈ locs ∧
                    dependencies (deref h c) !! loc = Some d ∧ f = ID h d).
Proof.
  intros Hk. induction locs as [|loc rest IH]; intros g Hg; simpl.
  - exists g. split; [done|]. split; [done|]. intros f t. split; [by left|].
    intros [?|(_ & loc & d & Hin & _)]; [done|by apply elem_of_nil in Hin].
  - destruct (dependencies (deref h c) !! loc) as [d|] eqn:Hd.
    + pose proof (dependency_depends k c loc d Hk Hd) as Hdep.
      destruct (depends_member _ _ Hdep) as [Hmc Hmd].
      assert (ID h d ≠ ID h c) as Hne.
      { intros Hid. apply (Hnoself c).
        by rewrite (member_ID_inj d c Hmd Hmc Hid) in Hdep. }
      destruct (simple.SetEdge g (ID h d) d (ID h c) c) as [g1| |] eqn:Hset;
        [|unfold simple.SetEdge in Hset; by rewrite decide_False in Hset by done
         |unfold simple.SetEdge in Hset; by rewrite decide_False in Hset by done].
      simpl.
      assert (simple.nodes g1 = N) as Hg1.
      { unfold simple.SetEdge in Hset. rewrite decide_False in Hset by done.
        injection Hset as <-. simpl. rewrite Hg.
        rewrite (insert_id N (ID h d) d); [|by apply HN].
        rewrite (insert_id N (ID h c) c); [done|by apply HN]. }
      destruct (IH g1 Hg1) as (g' & Hrun & Hg' & Hfrom).
      exists g'. split; [done|]. split; [done|].
      intros f t. rewrite Hfrom, (From_SetEdge _ _ _ _ _ _ f Hset). split.
      * intros [Hin|(-> & l & d' & Hl & Hd' & ->)].
        -- destruct (decide (f = ID h d)) as [->|Hnf]; [|by left].
           apply elem_of_union in Hin as [->%elem_of_singleton|Hin]; [|by left].
           right. split; [done|]. exists loc, d. set_solver.
        -- right. split; [done|]. exists l, d'. set_solver.
      * intros [Hin|(-> & l & d' & [->|Hl]%elem_of_cons & Hd' & ->)].
        -- left. destruct (decide (f = ID h d)); set_solver.
        -- left. assert (d' = d) as -> by congruence.
           rewrite decide_True by done. set_solver.
        -- right. split; [done|]. by exists l, d'.
    + simpl. destruct (IH g Hg) as (g' & Hrun & Hg' & Hfrom).
      exists g'. split; [done|]. split; [done|].
      intros f t. rewrite Hfrom. split.
      * intros [?|(-> & l & d' & ? & ? & ->)]; [by left|right].
        split; [done|]. exists l, d'. set_solver.
      * intros [?|(-> & l & d' & [->|?]%elem_of_cons & ? & ->)]; [by left|congruence|right].
        split; [done|]. by exists l, d'.
Qed.

(** The second pass: one edge from each dependency to its dependent. *)
Lemma addEdges_spec depOrder order :
  (∀ k l, depOrder k l ≡ₚ l) →
  ∀ g, simple.nodes g = N →
    ∃ g', addEdges (p_contracts p) h order depOrder g = Returns g' ∧
          simple.nodes g' = N ∧
          ∀ f t, t ∈ simple.From g' f ↔
                 t ∈ simple.From g f ∨
                 ∃ k c loc d, k ∈ order ∧ p_contracts p !! k = Some c ∧
                   dependencies (deref h c) !! loc = Some d ∧
                   f = ID h d ∧ t = ID h c.
Proof.
  intros Hperm. unfold addEdges.
  induction order as [|k rest IH]; intros g Hg; simpl.
  - exists g. split; [done|]. split; [done|]. intros f t. split; [by left|].
    intros [?|(k & c & loc & d & Hin & _)]; [done|by apply elem_of_nil in Hin].
  - destruct (p_contracts p !! k) as [c|] eqn:Hk.
    + destruct (addEdges_inner k c (depOrder k (keys (dependencies (deref h c)))) Hk g Hg)
        as (g1 & Hrun1 & Hg1 & Hfrom1).
      rewrite Hrun1. simpl.
      destruct (IH g1 Hg1) as (g' & Hrun & Hg' & Hfrom).
      exists g'. split; [done|]. split; [done|].
      intros f t. rewrite Hfrom, Hfrom1. split.
      * intros [[?|(-> & loc & d & _ & Hd & ->)]|(k' & c' & loc & d & Hin & Hrest)].
        -- by left.
        -- right. exists k, c, loc, d. set_solver.
        -- right. exists k', c', loc, d. set_solver.
      * intros [?|(k' & c' & loc & d & [->|Hin]%elem_of_cons & Hc' & Hd & -> & ->)].
        -- by left; left.
        -- left; right. assert (c' = c) as -> by congruence.
           split; [done|]. exists loc, d. split; [|done].
           rewrite Hperm. unfold keys. rewrite list_elem_of_fmap.
           exists (loc, d). split; [done|]. by apply elem_of_map_to_list.
        -- right. by exists k', c', loc, d.
    + simpl. destruct (IH g Hg) as (g' & Hrun & Hg' & Hfrom).
      exists g'. split; [done|]. split; [done|].
      intros f t. rewrite Hfrom. split.
      * intros [?|(k' & c' & loc & d & ? & ?)]; [by left|right].
        exists k', c', loc, d. set_solver.
      * intros [?|(k' & c' & loc & d & [->|?]%elem_of_cons & Hc' & ?)];
          [by left|congruence|right].
        by exists k', c', loc, d.
Qed.

End Edges.

End DependencyGraph.

(* ===================================================================== *)
(** * Part XII.  PrepareForDeployment                                       *)
(* ===================================================================== *)

Section Deployment.
Import project_contracts.

Lemma toContracts_spec (g : simple.DirectedGraph ptr) l :
  (∀ id, id ∈ l → is_Some (simple.nodes g !! id)) →
  ∃ cs, toContracts g (map Some l) = Returns cs ∧
        Forall2 (fun id c => simple.nodes g !! id = Some c) l cs.
Proof.
  induction l as [|id l IH]; intros Hall; simpl.
  - exists []. split; [done|constructor].
  - destruct (Hall id ltac:(set_solver)) as [c Hc]. rewrite Hc.
    destruct IH as (cs & Hrun & HF); [intros; apply Hall; set_solver|].
    rewrite Hrun. simpl. exists (c :: cs). split; [done|by constructor].
Qed.

Lemma rev_reverse {A : Type} (l : list A) : rev l = reverse l.
Proof. unfold reverse. apply rev_alt. Qed.

Lemma before_rev {A : Type} (l : list A) a b : before l a b → before (rev l) b a.
Proof.
  intros (i & j & Hlt & Hi & Hj). rewrite rev_reverse.
  pose proof (lookup_lt_Some _ _ _ Hi). pose proof (lookup_lt_Some _ _ _ Hj).
  exists (length l - S j)%nat, (length l - S i)%nat. split; [lia|].
  rewrite !reverse_lookup by lia.
  replace (length l - S (length l - S j))%nat with j by lia.
  replace (length l - S (length l - S i))%nat with i by lia. done.
Qed.

Lemma before_trans {A : Type} (l : list A) a b c :
  NoDup l → before l a b → before l b c → before l a c.
Proof.
  intros Hnd (i & j & Hij & Hi & Hj) (j' & k & Hjk & Hj' & Hk).
  assert (j = j') as <- by by eapply NoDup_lookup.
  exists i, k. split; [lia|done].
Qed.

Lemma depends_extends p h h' m d :
  wf p h → extends h h' → (depends p h' m d ↔ depends p h m d).
Proof.
  intros Hwf [_ Hext].
  assert (∀ k, p_contracts p !! k = Some m →
               imports (deref h' m) = imports (deref h m)) as Himp.
  { intros k Hk. destruct (wf_ptr _ _ Hwf k m Hk) as (v & Hv & _).
    destruct (Hext m v Hv) as (v' & Hv' & Hs & _).
    rewrite (deref_lookup _ _ _ Hv), (deref_lookup _ _ _ Hv'). by apply imports_same. }
  split; intros (k & loc & Hk & Hloc & Hd); exists k, loc.
  - by rewrite <- (Himp k Hk).
  - by rewrite (Himp k Hk).
Qed.

Lemma tc_depends_extends p h h' m d :
  wf p h → extends h h' → (tc (depends p h') m d ↔ tc (depends p h) m d).
Proof.
  intros Hwf Hext. split; intros H.
  - induction H as [x y Hxy|x y z Hxy _ IH].
    + apply tc_once. by apply (depends_extends p h h').
    + eapply tc_l; [|exact IH]. by apply (depends_extends p h h').
  - induction H as [x y Hxy|x y z Hxy _ IH].
    + apply tc_once. by apply (depends_extends p h h').
    + eapply tc_l; [|exact IH]. by apply (depends_extends p h h').
Qed.

Lemma tc_depends_member p h a b :
  tc (depends p h) a b → member p a ∧ member p b.
Proof.
  induction 1 as [x y Hxy|x y z Hxy _ IH].
  - by apply (depends_member p h).
  - split; [by apply (depends_member p h x y)|apply IH].
Qed.

Lemma values_NoDup p h : wf p h → NoDup (map_to_list (p_contracts p)).*2.
Proof.
  intros Hwf. apply NoDup_fmap_2_strong; [|apply NoDup_map_to_list].
  intros [k1 c1] [k2 c2] H1%elem_of_map_to_list H2%elem_of_map_to_list. simpl.
  intros <-. by rewrite (wf_ptr_inj p h k1 k2 c1 Hwf H1 H2).
Qed.

Lemma values_member p c : c ∈ (map_to_list (p_contracts p)).*2 ↔ member p c.
Proof.
  rewrite list_elem_of_fmap. split.
  - intros ([k c'] & -> & Hin%elem_of_map_to_list). by exists k.
  - intros [k Hk]. exists (k, c). split; [done|]. by apply elem_of_map_to_list.
Qed.

(** What [sortByDeploymentOrder] returns on a resolved working set, whatever
    the admissible schedule: when the dependency relation has no cycle, all
    registered contracts, each after its dependencies; when it has one, the
    [Unorderable] error. *)
Lemma sortByDeploymentOrder_outcome s p h :
  admissible s → wf p h →
  (∀ k c, p_contracts p !! k = Some c → complete p k (deref h c)) →
  (∀ m, ¬ depends p h m m) →
  ((∀ m, ¬ tc (depends p h) m m) ∧
   ∃ sorted, sortByDeploymentOrder s (p_contracts p) h = Returns (sorted, None) ∧
             sorted ≡ₚ (map_to_list (p_contracts p)).*2 ∧
             ∀ m d, depends p h m d → before sorted d m) ∨
  ((∃ m, tc (depends p h) m m) ∧
   ∃ cycles, sortByDeploymentOrder s (p_contracts p) h
             = Returns ([], Some (Unorderable cycles))).
Proof.
  intros (_ & HpN & HpE & HpD & HpG & HpF) Hwf Hcomp Hnoself.
  unfold sortByDeploymentOrder.
  (* the nodes *)
  destruct (addNodes_spec p h Hwf (rangeNodes s (keys (p_contracts p))) simple.NewDirectedGraph)
    as (g1 & Hrun1 & Hfrom1 & Hnodes1).
  { rewrite HpN. apply NoDup_fst_map_to_list. }
  { intros id c Hl. simpl in Hl. by rewrite lookup_empty in Hl. }
  rewrite Hrun1. simpl.
  assert (∀ id c, simple.nodes g1 !! id = Some c ↔ member p c ∧ ID h c = id) as HN1.
  { intros id c. rewrite Hnodes1. simpl. rewrite lookup_empty. split.
    - intros [?|(k & _ & Hk & Hid)]; [done|]. split; [by exists k|done].
    - intros [[k Hk] Hid]. right. exists k. split; [|done].
      rewrite HpN. apply keys_elem_of_string. by rewrite Hk. }
  (* the edges *)
  destruct (addEdges_spec p h Hwf Hnoself (simple.nodes g1)
              ltac:(intros c Hc; by apply HN1)
              (rangeDependencies s) (rangeEdges s (keys (p_contracts p))) HpD g1 eq_refl)
    as (g & Hrun & Hnodes & Hfrom).
  rewrite Hrun. simpl.
  assert (∀ f t, t ∈ simple.From g f ↔
                 ∃ m d, depends p h m d ∧ f = ID h d ∧ t = ID h m) as Hedges.
  { intros f t. rewrite Hfrom. unfold simple.From at 1. rewrite Hfrom1. simpl.
    rewrite lookup_empty. simpl. split.
    - intros [Hin|(k & c & loc & d & _ & Hk & Hd & -> & ->)]; [set_solver|].
      exists c, d. split; [by eapply dependency_depends|done].
    - intros (m & d & (k & loc & Hk & Hloc & Hd) & -> & ->). right.
      exists k, m, loc, d. split; [|split; [done|split; [|done]]].
      + rewrite HpE. apply keys_elem_of_string. by rewrite Hk.
      + by apply (Hcomp k m). }
  set (succ := fun id => graphFrom s id (elements (simple.From g id))).
  set (nodes := graphNodes s (keys (simple.nodes g))).
  assert (∀ f t, edge succ f t ↔ ∃ m d, depends p h m d ∧ f = ID h d ∧ t = ID h m)
    as Hedge.
  { intros f t. unfold edge, succ. rewrite HpF, elem_of_elements. apply Hedges. }
  assert (∀ id, id ∈ nodes ↔ ∃ c, member p c ∧ ID h c = id) as Hnodes'.
  { intros id. unfold nodes. rewrite HpG, keys_elem_of, Hnodes. split.
    - intros [c Hc]. exists c. by apply HN1.
    - intros (c & Hc). exists c. by apply HN1. }
  assert (∀ x y, tc (edge succ) x y →
            ∃ cx cy, x = ID h cx ∧ y = ID h cy ∧ tc (depends p h) cy cx) as Htc.
  { induction 1 as [x y Hxy|x y z Hxy _ IH].
    - apply Hedge in Hxy as (m & d & Hdep & -> & ->). exists d, m. split; [done|].
      split; [done|by apply tc_once].
    - apply Hedge in Hxy as (m & d & Hdep & -> & ->).
      destruct IH as (cy & cz & Hy & -> & Htc).
      assert (m = cy) as ->.
      { apply (member_ID_inj p h Hwf); [by apply (depends_member p h m d)| |done].
        by apply (tc_depends_member p h cz cy). }
      exists d, cz. split; [done|]. split; [done|]. eapply tc_r; [exact Htc|done]. }
  destruct (Sort_outcome succ nodes) as [(Hac & E & HS & HE & Hcl)|(Hcyc & sorted & cycles & HS)].
  - intros v w Hvw. apply Hedge in Hvw as (m & d & Hdep & -> & ->).
    apply Hnodes'. exists m. split; [by apply (depends_member p h m d)|done].
  - intros v Hv. apply Hedge in Hv as (m & d & Hdep & Hd & Hm).
    apply (Hnoself m).
    by rewrite (member_ID_inj p h Hwf d m (proj2 (depends_member p h m d Hdep))
                  (proj1 (depends_member p h m d Hdep)) (eq_trans (eq_sym Hd) Hm)) in Hdep.
  - unfold nodes. rewrite HpG. apply NoDup_fst_map_to_list.
  - intros v w Hvw. apply Hedge in Hvw as (m & d & Hdep & -> & ->).
    apply Hnodes'. exists d. split; [by apply (depends_member p h m d)|done].
  - (* no cycle *)
    left.
    assert (∀ m d, tc (depends p h) m d → tc (edge succ) (ID h d) (ID h m)) as Hup.
    { induction 1 as [x y Hxy|x y z Hxy _ IH].
      - apply tc_once, Hedge. by exists x, y.
      - eapply tc_r; [exact IH|]. apply Hedge. by exists x, y. }
    split. { intros m Hm. by apply (Hac (ID h m)), Hup. }
    fold succ nodes. rewrite HS. simpl.
    rewrite <- List.map_rev.
    destruct (toContracts_spec g (rev E)) as (cs & Hrun' & HF).
    { intros id Hid. apply keys_elem_of. rewrite rev_reverse, elem_of_reverse in Hid.
      rewrite HE in Hid. unfold nodes in Hid. by rewrite HpG in Hid. }
    rewrite Hrun'. simpl. exists cs. split; [done|].
    assert (∀ i c, cs !! i = Some c → member p c ∧ rev E !! i = Some (ID h c)) as Hcs.
    { intros i c Hi. destruct (Forall2_lookup_r _ _ _ _ _ HF Hi) as (id & Hid & Hn).
      rewrite Hnodes in Hn. apply HN1 in Hn as [Hm <-]. done. }
    assert (NoDup (rev E)) as HndE.
    { rewrite rev_reverse, reverse_Permutation, HE. unfold nodes. rewrite HpG. apply NoDup_fst_map_to_list. }
    assert (NoDup cs) as Hndcs.
    { apply NoDup_alt. intros i j c Hi Hj.
      destruct (Hcs i c Hi) as [_ Hi']. destruct (Hcs j c Hj) as [_ Hj'].
      by eapply NoDup_lookup. }
    split.
    + apply NoDup_Permutation; [done|by eapply values_NoDup|].
      intros c. rewrite values_member. split.
      * intros [i Hi]%list_elem_of_lookup. by apply (Hcs i c).
      * intros Hm.
        assert (ID h c ∈ rev E) as Hin.
        { rewrite rev_reverse, elem_of_reverse, HE. apply Hnodes'. by exists c. }
        apply list_elem_of_lookup in Hin as [i Hi].
        destruct (Forall2_lookup_l _ _ _ _ _ HF Hi) as (c' & Hc' & Hn).
        rewrite Hnodes in Hn. apply HN1 in Hn as [Hm' Hid].
        rewrite <- (member_ID_inj p h Hwf c' c Hm' Hm Hid).
        apply list_elem_of_lookup. by exists i.
    + intros m d Hdep.
      destruct (depends_member p h m d Hdep) as [Hm Hd].
      assert (before E (ID h m) (ID h d)) as Hb.
      { assert (ID h d ∈ E) as Hin by (rewrite HE; apply Hnodes'; by exists d).
        apply list_elem_of_lookup in Hin as [i Hi].
        destruct (Hcl i (ID h d) (ID h m) Hi) as (j & Hj & Hjm).
        { apply Hedge. by exists m, d. }
        by exists j, i. }
      apply before_rev in Hb as (i & j & Hij & Hi & Hj).
      destruct (Forall2_lookup_l _ _ _ _ _ HF Hi) as (cd & Hcd & Hnd).
      destruct (Forall2_lookup_l _ _ _ _ _ HF Hj) as (cm & Hcm & Hnm).
      rewrite Hnodes in Hnd, Hnm.
      apply HN1 in Hnd as [Hmd Hidd]. apply HN1 in Hnm as [Hmm Hidm].
      rewrite (member_ID_inj p h Hwf cd d Hmd Hd Hidd) in Hcd.
      rewrite (member_ID_inj p h Hwf cm m Hmm Hm Hidm) in Hcm.
      by exists i, j.
  - (* a cycle *)
    right. split.
    + destruct Hcyc as [x Hx]. destruct (Htc x x Hx) as (cx & cy & Hx1 & Hx2 & Htc').
      exists cx.
      assert (cy = cx) as ->; [|done].
      apply (member_ID_inj p h Hwf); [| |congruence].
      * by apply (tc_depends_member p h cy cx).
      * by apply (tc_depends_member p h cy cx).
    + fold succ nodes. rewrite HS. simpl. by exists cycles.
Qed.

End Deployment.

(** ** The outcomes outside the sort: self edges and unresolved imports *)

Section SelfEdges.
Import project_contracts.

Lemma foldOutcome_total {A B : Type} (f : B → A → outcome B) l msg :
  (∀ b x, x ∈ l → (∃ b', f b x = Returns b') ∨ f b x = Panics msg) →
  ∀ b, (∃ b', foldOutcome f l b = Returns b') ∨ foldOutcome f l b = Panics msg.
Proof.
  induction l as [|x l IH]; intros Hstep b; cbn [foldOutcome].
  - left. by exists b.
  - destruct (Hstep b x ltac:(left)) as [[b' ->]| ->]; cbn [outcome_bind]; [|by right].
    apply IH. intros b0 y Hy. apply Hstep. by right.
Qed.

Lemma foldOutcome_panics {A B : Type} (f : B → A → outcome B) l msg :
  (∀ b x, x ∈ l → (∃ b', f b x = Returns b') ∨ f b x = Panics msg) →
  (∃ x, x ∈ l ∧ ∀ b, f b x = Panics msg) →
  ∀ b, foldOutcome f l b = Panics msg.
Proof.
  induction l as [|x l IH]; intros Hstep (y & Hy & Hpanic) b; cbn [foldOutcome].
  - by apply elem_of_nil in Hy.
  - destruct (Hstep b x ltac:(left)) as [[b' Hb']|Hb']; rewrite Hb'; cbn [outcome_bind]; [|done].
    apply IH; [intros b0 z Hz; apply Hstep; by right|].
    apply elem_of_cons in Hy as [->|Hy]; [|by exists y].
    rewrite Hpanic in Hb'. done.
Qed.

(** The second loop panics when a contract has a dependency with its own
    ID. *)
Lemma addEdges_self (contracts : gmap string ptr) (h : heap) order depOrder :
  (∀ k l, depOrder k l ≡ₚ l) →
  (∃ k c loc d, k ∈ order ∧ contracts !! k = Some c ∧
                dependencies (deref h c) !! loc = Some d ∧ ID h d = ID h c) →
  ∀ g, addEdges contracts h order depOrder g = Panics "simple: adding self edge".
Proof.
  intros Hperm (k & c & loc & d & Hk & Hc & Hd & Hid). unfold addEdges.
  assert (∀ (c0 : ptr) (g0 : simple.DirectedGraph ptr) (x : string),
            (∃ b', match dependencies (deref h c0) !! x with
                   | None => Returns g0
                   | Some dep => simple.SetEdge g0 (ID h dep) dep (ID h c0) c0
                   end = Returns b') ∨
            match dependencies (deref h c0) !! x with
            | None => Returns g0
            | Some dep => simple.SetEdge g0 (ID h dep) dep (ID h c0) c0
            end = Panics "simple: adding self edge") as Hinner.
  { intros c0 g0 x. destruct (dependencies (deref h c0) !! x) as [dep|].
    - unfold simple.SetEdge. destruct (decide (ID h dep = ID h c0)); [by right|].
      left. by eexists.
    - left. by eexists. }
  apply foldOutcome_panics.
  - intros g0 x _. destruct (contracts !! x) as [c0|]; [|left; by eexists].
    apply foldOutcome_total. intros g1 y _. apply Hinner.
  - exists k. split; [done|]. intros g0. rewrite Hc.
    apply foldOutcome_panics.
    + intros g1 y _. apply Hinner.
    + exists loc. split.
      * rewrite Hperm. apply keys_elem_of_string. by eexists.
      * intros g1. rewrite Hd. unfold simple.SetEdge.
        by rewrite decide_True by done.
Qed.




(** A contract that imports its own file stops [PrepareForDeployment] in the
    second loop of [sortByDeploymentOrder]: the imports resolve, the nodes
    are added, and [SetEdge] panics on the edge from the contract to
    itself. *)
Lemma self_import_refused s p h :
  admissible s → wf p h → resolvable p h → (∃ m, depends p h m m) →
  ∃ h', PrepareForDeployment s p h = (h', Panics "simple: adding self edge").
Proof.
  intros (Hresolve & Hnodes & Hedges & Hdeps & _) Hwf Hres (m & Hm).
  unfold PrepareForDeployment.
  destruct (resolveContracts_spec p (rangeResolve s (keys (p_contracts p))) h Hwf)
    as (h' & err & -> & Hext & Hwf' & Hnone & Hsome).
  exists h'. destruct err as [e|].
  { destruct (Hsome e eq_refl) as (k & c & loc & _ & Hc & Hloc & Hno & _).
    destruct Hno. by eapply Hres. }
  destruct (Hnone eq_refl) as [Hcomplete _]. f_equal.
  unfold sortByDeploymentOrder.
  destruct (addNodes_spec p h' Hwf' (rangeNodes s (keys (p_contracts p)))
              simple.NewDirectedGraph) as (g1 & -> & _).
  { rewrite Hnodes. apply NoDup_fst_map_to_list. }
  { intros id c. cbn. by rewrite lookup_empty. }
  cbn [outcome_bind]. rewrite addEdges_self; [done|done|].
  apply (depends_extends p h h' m m Hwf Hext) in Hm.
  destruct Hm as (k & loc & Hk & Hloc & Hd).
  exists k, m, loc, m. split; [|split; [done|split; [|done]]].
  - rewrite Hedges. apply keys_elem_of_string. by eexists.
  - apply (Hcomplete k m); [|done|done|done].
    rewrite Hresolve. apply keys_elem_of_string. by eexists.
Qed.


End SelfEdges.


Section DeploymentOrder.
Import project_contracts.

(** What [PrepareForDeployment] returns on a working set in which every
    import resolves and no contract imports itself, whatever the admissible
    schedule. *)
Lemma PrepareForDeployment_outcome s p h :
  admissible s → wf p h → resolvable p h → (∀ m, ¬ depends p h m m) →
  ∃ h', extends h h' ∧
    (((∀ m, ¬ tc (depends p h) m m) ∧
      ∃ sorted, PrepareForDeployment s p h = (h', Returns (sorted, None)) ∧
                sorted ≡ₚ (map_to_list (p_contracts p)).*2 ∧
                ∀ m d, depends p h m d → before sorted d m) ∨
     ((∃ m, tc (depends p h) m m) ∧
      ∃ cycles, PrepareForDeployment s p h
                = (h', Returns ([], Some (Unorderable cycles))))).
Proof.
  intros Hs Hwf Hres Hnoself.
  pose proof Hs as (HpR & _).
  destruct (resolveContracts_spec p (rangeResolve s (keys (p_contracts p))) h Hwf)
    as (h' & err & Hrun & Hext & Hwf' & Hok & Hfail).
  destruct err as [e|].
  { exfalso. destruct (Hfail e eq_refl) as (k & c & loc & _ & Hk & Hloc & Hnr & _).
    by apply Hnr, (Hres k c loc). }
  destruct (Hok eq_refl) as [Hcomp _].
  exists h'. split; [done|].
  unfold PrepareForDeployment. rewrite Hrun.
  destruct (sortByDeploymentOrder_outcome s p h' Hs Hwf')
    as [(Hac & sorted & Hsort & Hperm & Hord)|((m & Hm) & cycles & Hsort)].
  - intros k c Hk. apply Hcomp; [|done].
    rewrite HpR. apply keys_elem_of_string. by rewrite Hk.
  - intros m Hm. apply (Hnoself m). by apply (depends_extends p h h').
  - left. split.
    + intros m Hm. apply (Hac m). by apply (tc_depends_extends p h h').
    + exists sorted. rewrite Hsort. simpl. split; [done|]. split; [done|].
      intros m d Hd. apply Hord. by apply (depends_extends p h h').
  - right. split.
    + exists m. by apply (tc_depends_extends p h h').
    + exists cycles. by rewrite Hsort.
Qed.

(** C1.  For every working set in which every import resolves and whose
    dependency relation has no cycle, and for every order in which the maps
    may be visited, [PrepareForDeployment] returns all registered contracts
    in an order in which every contract stands strictly after each of its
    direct and transitive dependencies. *)
Theorem PrepareForDeployment_sorted s p h :
  admissible s → wf p h → resolvable p h →
  (∀ m, ¬ tc (depends p h) m m) →
  ∃ h' sorted,
    PrepareForDeployment s p h = (h', Returns (sorted, None)) ∧
    sorted ≡ₚ (map_to_list (p_contracts p)).*2 ∧
    ∀ m d, tc (depends p h) m d → before sorted d m.
Proof.
  intros Hs Hwf Hres Hac.
  destruct (PrepareForDeployment_outcome s p h Hs Hwf Hres)
    as (h' & _ & [(_ & sorted & Hrun & Hperm & Hord)|((m & Hm) & _)]).
  - intros m Hm. by apply (Hac m), tc_once.
  - exists h', sorted. split; [done|]. split; [done|].
    assert (NoDup sorted) as Hnd by (rewrite Hperm; by eapply values_NoDup).
    induction 1 as [m d Hmd|m x d Hmx _ IH]; [by apply Hord|].
    eapply before_trans; [done|exact IH|by apply Hord].
  - by destruct (Hac m).
Qed.

(** Where every import resolves and no contract imports itself, two distinct
    contracts that depend on each other (directly or transitively) make
    [PrepareForDeployment] return the [Unorderable] error of the topological
    sort and no contracts. *)
Lemma PrepareForDeployment_cycle s p h :
  admissible s → wf p h → resolvable p h → (∀ m, ¬ depends p h m m) →
  (∃ m d, m ≠ d ∧ tc (depends p h) m d ∧ tc (depends p h) d m) →
  ∃ h' cycles,
    PrepareForDeployment s p h = (h', Returns ([], Some (Unorderable cycles))).
Proof.
  intros Hs Hwf Hres Hnoself (m & d & _ & Hmd & Hdm).
  destruct (PrepareForDeployment_outcome s p h Hs Hwf Hres Hnoself)
    as (h' & _ & [(Hac & _)|(_ & cycles & Hrun)]).
  - destruct (Hac m). by etrans.
  - by exists h', cycles.
Qed.


End DeploymentOrder.

(* ===================================================================== *)
(** * Part XIII.  Registration                                              *)
(* ===================================================================== *)

Section RegistrationProofs.
Import project_contracts.
Variable ReadFile : string → option string.
Variable ParseProgram : string → option ast.Program.

Lemma registered_new aliases : registered (NewPreprocessor aliases) [].
Proof.
  constructor; [constructor|]; simpl.
  - intros k c H. by rewrite lookup_empty in H.
  - intros k1 k2 c1 c2 H. by rewrite lookup_empty in H.
  - intros k c H. by rewrite lookup_empty in H.
  - intros k c H. by rewrite lookup_empty in H.
Qed.

Lemma AddContractSource_ok p h n src tgt p' h' :
  AddContractSource ReadFile ParseProgram p h n src tgt = (p', h', None) →
  ∃ v, h' = h ++ [v] ∧
       p' = {| p_aliases := p_aliases p;
               p_contracts := <[src := length h]> (p_contracts p) |} ∧
       index v = Z.of_nat (size (p_contracts p)) ∧ name v = n ∧ source v = src ∧
       target v = tgt ∧ ReadFile src = Some (code v) ∧
       ParseProgram (code v) = Some (program v) ∧
       dependencies v = ∅ ∧ aliases v = ∅.
Proof.
  unfold AddContractSource, newContract.
  destruct (ReadFile src) as [code|] eqn:Hread; [|done].
  destruct (ParseProgram code) as [prog|] eqn:Hparse; [|done].
  simpl. intros [= <- <-]. eexists. split; [done|]. split; [done|]. simpl.
  by rewrite Hparse.
Qed.

(** Registering a new source path keeps the invariant of registration. *)
Lemma registered_add p h n src tgt p' h' :
  registered p h → p_contracts p !! src = None →
  AddContractSource ReadFile ParseProgram p h n src tgt = (p', h', None) →
  registered p' h' ∧
  p_contracts p' !! src = Some (length h) ∧
  ID h' (length h) = Z.of_nat (size (p_contracts p)) ∧
  (∀ k c, p_contracts p !! k = Some c →
          p_contracts p' !! k = Some c ∧ ID h' c = ID h c).
Proof.
  intros [Hwf Hids] Hnew Hadd.
  destruct (AddContractSource_ok _ _ _ _ _ _ _ Hadd)
    as (v & -> & -> & Hidx & Hn & Hsrc & Htgt & _ & _ & Hdeps & Hal).
  simpl.
  assert (∀ k c, p_contracts p !! k = Some c → (c < length h)%nat) as Hlt.
  { intros k c Hk. destruct (wf_ptr _ _ Hwf k c Hk) as (w & Hw & _).
    by eapply lookup_lt_Some. }
  assert (∀ k c, p_contracts p !! k = Some c → deref (h ++ [v]) c = deref h c) as Hold.
  { intros k c Hk. unfold deref. by rewrite lookup_app_l by by eapply Hlt. }
  assert (deref (h ++ [v]) (length h) = v) as Hv.
  { unfold deref. by rewrite list_lookup_middle. }
  assert (∀ k c, <[src := length h]> (p_contracts p) !! k = Some c →
                 (k = src ∧ c = length h) ∨ (k ≠ src ∧ p_contracts p !! k = Some c)) as Hcase.
  { intros k c. destruct (decide (src = k)) as [<-|Hne].
    - rewrite lookup_insert_eq. intros [= <-]. by left.
    - rewrite lookup_insert_ne by done. intros H. right. split; [congruence|done]. }
  assert (∀ k c, p_contracts p !! k = Some c →
                 ID (h ++ [v]) c = ID h c) as HID.
  { intros k c Hk. unfold ID. by rewrite (Hold k c Hk). }
  assert (ID (h ++ [v]) (length h) = Z.of_nat (size (p_contracts p))) as HIDv.
  { unfold ID. by rewrite Hv. }
  split; [|split; [by rewrite lookup_insert_eq|split; [done|]]].
  - constructor; [constructor|]; simpl.
    + intros k c [[-> ->]|[Hne Hk]]%Hcase.
      * exists v. split; [by rewrite list_lookup_middle|done].
      * destruct (wf_ptr _ _ Hwf k c Hk) as (w & Hw & Hs). exists w.
        split; [|done]. rewrite lookup_app_l; [done|by eapply lookup_lt_Some].
    + intros k1 k2 c1 c2 [[-> ->]|[Hne1 Hk1]]%Hcase [[-> ->]|[Hne2 Hk2]]%Hcase; [done| | |].
      * rewrite HIDv, (HID k2 c2 Hk2). pose proof (Hids k2 c2 Hk2). lia.
      * rewrite HIDv, (HID k1 c1 Hk1). pose proof (Hids k1 c1 Hk1). lia.
      * rewrite (HID k1 c1 Hk1), (HID k2 c2 Hk2). by apply (wf_ids _ _ Hwf).
    + intros k c [[-> ->]|[Hne Hk]]%Hcase.
      * rewrite Hv. intros loc d. rewrite Hdeps. by rewrite lookup_empty.
      * rewrite (Hold k c Hk). intros loc d Hd.
        destruct (wf_deps _ _ Hwf k c Hk loc d Hd) as [Hi Hl]. split; [done|].
        cbn [p_contracts]. rewrite lookup_insert_ne; [done|]. intros Heq. congruence.
    + intros k c [[-> ->]|[Hne Hk]]%Hcase.
      * rewrite HIDv. rewrite map_size_insert_None by done. lia.
      * rewrite (HID k c Hk). rewrite map_size_insert_None by done.
        pose proof (Hids k c Hk). lia.
  - intros k c Hk. split; [|by apply (HID k c)].
    rewrite lookup_insert_ne; [done|]. intros <-. congruence.
Qed.

(** Registering a sequence of new, pairwise distinct source paths. *)
Lemma registerAll_spec calls :
  ∀ p h p' h',
    registered p h → NoDup (sources calls) →
    (∀ src, src ∈ sources calls → p_contracts p !! src = None) →
    registerAll ReadFile ParseProgram calls p h = Some (p', h') →
    registered p' h' ∧
    (∀ k c, p_contracts p !! k = Some c →
            p_contracts p' !! k = Some c ∧ ID h' c = ID h c) ∧
    (∀ i n src tgt, calls !! i = Some (n, src, tgt) →
       ∃ c, p_contracts p' !! src = Some c ∧
            ID h' c = Z.of_nat (size (p_contracts p) + i)).
Proof.
  induction calls as [|[[n src] tgt] rest IH]; intros p h p' h' Hreg Hnd Hfresh; simpl.
  - intros [= <- <-]. split; [done|]. split; [done|]. intros i ???. by rewrite lookup_nil.
  - destruct (AddContractSource ReadFile ParseProgram p h n src tgt)
      as [[p1 h1] [e|]] eqn:Hadd; [done|].
    intros Hrest. simpl in Hnd. apply NoDup_cons in Hnd as [Hsrc Hnd].
    assert (p_contracts p !! src = None) as Hnew by (apply Hfresh; simpl; set_solver).
    destruct (registered_add p h n src tgt p1 h1 Hreg Hnew Hadd)
      as (Hreg1 & Hsrc1 & Hid1 & Hold1).
    assert (p_contracts p1 = <[src := length h]> (p_contracts p)) as Hp1.
    { destruct (AddContractSource_ok _ _ _ _ _ _ _ Hadd) as (v & _ & -> & _). done. }
    destruct (IH p1 h1 p' h' Hreg1 Hnd) as (Hreg' & Hold' & Hnew'); [|done|].
    { intros s Hs. rewrite Hp1, lookup_insert_ne; [|by intros <-].
      apply Hfresh. simpl. set_solver. }
    split; [done|]. split.
    + intros k c Hk. destruct (Hold1 k c Hk) as [Hk1 Hi1].
      destruct (Hold' k c Hk1) as [Hk' Hi']. split; [done|congruence].
    + intros [|i] n' src' tgt' Hi; simpl in Hi.
      * injection Hi as <- <- <-. exists (length h).
        destruct (Hold' src (length h) Hsrc1) as [Hk' Hi']. split; [done|].
        rewrite Hi', Hid1. f_equal. lia.
      * destruct (Hnew' i n' src' tgt' Hi) as (c & Hc & Hid). exists c. split; [done|].
        rewrite Hid, Hp1, map_size_insert_None by done. f_equal. lia.
Qed.

(** C10.  After a sequence of successful calls of [AddContractSource] with
    pairwise distinct source paths, on a new preprocessor, the contract of the
    [i]-th call is registered under its source path with ID [i], the number of
    contracts registered before it; so no two registered contracts share an
    ID. *)
Theorem AddContractSource_ids aliases calls p h :
  registerAll ReadFile ParseProgram calls (NewPreprocessor aliases) [] = Some (p, h) →
  NoDup (sources calls) →
  (∀ i n src tgt, calls !! i = Some (n, src, tgt) →
     ∃ c, p_contracts p !! src = Some c ∧ ID h c = Z.of_nat i) ∧
  (∀ k1 k2 c1 c2, p_contracts p !! k1 = Some c1 → p_contracts p !! k2 = Some c2 →
     k1 ≠ k2 → ID h c1 ≠ ID h c2).
Proof.
  intros Hrun Hnd.
  destruct (registerAll_spec calls (NewPreprocessor aliases) [] p h
              (registered_new aliases) Hnd) as (Hreg & _ & Hnew); [|done|].
  { intros src _. simpl. by rewrite lookup_empty. }
  split.
  - intros i n src tgt Hi. destruct (Hnew i n src tgt Hi) as (c & Hc & Hid).
    exists c. split; [done|]. rewrite Hid. simpl. by rewrite map_size_empty.
  - intros k1 k2 c1 c2 H1 H2 Hne Hid. apply Hne.
    by apply (wf_ids _ _ (reg_wf _ _ Hreg) k1 k2 c1 c2).
Qed.

(** The working set built by such a sequence of calls satisfies [wf]. *)
Lemma registerAll_wf aliases calls p h :
  registerAll ReadFile ParseProgram calls (NewPreprocessor aliases) [] = Some (p, h) →
  NoDup (sources calls) → wf p h.
Proof.
  intros Hrun Hnd.
  destruct (registerAll_spec calls (NewPreprocessor aliases) [] p h
              (registered_new aliases) Hnd) as (Hreg & _); [|done|].
  - intros src _. simpl. by rewrite lookup_empty.
  - apply (reg_wf _ _ Hreg).
Qed.

End RegistrationProofs.

Section Checks.
Import project_contracts.

Lemma resolvableb_spec p h : resolvableb p h = true → resolvable p h.
Proof.
  unfold resolvableb, resolvable, resolves. rewrite forallb_forall.
  intros H k c loc Hk Hloc.
  specialize (H (k, c)). simpl in H. rewrite forallb_forall in H.
  assert (In (k, c) (map_to_list (p_contracts p))) as Hin
    by by apply list_elem_of_In, elem_of_map_to_list.
  specialize (H Hin loc (proj1 (list_elem_of_In _ _) Hloc)).
  destruct (p_contracts p !! absolutePath k loc); [left; eauto|].
  destruct (p_aliases p !! getAliasForImport loc); [right; eauto|done].
Qed.

Lemma rankedb_spec rank p h m d :
  rankedb rank p h = true → depends p h m d → (rank d < rank m)%nat.
Proof.
  unfold rankedb. rewrite forallb_forall.
  intros H (k & loc & Hk & Hloc & Hd).
  specialize (H (k, m)). simpl in H. rewrite forallb_forall in H.
  assert (In (k, m) (map_to_list (p_contracts p))) as Hin
    by by apply list_elem_of_In, elem_of_map_to_list.
  specialize (H Hin loc (proj1 (list_elem_of_In _ _) Hloc)).
  rewrite Hd in H. by apply Nat.ltb_lt.
Qed.

(** A rank that decreases along every dependency rules out cycles. *)
Lemma rankedb_acyclic rank p h :
  rankedb rank p h = true → ∀ m, ¬ tc (depends p h) m m.
Proof.
  intros H.
  assert (∀ m d, tc (depends p h) m d → (rank d < rank m)%nat) as Hlt.
  { induction 1 as [x y Hxy|x y z Hxy _ IH].
    - by eapply rankedb_spec.
    - pose proof (rankedb_spec rank p h x y H Hxy). lia. }
  intros m Hm. specialize (Hlt m m Hm). lia.
Qed.

Lemma noSelfImportb_spec p h : noSelfImportb p h = true → ∀ m, ¬ depends p h m m.
Proof.
  unfold noSelfImportb. rewrite forallb_forall.
  intros H m (k & loc & Hk & Hloc & Hd).
  specialize (H (k, m)). simpl in H. rewrite forallb_forall in H.
  assert (In (k, m) (map_to_list (p_contracts p))) as Hin
    by by apply list_elem_of_In, elem_of_map_to_list.
  specialize (H Hin loc (proj1 (list_elem_of_In _ _) Hloc)).
  rewrite Hd in H. by rewrite Nat.eqb_refl in H.
Qed.

End Checks.

(* ===================================================================== *)
(** * Part XIV.  Text substitution, failures and frame                    *)
(* ===================================================================== *)

Section Substitution.
#[local] Arguments String.append : simpl nomatch.

Lemma keys_singleton {A : Type} (k : string) (x : A) :
  keys ({[k := x]} : gmap string A) = [k].
Proof. unfold keys. by rewrite map_to_list_singleton. Qed.

Lemma keys_empty {A : Type} : keys (∅ : gmap string A) = [].
Proof. unfold keys. by rewrite map_to_list_empty. Qed.

(** The leftmost occurrence: where [Index] finds it, the text reads a part
    in which no occurrence starts, then the pattern, then the rest. *)
Lemma Index_leftmost s sub :
  ∀ j, strings.Index s sub = Some j →
       ∃ pre post, s = pre +:+ sub +:+ post ∧ strings.len pre = j ∧
                   ∀ i, (i < j)%nat → strings.HasPrefix (strings.drop i s) sub = false.
Proof.
  induction s as [|c s IH]; intros j.
  - cbn [strings.Index]. destruct (strings.HasPrefix EmptyString sub) eqn:Hp; [|done].
    intros [= <-]. destruct (HasPrefix_split _ _ Hp) as (post & Hs).
    exists EmptyString, post. split; [done|]. split; [done|]. intros i Hi. lia.
  - cbn [strings.Index]. destruct (strings.HasPrefix (String c s) sub) eqn:Hp.
    + intros [= <-]. destruct (HasPrefix_split _ _ Hp) as (post & Hs).
      exists EmptyString, post. split; [done|]. split; [done|]. intros i Hi. lia.
    + destruct (strings.Index s sub) as [j'|] eqn:Hj; [|done]. intros [= <-].
      destruct (IH j' eq_refl) as (pre & post & -> & Hlen & Hbefore).
      exists (String c pre), post. split; [done|]. split.
      * unfold strings.len in *. cbn [String.length]. by rewrite Hlen.
      * intros [|i] Hi; [done|]. cbn [strings.drop]. apply Hbefore. lia.
Qed.

(** The two loops of [TranspiledCode] and the loop of [ResolveImports] run
    [rewriteEach]. *)
Lemma fold_entries {A : Type} (m : gmap string A) (f : A → string) locs :
  (∀ loc, loc ∈ locs → is_Some (m !! loc)) →
  ∃ es : list (string * A),
    es.*1 = locs ∧ (∀ e, e ∈ es → m !! e.1 = Some e.2) ∧
    ∀ code,
      fold_left
        (fun code loc =>
           match m !! loc with
           | Some v => strings.Replace1 code (quoted loc) ("0x" +:+ f v)
           | None => code
           end) locs code
      = rewriteEach ((fun e => (e.1, f e.2)) <$> es) code.
Proof.
  induction locs as [|loc locs IH]; intros Hall.
  - exists []. split; [done|]. split; [|done]. intros e He. by apply elem_of_nil in He.
  - destruct IH as (es & Hes & Hlook & Hfold).
    { intros l Hl. apply Hall. by right. }
    destruct (Hall loc ltac:(left)) as [v Hv].
    exists ((loc, v) :: es). split; [by rewrite fmap_cons, Hes|]. split.
    + intros e [->|He]%elem_of_cons; [done|by apply Hlook].
    + intros code. cbn [fold_left]. rewrite Hv, Hfold.
      rewrite fmap_cons. reflexivity.
Qed.

Lemma entries_Permutation {A : Type} (m : gmap string A) (es : list (string * A)) :
  es.*1 ≡ₚ keys m → (∀ e, e ∈ es → m !! e.1 = Some e.2) → es ≡ₚ map_to_list m.
Proof.
  intros Hperm Hlook.
  assert (NoDup es.*1) as Hnd by (rewrite Hperm; apply NoDup_fst_map_to_list).
  apply NoDup_Permutation.
  - by apply (NoDup_fmap_1 fst).
  - apply NoDup_map_to_list.
  - intros [k v]. rewrite elem_of_map_to_list. split.
    + intros He. by apply (Hlook (k, v)).
    + intros Hk.
      assert (k ∈ es.*1) as Hin.
      { rewrite Hperm. apply keys_elem_of_string. by eexists. }
      apply list_elem_of_fmap in Hin as ([k' v'] & -> & He).
      pose proof (Hlook _ He) as Hv. cbn [fst snd] in *.
      by replace v with v' by congruence.
Qed.

Lemma resolveLoop_rewriteEach codePath (st : gmap string string) imports :
  ∀ r,
    (∀ imp, imp ∈ imports →
            default EmptyString (st !! flowcli_contracts.absolutePath codePath imp)
            ≠ EmptyString) →
    (flowcli_contracts.resolveLoop codePath st imports r).2
    = (rewriteEach
         ((fun imp =>
             (imp, default EmptyString
                     (st !! flowcli_contracts.absolutePath codePath imp))) <$> imports)
         (flowcli_contracts.code r), None).
Proof.
  induction imports as [|imp rest IH]; intros r Hall; [done|].
  cbn [flowcli_contracts.resolveLoop].
  destruct (String.eqb_spec
              (default EmptyString (st !! flowcli_contracts.absolutePath codePath imp))
              EmptyString) as [He|Hne]; cbn [negb].
  { destruct (Hall imp ltac:(left) He). }
  rewrite IH by (intros i Hi; apply Hall; by right).
  reflexivity.
Qed.

(** C4, as amended.  Substitution is a sequence of single replacements
    ([strings.Replace] with count 1).  Each replacement rewrites the leftmost
    occurrence of a quoted location in the text as it stands at that point,
    and leaves the text before and behind that occurrence as it is; without
    an occurrence it changes nothing.  In deployment mode [TranspiledCode]
    makes one replacement for each key of the dependencies, then one for each
    key of the aliases, in the orders in which Go visits the two maps: one for
    each distinct resolved location.  So a contract whose imports resolve to
    one location has that location rewritten once, and later occurrences stay
    the quoted string, whether the location leads to a registered contract or
    to an alias.  In ad-hoc mode a successful [ResolveImports] makes one
    replacement for each extracted import, in the order of extraction and
    duplicates included, so an import string extracted twice has its first
    two occurrences rewritten. *)
Theorem substitution_first_occurrence :
  (∀ code loc address,
     (strings.Index code (quoted loc) = None →
      strings.Replace1 code (quoted loc) ("0x" +:+ address) = code) ∧
     (∀ j, strings.Index code (quoted loc) = Some j →
           ∃ pre post,
             code = pre +:+ quoted loc +:+ post ∧ strings.len pre = j ∧
             (∀ i, (i < j)%nat →
                   strings.HasPrefix (strings.drop i code) (quoted loc) = false) ∧
             strings.Replace1 code (quoted loc) ("0x" +:+ address)
             = pre +:+ ("0x" +:+ address) +:+ post)) ∧
  (∀ h c depOrder aliasOrder,
     (∀ l, depOrder l ≡ₚ l) → (∀ l, aliasOrder l ≡ₚ l) →
     ∃ deps als,
       deps ≡ₚ map_to_list (project_contracts.dependencies c) ∧
       als ≡ₚ map_to_list (project_contracts.aliases c) ∧
       deps.*1 = depOrder (keys (project_contracts.dependencies c)) ∧
       als.*1 = aliasOrder (keys (project_contracts.aliases c)) ∧
       NoDup deps.*1 ∧ NoDup als.*1 ∧
       project_contracts.TranspiledCode h c depOrder aliasOrder
       = rewriteEach ((fun e => (e.1, flow.Address_String e.2)) <$> als)
           (rewriteEach
              ((fun e => (e.1, flow.Address_String (project_contracts.Target h e.2)))
                 <$> deps)
              (project_contracts.code c))) ∧
  (∀ h c depOrder aliasOrder loc d pre post,
     (∀ l, depOrder l ≡ₚ l) → (∀ l, aliasOrder l ≡ₚ l) →
     project_contracts.dependencies c = {[loc := d]} →
     project_contracts.aliases c = ∅ →
     project_contracts.code c = pre +:+ quoted loc +:+ post →
     strings.Index (project_contracts.code c) (quoted loc) = Some (strings.len pre) →
     project_contracts.TranspiledCode h c depOrder aliasOrder
     = pre +:+ ("0x" +:+ flow.Address_String (project_contracts.Target h d)) +:+ post) ∧
  (∀ h c depOrder aliasOrder loc a pre post,
     (∀ l, depOrder l ≡ₚ l) → (∀ l, aliasOrder l ≡ₚ l) →
     project_contracts.dependencies c = ∅ →
     project_contracts.aliases c = {[loc := a]} →
     project_contracts.code c = pre +:+ quoted loc +:+ post →
     strings.Index (project_contracts.code c) (quoted loc) = Some (strings.len pre) →
     project_contracts.TranspiledCode h c depOrder aliasOrder
     = pre +:+ ("0x" +:+ flow.Address_String a) +:+ post) ∧
  (∀ r codePath contracts aliases aliasOrder,
     (∀ imp, imp ∈ flowcli_contracts.getFileImports r →
             default EmptyString
               (flowcli_contracts.getSourceTarget contracts aliases aliasOrder
                  !! flowcli_contracts.absolutePath codePath imp) ≠ EmptyString) →
     (flowcli_contracts.ResolveImports r codePath contracts aliases aliasOrder).2
     = (rewriteEach
          ((fun imp =>
              (imp, default EmptyString
                      (flowcli_contracts.getSourceTarget contracts aliases aliasOrder
                         !! flowcli_contracts.absolutePath codePath imp)))
             <$> flowcli_contracts.getFileImports r)
          (flowcli_contracts.code r), None)) ∧
  (∀ r codePath contracts aliases aliasOrder imp tgt pre mid post,
     flowcli_contracts.getFileImports r = [imp; imp] →
     flowcli_contracts.getSourceTarget contracts aliases aliasOrder
       !! flowcli_contracts.absolutePath codePath imp = Some tgt →
     tgt ≠ EmptyString →
     flowcli_contracts.code r = pre +:+ quoted imp +:+ mid +:+ quoted imp +:+ post →
     strings.Index (flowcli_contracts.code r) (quoted imp) = Some (strings.len pre) →
     strings.Index (pre +:+ ("0x" +:+ tgt) +:+ mid +:+ quoted imp +:+ post) (quoted imp)
       = Some (strings.len (pre +:+ ("0x" +:+ tgt) +:+ mid)) →
     (flowcli_contracts.ResolveImports r codePath contracts aliases aliasOrder).2
     = (pre +:+ ("0x" +:+ tgt) +:+ mid +:+ ("0x" +:+ tgt) +:+ post, None)).
Proof.
  split; [|split; [|split; [|split; [|split]]]].
  - intros code loc address. split.
    + intros Hidx. unfold strings.Replace1. rewrite Hidx.
      by rewrite quoted_ne_address.
    + intros j Hj.
      destruct (Index_leftmost _ _ j Hj) as (pre & post & Hcode & Hlen & Hbefore).
      exists pre, post. split; [done|]. split; [done|]. split; [done|].
      apply Replace1_first; [apply quoted_ne_address|done|by rewrite Hlen].
  - intros h c depOrder aliasOrder Hd Ha.
    destruct (fold_entries (project_contracts.dependencies c)
                (fun d => flow.Address_String (project_contracts.Target h d))
                (depOrder (keys (project_contracts.dependencies c))))
      as (deps & Hdeps & Hdlook & Hdfold).
    { intros loc Hloc. rewrite Hd in Hloc. by apply keys_elem_of_string. }
    destruct (fold_entries (project_contracts.aliases c) flow.Address_String
                (aliasOrder (keys (project_contracts.aliases c))))
      as (als & Hals & Halook & Hafold).
    { intros loc Hloc. rewrite Ha in Hloc. by apply keys_elem_of_string. }
    exists deps, als.
    split; [apply entries_Permutation; [by rewrite Hdeps|done]|].
    split; [apply entries_Permutation; [by rewrite Hals|done]|].
    split; [done|]. split; [done|].
    split; [rewrite Hdeps, Hd; apply NoDup_fst_map_to_list|].
    split; [rewrite Hals, Ha; apply NoDup_fst_map_to_list|].
    unfold project_contracts.TranspiledCode. by rewrite Hdfold, Hafold.
  - intros h c depOrder aliasOrder loc d pre post Hd Ha Hdeps Hal Hcode Hidx.
    unfold project_contracts.TranspiledCode. rewrite Hdeps, Hal.
    rewrite keys_singleton, keys_empty.
    rewrite (proj1 (Permutation_nil_r _) (Ha [])).
    rewrite (proj1 (Permutation_singleton_r _ _) (Hd [loc])).
    cbn [fold_left]. rewrite lookup_singleton_eq.
    by apply Replace1_first.
  - intros h c depOrder aliasOrder loc a pre post Hd Ha Hdeps Hal Hcode Hidx.
    unfold project_contracts.TranspiledCode. rewrite Hdeps, Hal.
    rewrite (keys_singleton loc a), (keys_empty (A:=project_contracts.ptr)).
    rewrite (proj1 (Permutation_nil_r _) (Hd [])).
    rewrite (proj1 (Permutation_singleton_r _ _) (Ha [loc])).
    cbn [fold_left]. rewrite lookup_singleton_eq.
    by apply Replace1_first.
  - intros r codePath contracts aliases aliasOrder Hall.
    unfold flowcli_contracts.ResolveImports. by apply resolveLoop_rewriteEach.
  - intros r codePath contracts aliases aliasOrder imp tgt pre mid post
           Himp Htgt Hne Hcode Hidx1 Hidx2.
    unfold flowcli_contracts.ResolveImports. rewrite Himp.
    assert (negb (String.eqb tgt EmptyString) = true) as Hnb.
    { destruct (String.eqb_spec tgt EmptyString); done. }
    cbn [flowcli_contracts.resolveLoop]. rewrite Htgt.
    cbn [default from_option id]. rewrite Hnb.
    cbn [snd fst flowcli_contracts.code]. f_equal.
    unfold flowcli_contracts.replaceImport. cbn [flowcli_contracts.code].
    rewrite (Replace1_first (flowcli_contracts.code r) (quoted imp) ("0x" +:+ tgt) pre
               (mid +:+ quoted imp +:+ post)); [|done|done|done].
    rewrite (Replace1_first _ (quoted imp) ("0x" +:+ tgt)
               (pre +:+ ("0x" +:+ tgt) +:+ mid) post); [| done | |done].
    + by rewrite !append_assoc.
    + by rewrite !append_assoc.
Qed.

(** ** An unresolved import *)

Lemma resolveLoop_fails codePath (st : gmap string string) imports :
  ∀ r,
    (∃ imp, imp ∈ imports ∧
            default EmptyString (st !! flowcli_contracts.absolutePath codePath imp)
            = EmptyString) →
    ∃ r' imp,
      flowcli_contracts.resolveLoop codePath st imports r
      = (r', (EmptyString, Some (flowcli_contracts.unresolved imp))) ∧
      imp ∈ imports ∧
      default EmptyString (st !! flowcli_contracts.absolutePath codePath imp)
      = EmptyString.
Proof.
  induction imports as [|i rest IH]; intros r (imp & Hin & Hemp).
  - by apply elem_of_nil in Hin.
  - cbn [flowcli_contracts.resolveLoop].
    destruct (String.eqb_spec
                (default EmptyString (st !! flowcli_contracts.absolutePath codePath i))
                EmptyString) as [He|Hne]; cbn [negb].
    + exists r, i. split; [done|]. split; [set_solver|done].
    + apply elem_of_cons in Hin as [->|Hin]; [done|].
      destruct (IH (flowcli_contracts.mkResolver
                      (flowcli_contracts.replaceImport r i
                         (default EmptyString
                            (st !! flowcli_contracts.absolutePath codePath i)))
                      (flowcli_contracts.program r)))
        as (r' & imp' & Hrun & Hin' & Hemp'); [by exists imp|].
      exists r', imp'. split; [done|]. split; [set_solver|done].
Qed.

(** C3, as amended.  In deployment mode, when an import of a registered
    contract matches neither a registered contract (by normalized path) nor
    an alias (by alias key), [PrepareForDeployment] returns no contracts and
    an error whose message holds the name of an importing contract and the
    normalized path of one of its imports that does not resolve.  In ad-hoc
    mode, when an extracted import string has no target under its normalized
    path in the table of contract and alias sources, [ResolveImports] returns
    no code and an error whose message holds that import string only. *)
Theorem unresolved_import_fails :
  (∀ s p h,
     admissible s → wf p h →
     (∃ k c loc, project_contracts.p_contracts p !! k = Some c ∧
                 loc ∈ project_contracts.imports (project_contracts.deref h c) ∧
                 ¬ resolves p k loc) →
     ∃ h' k c loc,
       project_contracts.PrepareForDeployment s p h
       = (h', Returns ([], Some (project_contracts.unresolvedImport
                                   (project_contracts.name (project_contracts.deref h c))
                                   (project_contracts.absolutePath k loc)))) ∧
       project_contracts.p_contracts p !! k = Some c ∧
       loc ∈ project_contracts.imports (project_contracts.deref h c) ∧
       ¬ resolves p k loc) ∧
  (∀ r codePath contracts aliases aliasOrder,
     (∃ imp, imp ∈ flowcli_contracts.getFileImports r ∧
             default EmptyString
               (flowcli_contracts.getSourceTarget contracts aliases aliasOrder
                  !! flowcli_contracts.absolutePath codePath imp) = EmptyString) →
     ∃ r' imp,
       flowcli_contracts.ResolveImports r codePath contracts aliases aliasOrder
       = (r', (EmptyString, Some (flowcli_contracts.unresolved imp))) ∧
       imp ∈ flowcli_contracts.getFileImports r ∧
       default EmptyString
         (flowcli_contracts.getSourceTarget contracts aliases aliasOrder
            !! flowcli_contracts.absolutePath codePath imp) = EmptyString).
Proof.
  split.
  - intros s p h (HpR & _) Hwf (k & c & loc & Hk & Hloc & Hnr).
    destruct (resolveContracts_spec p
                (project_contracts.rangeResolve s (keys (project_contracts.p_contracts p)))
                h Hwf) as (h' & err & Hrun & _ & _ & Hok & Hfail).
    destruct err as [e|].
    + destruct (Hfail e eq_refl) as (k' & c' & loc' & _ & Hk' & Hloc' & Hnr' & ->).
      exists h', k', c', loc'. split; [|done].
      unfold project_contracts.PrepareForDeployment. by rewrite Hrun.
    + exfalso. destruct (Hok eq_refl) as [_ Hres]. apply Hnr, (Hres k c loc); [|done|done].
      rewrite HpR. apply keys_elem_of_string. by rewrite Hk.
  - intros r codePath contracts aliases aliasOrder Hex.
    unfold flowcli_contracts.ResolveImports. by apply resolveLoop_fails.
Qed.

(** ** What resolution leaves untouched *)

Lemma resolveLocations_unregistered p c locs (h : list project_contracts.Contract) :
  h !! c = None → (project_contracts.resolveLocations p c locs h).1 = h.
Proof.
  intros Hc. pose proof (proj1 (lookup_ge_None _ _) Hc) as Hge.
  revert h Hc Hge. induction locs as [|loc rest IH]; intros h Hc Hge; [done|].
  cbn [project_contracts.resolveLocations].
  destruct (project_contracts.p_contracts p !! _) as [d|];
    [|destruct (project_contracts.p_aliases p !! _) as [a|]; [|done]].
  - unfold project_contracts.addDependency. rewrite list_insert_ge by done. by apply IH.
  - unfold project_contracts.addAlias. rewrite list_insert_ge by done. by apply IH.
Qed.

Lemma resolveLocations_extends p c locs (h : list project_contracts.Contract) :
  extends h (project_contracts.resolveLocations p c locs h).1.
Proof.
  destruct (h !! c) as [v|] eqn:Hc.
  - rewrite (resolveLocations_spec p c locs h v Hc). cbn [fst].
    destruct (resolved_dom p v locs) as [Hd Ha].
    eapply extends_insert; [done|apply resolved_same|done|done].
  - rewrite resolveLocations_unregistered by done. apply extends_refl.
Qed.

Lemma resolveContracts_extends p order :
  ∀ h, extends h (project_contracts.resolveContracts p order h).1.
Proof.
  induction order as [|k rest IH]; intros h; [apply extends_refl|].
  cbn [project_contracts.resolveContracts].
  destruct (project_contracts.p_contracts p !! k) as [c|]; [|apply IH].
  pose proof (resolveLocations_extends p c
                (project_contracts.imports (project_contracts.deref h c)) h) as Hext.
  destruct (project_contracts.resolveLocations p c _ h) as [h' [e|]]; [done|].
  eapply extends_trans; [exact Hext|apply IH].
Qed.

Lemma resolveLoop_stores codePath (st : gmap string string) imports :
  ∀ r, let res := flowcli_contracts.resolveLoop codePath st imports r in
       flowcli_contracts.program res.1 = flowcli_contracts.program r ∧
       (res.2.2 = None → flowcli_contracts.code res.1 = res.2.1).
Proof.
  induction imports as [|i rest IH]; intros r; [done|].
  cbn [flowcli_contracts.resolveLoop].
  destruct (negb _); [|done].
  apply (IH (flowcli_contracts.mkResolver _ _)).
Qed.

(** C8, as amended.  In deployment mode a call of [PrepareForDeployment],
    whether it succeeds or fails, leaves every contract of the store with its
    index, name, source path, target, code and parsed program, and with at
    least the keys its dependency and alias maps had.  In ad-hoc mode
    [ResolveImports] keeps the parsed program and stores the rewritten text
    in the resolver: after a successful call the code of the resolver is the
    code that was returned. *)
Theorem resolution_frame :
  (∀ s p h, extends h (project_contracts.PrepareForDeployment s p h).1) ∧
  (∀ r codePath contracts aliases aliasOrder,
     let res := flowcli_contracts.ResolveImports r codePath contracts aliases aliasOrder in
     flowcli_contracts.program res.1 = flowcli_contracts.program r ∧
     (res.2.2 = None → flowcli_contracts.code res.1 = res.2.1)).
Proof.
  split.
  - intros s p h. unfold project_contracts.PrepareForDeployment.
    pose proof (resolveContracts_extends p
                  (project_contracts.rangeResolve s (keys (project_contracts.p_contracts p))) h)
      as Hext.
    by destruct (project_contracts.resolveContracts p _ h) as [h' [e|]].
  - intros r codePath contracts aliases aliasOrder.
    unfold flowcli_contracts.ResolveImports. apply resolveLoop_stores.
Qed.

End Substitution.

(* ===================================================================== *)
(** * Part XV.  The theorems on the example projects                    *)
(* ===================================================================== *)

Section Examples.
Import project_contracts.

Lemma inOrder_admissible : admissible Example.inOrder.
Proof. repeat split; intros; reflexivity. Qed.


Lemma chain_wf : wf Example.chain.1 Example.chain.2.
Proof.
  apply (registerAll_wf Example.readFile Example.parseProgram ∅ Example.chainCalls).
  - vm_compute. reflexivity.
  - apply (bool_decide_unpack _). vm_compute. exact I.
Qed.

Lemma cycle_wf : wf Example.cycle.1 Example.cycle.2.
Proof.
  apply (registerAll_wf Example.readFile Example.parseProgram ∅ Example.cycleCalls).
  - vm_compute. reflexivity.
  - apply (bool_decide_unpack _). vm_compute. exact I.
Qed.


Lemma missing_wf : wf Example.missing.1 Example.missing.2.
Proof.
  apply (registerAll_wf Example.readFile Example.parseProgram ∅ Example.missingCalls).
  - vm_compute. reflexivity.
  - apply (bool_decide_unpack _). vm_compute. exact I.
Qed.

Lemma cycle_depends_0_1 : depends Example.cycle.1 Example.cycle.2 0%nat 1%nat.
Proof.
  exists "/cyc/X.cdc", "./Y.cdc". split; [by vm_compute|]. split; [|by vm_compute].
  replace (imports (deref Example.cycle.2 0%nat)) with ["./Y.cdc"] by by vm_compute.
  apply list_elem_of_here.
Qed.

Lemma cycle_depends_1_0 : depends Example.cycle.1 Example.cycle.2 1%nat 0%nat.
Proof.
  exists "/cyc/Y.cdc", "./X.cdc". split; [by vm_compute|]. split; [|by vm_compute].
  replace (imports (deref Example.cycle.2 1%nat)) with ["./X.cdc"] by by vm_compute.
  apply list_elem_of_here.
Qed.

(** The chain [A], [B], [C] with targets 1, 2, 3: the contracts come out in
    the order of registration, and the text of [B] has the address of [A]
    where the location of [A] stood. *)
Lemma chain_deployment :
  (PrepareForDeployment Example.inOrder Example.chain.1 Example.chain.2).2
  = Returns ([0%nat; 1%nat; 2%nat], None) ∧
  TranspiledCode
    (PrepareForDeployment Example.inOrder Example.chain.1 Example.chain.2).1
    (deref (PrepareForDeployment Example.inOrder Example.chain.1 Example.chain.2).1 1%nat)
    id id
  = "import A from 0x0000000000000001 pub contract B {}".
Proof. split; by vm_compute. Qed.

(** C1 on the chain [A], [B], [C]. *)
Lemma PrepareForDeployment_sorted_witness :
  ∃ h' sorted,
    PrepareForDeployment Example.inOrder Example.chain.1 Example.chain.2
    = (h', Returns (sorted, None)) ∧
    sorted ≡ₚ (map_to_list (p_contracts Example.chain.1)).*2 ∧
    ∀ m d, tc (depends Example.chain.1 Example.chain.2) m d → before sorted d m.
Proof.
  apply (PrepareForDeployment_sorted Example.inOrder Example.chain.1 Example.chain.2).
  - apply inOrder_admissible.
  - apply chain_wf.
  - apply resolvableb_spec. vm_compute. reflexivity.
  - apply (rankedb_acyclic Example.chainRank). vm_compute. reflexivity.
Defined.

(** On the two contracts that import each other the sort reports the
    cycle. *)
Lemma cycle_unorderable :
  ∃ h' cycles,
    PrepareForDeployment Example.inOrder Example.cycle.1 Example.cycle.2
    = (h', Returns ([], Some (Unorderable cycles))).
Proof.
  apply (PrepareForDeployment_cycle Example.inOrder Example.cycle.1 Example.cycle.2).
  - apply inOrder_admissible.
  - apply cycle_wf.
  - apply resolvableb_spec. vm_compute. reflexivity.
  - apply noSelfImportb_spec. vm_compute. reflexivity.
  - exists 0%nat, 1%nat. split; [done|].
    split; apply tc_once; [apply cycle_depends_0_1|apply cycle_depends_1_0].
Qed.

(** A contract that imports its own file is beyond the reach of the sort:
    gonum refuses the self edge while the graph is built. *)
Lemma self_import_panics :
  (PrepareForDeployment Example.inOrder Example.selfImport.1 Example.selfImport.2).2
  = Panics "simple: adding self edge".
Proof. by vm_compute. Qed.

Lemma mixed_wf : wf Example.mixed.1 Example.mixed.2.
Proof.
  apply (registerAll_wf (Example.readFrom Example.mixedFiles)
           (Example.parseFrom Example.mixedFiles) ∅ Example.mixedCalls).
  - vm_compute. reflexivity.
  - apply (bool_decide_unpack _). vm_compute. exact I.
Qed.

Lemma mixed_depends_0_1 : depends Example.mixed.1 Example.mixed.2 0%nat 1%nat.
Proof.
  exists "/mix/P.cdc", "./Q.cdc". split; [by vm_compute|]. split; [|by vm_compute].
  replace (imports (deref Example.mixed.2 0%nat)) with ["./Q.cdc"; "./P.cdc"]
    by by vm_compute.
  apply list_elem_of_here.
Qed.

Lemma mixed_depends_1_0 : depends Example.mixed.1 Example.mixed.2 1%nat 0%nat.
Proof.
  exists "/mix/Q.cdc", "./P.cdc". split; [by vm_compute|]. split; [|by vm_compute].
  replace (imports (deref Example.mixed.2 1%nat)) with ["./P.cdc"] by by vm_compute.
  apply list_elem_of_here.
Qed.

Lemma mixed_depends_0_0 : depends Example.mixed.1 Example.mixed.2 0%nat 0%nat.
Proof.
  exists "/mix/P.cdc", "./P.cdc". split; [by vm_compute|]. split; [|by vm_compute].
  replace (imports (deref Example.mixed.2 0%nat)) with ["./Q.cdc"; "./P.cdc"]
    by by vm_compute.
  apply list_elem_of_further, list_elem_of_here.
Qed.

(** C2.  The claim fails on the working set [Example.mixed]: the contracts
    [P] and [Q] import each other, so the dependency relation has a cycle
    among two contracts, and every import resolves; but [P] imports its own
    file as well, and [PrepareForDeployment] returns neither an error nor a
    list: whatever the order in which the maps are visited, it panics with
    gonum's [simple: adding self edge] while the graph is built, before the
    sort that reports cycles is reached. *)
Theorem PrepareForDeployment_cycle_panics :
  wf Example.mixed.1 Example.mixed.2 ∧
  resolvable Example.mixed.1 Example.mixed.2 ∧
  (∃ m d, m ≠ d ∧ tc (depends Example.mixed.1 Example.mixed.2) m d
                ∧ tc (depends Example.mixed.1 Example.mixed.2) d m) ∧
  (PrepareForDeployment Example.inOrder Example.mixed.1 Example.mixed.2).2
  = Panics "simple: adding self edge" ∧
  ∀ s, admissible s →
    ∃ h', PrepareForDeployment s Example.mixed.1 Example.mixed.2
          = (h', Panics "simple: adding self edge").
Proof.
  assert (resolvable Example.mixed.1 Example.mixed.2) as Hres
    by (apply resolvableb_spec; vm_compute; reflexivity).
  split; [apply mixed_wf|]. split; [done|]. split; [|split].
  - exists 0%nat, 1%nat. split; [done|].
    split; apply tc_once; [apply mixed_depends_0_1|apply mixed_depends_1_0].
  - by vm_compute.
  - intros s Hs.
    apply (self_import_refused s Example.mixed.1 Example.mixed.2 Hs mixed_wf Hres).
    exists 0%nat. apply mixed_depends_0_0.
Qed.



(** C10 on the registration of [A], [B], [C]. *)
Lemma AddContractSource_ids_witness :
  (∀ i n src tgt, Example.chainCalls !! i = Some (n, src, tgt) →
     ∃ c, p_contracts Example.chain.1 !! src = Some c ∧
          ID Example.chain.2 c = Z.of_nat i) ∧
  (∀ k1 k2 c1 c2,
     p_contracts Example.chain.1 !! k1 = Some c1 →
     p_contracts Example.chain.1 !! k2 = Some c2 →
     k1 ≠ k2 → ID Example.chain.2 c1 ≠ ID Example.chain.2 c2).
Proof.
  apply (AddContractSource_ids Example.readFile Example.parseProgram ∅
           Example.chainCalls Example.chain.1 Example.chain.2).
  - vm_compute. reflexivity.
  - apply (bool_decide_unpack _). vm_compute. exact I.
Defined.

End Examples.

Section StringExamples.

(** C5 fails in ad-hoc mode: for the script that imports ["./X.cdc"],
    [getFileImports] returns the text of the zero address location instead of
    the location. *)
Lemma getFileImports_drops_location :
  flowcli_contracts.getFileImports Example.script = ["0000000000000000"] ∧
  stringLocations (ast.ImportDeclarations (flowcli_contracts.program Example.script))
  = ["./X.cdc"].
Proof. split; reflexivity. Qed.

(** C6 as stated fails: an absolute location is looked up below the
    directory of the importing contract. *)
Lemma absolutePath_absolute_location :
  project_contracts.absolutePath "/proj/contracts/C.cdc" "/lib/X.cdc"
  = "/proj/contracts/lib/X.cdc" ∧
  path.Clean "/lib/X.cdc" = "/lib/X.cdc".
Proof. split; reflexivity. Qed.

(** C6 on a contract in the root directory. *)
Lemma absolutePath_joins_witness :
  project_contracts.absolutePath "/C.cdc" "/lib/X.cdc"
  = path.Clean (path.Dir "/C.cdc" +:+ "/" +:+ "/lib/X.cdc") ∧
  project_contracts.absolutePath "/C.cdc" "/lib/X.cdc" = path.Clean "/lib/X.cdc".
Proof.
  split.
  - apply (proj1 (absolutePath_joins "/C.cdc" "/lib/X.cdc")).
  - apply (proj2 (absolutePath_joins "/C.cdc" "/lib/X.cdc") "lib/X.cdc"); reflexivity.
Defined.

(** C7 as stated fails: a [.cdc] inside the name is removed as well. *)
Lemma getAliasForImport_inner_extension :
  filepath.Base "./My.cdc.Token.cdc" = "My.cdc.Token.cdc" ∧
  project_contracts.getAliasForImport "./My.cdc.Token.cdc" = "My.Token".
Proof. split; reflexivity. Qed.

(** C7 on a location without extension, on a location with its extension
    only, and on a location with [.cdc] inside its name. *)
Lemma getAliasForImport_removes_all_witness :
  project_contracts.getAliasForImport "./lib/Token" = "Token" ∧
  project_contracts.getAliasForImport "./lib/Token.cdc" = "Token" ∧
  project_contracts.getAliasForImport "./My.cdc.Token.cdc" = "My.Token".
Proof.
  split; [|split].
  - exact (proj1 (getAliasForImport_removes_all "./lib/Token") eq_refl).
  - exact (proj2 (proj2 (proj2 (proj2 (getAliasForImport_removes_all "./lib/Token.cdc"))
                           "Token" EmptyString eq_refl eq_refl)) eq_refl).
  - exact (proj1 (proj2 (proj2 (getAliasForImport_removes_all "./My.cdc.Token.cdc"))
                    "My" ".Token.cdc" eq_refl eq_refl)).
Defined.

(** C4 as stated fails in ad-hoc mode: both occurrences of a location that
    is imported twice are rewritten. *)
Lemma ResolveImports_rewrites_both :
  flowcli_contracts.code Example.twice
  = "import A from " +:+ quoted "0000000000000000" +:+ " import B from "
    +:+ quoted "0000000000000000" ∧
  (flowcli_contracts.ResolveImports Example.twice "/p/S.cdc" Example.library ∅ id).2
  = ("import A from 0x0000000000000005 import B from 0x0000000000000005", None).
Proof. split; by vm_compute. Qed.

(** C4 on the contract and on the script that import a location twice. *)
Lemma substitution_first_occurrence_witness :
  project_contracts.TranspiledCode Example.dupStore Example.dupContract id id
  = "import D from " +:+ ("0x" +:+ flow.Address_String 5%Z)
    +:+ (" import E from " +:+ quoted "./Dup.cdc" +:+ " pub contract T {}") ∧
  project_contracts.TranspiledCode [] Example.dupAliased id id
  = "import D from " +:+ ("0x" +:+ flow.Address_String 9%Z)
    +:+ (" import E from " +:+ quoted "./Dup.cdc" +:+ " pub contract T {}") ∧
  (flowcli_contracts.ResolveImports Example.twice "/p/S.cdc" Example.library ∅ id).2
  = ("import A from " +:+ ("0x" +:+ "0000000000000005") +:+ " import B from "
     +:+ ("0x" +:+ "0000000000000005") +:+ EmptyString, None) ∧
  (flowcli_contracts.ResolveImports Example.twice "/p/S.cdc" Example.library ∅ id).2
  = (rewriteEach [ (Example.zeros, "0000000000000005"); (Example.zeros, "0000000000000005") ]
       (flowcli_contracts.code Example.twice), None).
Proof.
  split; [|split; [|split]].
  - apply (proj1 (proj2 (proj2 substitution_first_occurrence))
             Example.dupStore Example.dupContract
             id id "./Dup.cdc" 1%nat "import D from "
             (" import E from " +:+ quoted "./Dup.cdc" +:+ " pub contract T {}"));
      try reflexivity; by vm_compute.
  - apply (proj1 (proj2 (proj2 (proj2 substitution_first_occurrence)))
             [] Example.dupAliased
             id id "./Dup.cdc" 9%Z "import D from "
             (" import E from " +:+ quoted "./Dup.cdc" +:+ " pub contract T {}"));
      try reflexivity; by vm_compute.
  - apply (proj2 (proj2 (proj2 (proj2 (proj2 substitution_first_occurrence))))
             Example.twice "/p/S.cdc" Example.library
             ∅ id Example.zeros "0000000000000005" "import A from " " import B from "
             EmptyString); try reflexivity; by vm_compute.
  - etrans.
    + apply (proj1 (proj2 (proj2 (proj2 (proj2 substitution_first_occurrence))))
               Example.twice "/p/S.cdc" Example.library ∅ id).
      intros imp Himp.
      replace (flowcli_contracts.getFileImports Example.twice)
        with [Example.zeros; Example.zeros] in Himp by by vm_compute.
      assert (imp = Example.zeros) as -> by set_solver.
      by vm_compute.
    + by vm_compute.
Defined.

(** C3 as stated fails in ad-hoc mode: the error of the script that imports
    ["./X.cdc"] from [/proj/tx/Mod.cdc] names neither the importing file nor
    that location. *)
Lemma ResolveImports_error_names_import_only :
  (flowcli_contracts.ResolveImports Example.script "/proj/tx/Mod.cdc" [] ∅ id).2
  = (EmptyString,
     Some (errorString
             "import 0000000000000000 could not be resolved from the configuration")) ∧
  strings.Contains
    "import 0000000000000000 could not be resolved from the configuration" "Mod"
  = false ∧
  strings.Contains
    "import 0000000000000000 could not be resolved from the configuration" "X.cdc"
  = false.
Proof. repeat split; by vm_compute. Qed.

(** C3 on the contract [M], whose import nothing provides, and on the
    script. *)
Lemma unresolved_import_fails_witness :
  (∃ h' k c loc,
     project_contracts.PrepareForDeployment Example.inOrder Example.missing.1
       Example.missing.2
     = (h', Returns ([], Some (project_contracts.unresolvedImport
                                 (project_contracts.name
                                    (project_contracts.deref Example.missing.2 c))
                                 (project_contracts.absolutePath k loc)))) ∧
     project_contracts.p_contracts Example.missing.1 !! k = Some c ∧
     loc ∈ project_contracts.imports (project_contracts.deref Example.missing.2 c) ∧
     ¬ resolves Example.missing.1 k loc) ∧
  (∃ r' imp,
     flowcli_contracts.ResolveImports Example.script "/proj/tx/Mod.cdc" [] ∅ id
     = (r', (EmptyString, Some (flowcli_contracts.unresolved imp))) ∧
     imp ∈ flowcli_contracts.getFileImports Example.script ∧
     default EmptyString
       (flowcli_contracts.getSourceTarget [] ∅ id
          !! flowcli_contracts.absolutePath "/proj/tx/Mod.cdc" imp) = EmptyString).
Proof.
  split.
  - apply (proj1 unresolved_import_fails Example.inOrder Example.missing.1 Example.missing.2).
    + apply inOrder_admissible.
    + apply missing_wf.
    + exists "/proj/M.cdc", 0%nat, "./Gone.cdc". split; [by vm_compute|]. split.
      * replace (project_contracts.imports (project_contracts.deref Example.missing.2 0%nat))
          with ["./Gone.cdc"] by by vm_compute.
        apply list_elem_of_here.
      * intros [[x Hx]|[x Hx]]; by vm_compute in Hx.
  - apply (proj2 unresolved_import_fails Example.script "/proj/tx/Mod.cdc" [] ∅ id).
    exists "0000000000000000". split; [|by vm_compute].
    replace (flowcli_contracts.getFileImports Example.script)
      with ["0000000000000000"] by by vm_compute.
    apply list_elem_of_here.
Defined.

(** C8 as stated fails in ad-hoc mode: after the call the resolver holds the
    rewritten text, not the text it was created with. *)
Lemma ResolveImports_overwrites_code :
  flowcli_contracts.code Example.once = "import A from " +:+ quoted "0000000000000000" ∧
  flowcli_contracts.code
    (flowcli_contracts.ResolveImports Example.once "/p/S.cdc" Example.library ∅ id).1
  = "import A from 0x0000000000000005".
Proof. split; by vm_compute. Qed.

End StringExamples.
(* ===================================================================== *)
(** * Part XVI.  Registration, beyond distinct source paths               *)
(* ===================================================================== *)

Section RegistrationCases.
Import project_contracts.
Variable ReadFile : string → option string.
Variable ParseProgram : string → option ast.Program.

(** X1.  [AddContractSource] fails exactly when the file cannot be read or
    its text cannot be parsed.  It then returns the error of the reader or
    of the parser and leaves the preprocessor and the store as they were, so
    a failed registration uses up no ID. *)
Theorem AddContractSource_failure p h n src tgt :
  let res := AddContractSource ReadFile ParseProgram p h n src tgt in
  (∀ e, res.2 = Some e →
        res.1 = (p, h) ∧
        ((ReadFile src = None ∧ e = ReadFileError src) ∨
         (∃ code, ReadFile src = Some code ∧ ParseProgram code = None ∧
                  e = ParseError code))) ∧
  (res.2 = None ↔
   ∃ code prog, ReadFile src = Some code ∧ ParseProgram code = Some prog).
Proof.
  unfold AddContractSource, newContract.
  destruct (ReadFile src) as [code|] eqn:Hread.
  - destruct (ParseProgram code) as [prog|] eqn:Hparse; cbn [fst snd].
    + split; [done|]. split; [|done]. intros _. by exists code, prog.
    + split.
      * intros e [= <-]. split; [done|]. right. by exists code.
      * split; [done|]. intros (code' & prog & [= <-] & Hp). congruence.
  - cbn [fst snd]. split.
    + intros e [= <-]. split; [done|]. by left.
    + split; [done|]. by intros (code & prog & ? & _).
Qed.

(** X2.  A successful call of [AddContractSource] stores a new contract
    under the source path: it has the given name and target, the text of the
    file, no dependencies, and the number of contracts registered before the
    call as its ID.  All other source paths keep their contracts, the
    contracts allocated before stay as they are, and the number of registered
    contracts grows by one unless the source path was registered before, in
    which case the earlier contract is replaced and the number stays. *)
Theorem AddContractSource_registers p h n src tgt code prog :
  ReadFile src = Some code → ParseProgram code = Some prog →
  ∃ p' h',
    AddContractSource ReadFile ParseProgram p h n src tgt = (p', h', None) ∧
    p_contracts p' !! src = Some (length h) ∧
    Name h' (length h) = n ∧ Target h' (length h) = tgt ∧
    Code h' (length h) = code ∧ Dependencies h' (length h) = ∅ ∧
    ID h' (length h) = Z.of_nat (size (p_contracts p)) ∧
    (∀ k, k ≠ src → p_contracts p' !! k = p_contracts p !! k) ∧
    (∀ c, (c < length h)%nat → deref h' c = deref h c) ∧
    p_aliases p' = p_aliases p ∧
    size (p_contracts p')
    = (if decide (is_Some (p_contracts p !! src)) then size (p_contracts p)
       else S (size (p_contracts p))).
Proof.
  intros Hread Hparse. unfold AddContractSource, newContract.
  rewrite Hread, Hparse. eexists _, _. split; [reflexivity|].
  cbn [p_contracts p_aliases source].
  assert (∀ v : Contract, deref (h ++ [v]) (length h) = v) as Hnew.
  { intros v. unfold deref. by rewrite list_lookup_middle. }
  unfold Name, Target, Code, Dependencies, ID. rewrite Hnew. cbn.
  split; [by rewrite lookup_insert_eq|].
  repeat (split; [done|]).
  split; [by intros k Hk; rewrite lookup_insert_ne|].
  split; [by intros c Hc; unfold deref; rewrite lookup_app_l|].
  split; [done|].
  destruct (decide (is_Some (p_contracts p !! src))) as [[c Hc]|Hno].
  - rewrite <- (insert_delete_id (p_contracts p) src c Hc) at 2.
    rewrite <- (insert_delete_eq (p_contracts p)).
    by rewrite !map_size_insert_None by apply lookup_delete_eq.
  - apply map_size_insert_None. by apply eq_None_not_Some.
Qed.

(** X3.  When a source path that is registered already is registered again
    and a new source path is registered next, the contract stored by the
    first of the two calls and the contract stored by the second have the
    same ID: the count that gives the IDs did not grow in between. *)
Theorem AddContractSource_again_collides p h n1 src1 t1 n2 src2 t2 p1 h1 p2 h2 :
  is_Some (p_contracts p !! src1) → p_contracts p !! src2 = None →
  AddContractSource ReadFile ParseProgram p h n1 src1 t1 = (p1, h1, None) →
  AddContractSource ReadFile ParseProgram p1 h1 n2 src2 t2 = (p2, h2, None) →
  ∃ c1 c2, p_contracts p2 !! src1 = Some c1 ∧ p_contracts p2 !! src2 = Some c2 ∧
           c1 ≠ c2 ∧ ID h2 c1 = ID h2 c2.
Proof.
  intros [c0 Hc0] Hnone Hadd1 Hadd2.
  assert (src1 ≠ src2) as Hne by congruence.
  destruct (AddContractSource_ok _ _ _ _ _ _ _ _ _ Hadd1)
    as (v1 & -> & -> & Hi1 & _).
  destruct (AddContractSource_ok _ _ _ _ _ _ _ _ _ Hadd2)
    as (v2 & -> & -> & Hi2 & _).
  cbn [p_contracts] in *.
  exists (length h), (length (h ++ [v1])). rewrite length_app. cbn [length].
  split; [by rewrite lookup_insert_ne, lookup_insert_eq|].
  split; [by rewrite lookup_insert_eq|].
  split; [lia|].
  unfold ID, deref.
  rewrite lookup_app_l by (rewrite length_app; cbn; lia).
  rewrite list_lookup_middle by done.
  replace (length h + 1)%nat with (length (h ++ [v1]))
    by (rewrite length_app; cbn; lia).
  rewrite list_lookup_middle by done. cbn.
  rewrite Hi1, Hi2. f_equal.
  rewrite <- (insert_delete_id (p_contracts p) src1 c0 Hc0) at 1.
  rewrite <- (insert_delete_eq (p_contracts p)).
  by rewrite !map_size_insert_None by apply lookup_delete_eq.
Qed.

End RegistrationCases.

(* ===================================================================== *)
(** * Part XVII.  Working sets that the graph library refuses             *)
(* ===================================================================== *)

Section Refused.
Import project_contracts.





Lemma admissible_nil {A : Type} (f : list A → list A) : (∀ l, f l ≡ₚ l) → f [] = [].
Proof. intros Hf. apply Permutation_nil_r. apply Hf. Qed.


(** X5.  A contract that imports its own source file makes
    [PrepareForDeployment] panic, whatever else the working set holds: every
    import resolves, the nodes are added, and gonum's [SetEdge] refuses the
    edge from the contract to itself before the sort can report a cycle. *)
Theorem PrepareForDeployment_self_import s p h :
  admissible s → wf p h → resolvable p h → (∃ m, depends p h m m) →
  ∃ h', PrepareForDeployment s p h = (h', Panics "simple: adding self edge").
Proof.
  intros (Hresolve & Hnodes & Hedges & Hdeps & _) Hwf Hres (m & Hm).
  unfold PrepareForDeployment.
  destruct (resolveContracts_spec p (rangeResolve s (keys (p_contracts p))) h Hwf)
    as (h' & err & -> & Hext & Hwf' & Hnone & Hsome).
  exists h'. destruct err as [e|].
  { destruct (Hsome e eq_refl) as (k & c & loc & _ & Hc & Hloc & Hno & _).
    destruct Hno. by eapply Hres. }
  destruct (Hnone eq_refl) as [Hcomplete _]. f_equal.
  unfold sortByDeploymentOrder.
  destruct (addNodes_spec p h' Hwf' (rangeNodes s (keys (p_contracts p)))
              simple.NewDirectedGraph) as (g1 & -> & _).
  { rewrite Hnodes. apply NoDup_fst_map_to_list. }
  { intros id c. cbn. by rewrite lookup_empty. }
  cbn [outcome_bind]. rewrite addEdges_self; [done|done|].
  apply (depends_extends p h h' m m Hwf Hext) in Hm.
  destruct Hm as (k & loc & Hk & Hloc & Hd).
  exists k, m, loc, m. split; [|split; [done|split; [|done]]].
  - rewrite Hedges. apply keys_elem_of_string. by eexists.
  - apply (Hcomplete k m); [|done|done|done].
    rewrite Hresolve. apply keys_elem_of_string. by eexists.
Qed.

(** X6.  On a preprocessor without contracts [PrepareForDeployment] returns
    the empty order and no error, and leaves the store as it is, whatever
    the aliases are. *)
Theorem PrepareForDeployment_empty s aliases h :
  admissible s →
  PrepareForDeployment s (NewPreprocessor aliases) h = (h, Returns ([], None)).
Proof.
  intros (Hresolve & Hnodes & Hedges & _ & Hgraph & _).
  unfold PrepareForDeployment, NewPreprocessor. cbn [p_contracts].
  rewrite keys_empty, (admissible_nil _ Hresolve). cbn [resolveContracts].
  unfold sortByDeploymentOrder.
  rewrite keys_empty, (admissible_nil _ Hnodes), (admissible_nil _ Hedges).
  cbn [addNodes addEdges foldOutcome outcome_bind simple.NewDirectedGraph simple.nodes].
  unfold keys. rewrite map_to_list_empty. cbn [fmap list_fmap].
  rewrite (admissible_nil _ Hgraph).
  reflexivity.
Qed.

End Refused.

(* ===================================================================== *)
(** * Part XVIII.  The resolver                                           *)
(* ===================================================================== *)

Section ResolverCases.
Import flowcli_contracts.
#[local] Arguments String.append : simpl nomatch.

Lemma encodeBytes_length width v : String.length (hex.encodeBytes width v) = (2 * width)%nat.
Proof. induction width as [|w IH]; cbn [hex.encodeBytes String.length]; [done|]. rewrite IH. lia. Qed.

Lemma Address_String_length a : String.length (flow.Address_String a) = 16%nat.
Proof. unfold flow.Address_String. by rewrite encodeBytes_length. Qed.

Lemma stringLocations_nil decls :
  stringLocations decls = [] ↔
  ∀ d, d ∈ decls → ∃ l, ast.Location d = common.AddressLocation l.
Proof.
  unfold stringLocations. induction decls as [|d decls IH]; cbn [omap list_omap].
  - split; [|done]. intros _ d Hd. by apply elem_of_nil in Hd.
  - destruct (ast.Location d) as [s|l] eqn:Hd; cbn.
    + split; [done|]. intros Hall. destruct (Hall d ltac:(left)) as [l Hl]. congruence.
    + rewrite IH. split.
      * intros Hall d' [->|Hd']%elem_of_cons; [by exists l|by apply Hall].
      * intros Hall d' Hd'. apply Hall. by right.
Qed.

Lemma getFileImports_replicate r :
  getFileImports r
  = replicate (length (stringLocations (ast.ImportDeclarations (program r))))
      "0000000000000000".
Proof.
  rewrite getFileImports_zero.
  induction (stringLocations _) as [|x l IH]; cbn; [done|by rewrite IH].
Qed.

(** X7.  [getFileImports] returns one entry for every import declaration
    whose location is not an address location, and each entry is the text
    [0000000000000000] of the zero address, whatever the location is.
    [HasFileImports] is true exactly when the program has such a
    declaration. *)
Theorem getFileImports_entries r :
  getFileImports r
  = replicate (length (stringLocations (ast.ImportDeclarations (program r))))
      "0000000000000000" ∧
  (HasFileImports r = true ↔
   ∃ d s, d ∈ ast.ImportDeclarations (program r) ∧
          ast.Location d = common.StringLocation s).
Proof.
  split; [apply getFileImports_replicate|].
  unfold HasFileImports. rewrite getFileImports_zero, length_map, Nat.ltb_lt.
  unfold stringLocations.
  induction (ast.ImportDeclarations (program r)) as [|d decls IH]; cbn [omap list_omap].
  - cbn. split; [lia|]. intros (d & s & Hd & _). by apply elem_of_nil in Hd.
  - destruct (ast.Location d) as [s|l] eqn:Hd; cbn.
    + split; [|lia]. intros _. exists d, s. split; [left|done].
    + rewrite IH. split.
      * intros (d' & s & Hd' & Hs). exists d', s. split; [by right|done].
      * intros (d' & s & [->|Hd']%elem_of_cons & Hs); [congruence|]. by exists d', s.
Qed.

(** X8.  On a program whose imports are all address imports,
    [ResolveImports] returns the code as it is and no error, and leaves the
    resolver unchanged, whatever the configuration holds. *)
Theorem ResolveImports_address_imports_only r codePath contracts aliases aliasOrder :
  (∀ d, d ∈ ast.ImportDeclarations (program r) →
        ∃ l, ast.Location d = common.AddressLocation l) →
  ResolveImports r codePath contracts aliases aliasOrder = (r, (code r, None)) ∧
  HasFileImports r = false.
Proof.
  intros Hall%stringLocations_nil.
  unfold ResolveImports, HasFileImports. rewrite getFileImports_zero, Hall. done.
Qed.

(** ** The table of sources and targets *)

Lemma contracts_fold_lookup contracts k :
  ∀ m : gmap string string,
    fold_left
      (fun m contract =>
         <[path.Clean (project.Source contract)
             := flow.Address_String (project.Target contract)]> m)
      contracts m !! k
    = match last (withSource k contracts) with
      | Some c => Some (flow.Address_String (project.Target c))
      | None => m !! k
      end.
Proof.
  unfold withSource.
  induction contracts as [|c cs IH]; intros m; cbn [fold_left]; [done|].
  rewrite IH. rewrite filter_cons.
  destruct (decide (path.Clean (project.Source c) = k)) as [<-|Hne].
  - rewrite last_cons. destruct (last (filter _ cs)); [done|].
    by rewrite lookup_insert_eq.
  - destruct (last (filter _ cs)); [done|]. by rewrite lookup_insert_ne.
Qed.

Lemma aliases_fold_lookup (aliases : gmap string string) order k :
  ∀ m : gmap string string,
    fold_left
      (fun m source =>
         match aliases !! source with
         | Some tgt =>
             <[path.Clean source := flow.Address_String (flow.HexToAddress tgt)]> m
         | None => m
         end)
      order m !! k
    = match last (filter (fun src => is_Some (aliases !! src) ∧ path.Clean src = k) order) with
      | Some src =>
          (fun tgt => flow.Address_String (flow.HexToAddress tgt)) <$> aliases !! src
      | None => m !! k
      end.
Proof.
  induction order as [|src order IH]; intros m; cbn [fold_left]; [done|].
  rewrite IH. rewrite filter_cons.
  destruct (decide (is_Some (aliases !! src) ∧ path.Clean src = k)) as [[[tgt Ht] <-]|Hno].
  - rewrite last_cons. destruct (last (filter _ order)); [done|].
    rewrite Ht. cbn. by rewrite lookup_insert_eq.
  - destruct (last (filter _ order)); [done|].
    destruct (aliases !! src) as [tgt|] eqn:Ht; [|done].
    rewrite lookup_insert_ne; [done|]. intros <-. apply Hno. split; [by eexists|done].
Qed.

Lemma getSourceTarget_length contracts aliases aliasOrder k v :
  getSourceTarget contracts aliases aliasOrder !! k = Some v → String.length v = 16%nat.
Proof.
  unfold getSourceTarget. rewrite aliases_fold_lookup.
  destruct (last (filter _ _)) as [src|].
  - destruct (aliases !! src) as [tgt|]; cbn; [|done].
    intros [= <-]. apply Address_String_length.
  - rewrite contracts_fold_lookup. destruct (last _) as [c|]; [|by rewrite lookup_empty].
    intros [= <-]. apply Address_String_length.
Qed.

(** X9.  In the table that [getSourceTarget] builds, an alias overrides the
    configured contracts: when the source path of an alias is the only alias
    path with its cleaned form, the table holds the address of the alias
    under that cleaned path, whatever contracts the configuration lists under
    the same path. *)
Theorem getSourceTarget_alias_wins contracts aliases aliasOrder src tgt :
  (∀ l, aliasOrder l ≡ₚ l) →
  aliases !! src = Some tgt →
  (∀ src', is_Some (aliases !! src') → path.Clean src' = path.Clean src → src' = src) →
  getSourceTarget contracts aliases aliasOrder !! path.Clean src
  = Some (flow.Address_String (flow.HexToAddress tgt)).
Proof.
  intros Hperm Ht Huniq. unfold getSourceTarget. rewrite aliases_fold_lookup.
  destruct (last (filter _ _)) as [src'|] eqn:Hlast.
  - apply last_Some_elem_of in Hlast.
    apply list_elem_of_filter in Hlast as [[Hs Hc] _].
    rewrite (Huniq src' Hs Hc), Ht. done.
  - apply last_None in Hlast.
    assert (src ∈ filter (fun src' => is_Some (aliases !! src') ∧ path.Clean src' = path.Clean src)
                    (aliasOrder (keys aliases))) as Hin.
    { apply list_elem_of_filter. split; [split; [by eexists|done]|].
      rewrite Hperm. apply keys_elem_of_string. by eexists. }
    rewrite Hlast in Hin. by apply elem_of_nil in Hin.
Qed.

(** X10.  Under a path that is the cleaned form of no alias path, the table
    holds the target of the last configured contract whose cleaned source
    path it is, and nothing when there is no such contract. *)
Theorem getSourceTarget_last_contract contracts aliases aliasOrder k :
  (∀ src, is_Some (aliases !! src) → path.Clean src ≠ k) →
  getSourceTarget contracts aliases aliasOrder !! k
  = (fun c => flow.Address_String (project.Target c)) <$> last (withSource k contracts).
Proof.
  intros Hno. unfold getSourceTarget. rewrite aliases_fold_lookup.
  destruct (last (filter _ _)) as [src|] eqn:Hlast.
  - apply last_Some_elem_of in Hlast.
    apply list_elem_of_filter in Hlast as [[Hs Hc] _]. by destruct (Hno src Hs).
  - rewrite contracts_fold_lookup. destruct (last _); [done|]. by rewrite lookup_empty.
Qed.

(** ** The loop of [ResolveImports] *)

Lemma resolveLoop_succeeds codePath (st : gmap string string) imports :
  (∀ k v, st !! k = Some v → v ≠ EmptyString) →
  ∀ r, (resolveLoop codePath st imports r).2.2 = None ↔
       ∀ imp, imp ∈ imports → is_Some (st !! absolutePath codePath imp).
Proof.
  intros Hst. induction imports as [|imp imports IH]; intros r; cbn [resolveLoop].
  - split; [|done]. intros _ imp Himp. by apply elem_of_nil in Himp.
  - destruct (st !! absolutePath codePath imp) as [v|] eqn:Hv; cbn [default from_option id].
    + destruct (String.eqb_spec v EmptyString) as [->|Hne]; [by destruct (Hst _ _ Hv)|].
      cbn [negb]. rewrite IH. split.
      * intros Hall imp' [->|Himp']%elem_of_cons; [by rewrite Hv|by apply Hall].
      * intros Hall imp' Himp'. apply Hall. by right.
    + cbn. split; [done|]. intros Hall.
      destruct (Hall imp ltac:(left)) as [v Hv']. congruence.
Qed.

(** X11.  Every target in the table of [getSourceTarget] is the text of an
    address, sixteen hexadecimal digits, and so never the empty text that
    [ResolveImports] takes for a missing entry: [ResolveImports] returns no
    error exactly when the normalized path of every extracted import is a key
    of the table. *)
Theorem ResolveImports_succeeds_iff r codePath contracts aliases aliasOrder :
  (∀ k v, getSourceTarget contracts aliases aliasOrder !! k = Some v →
          String.length v = 16%nat) ∧
  ((ResolveImports r codePath contracts aliases aliasOrder).2.2 = None ↔
   ∀ imp, imp ∈ getFileImports r →
          is_Some (getSourceTarget contracts aliases aliasOrder
                     !! absolutePath codePath imp)).
Proof.
  split; [intros k v; apply getSourceTarget_length|].
  unfold ResolveImports. apply resolveLoop_succeeds.
  intros k v Hv%getSourceTarget_length ->. done.
Qed.

Lemma Replace1_absent s old new :
  strings.Index s old = None → strings.Replace1 s old new = s.
Proof. intros Hidx. unfold strings.Replace1. rewrite Hidx. by destruct (String.eqb old new). Qed.

Lemma resolveLoop_absent codePath (st : gmap string string) (n : nat) imp r :
  strings.Index (code r) (quoted imp) = None →
  (resolveLoop codePath st (replicate n imp) r).1 = r ∧
  ((resolveLoop codePath st (replicate n imp) r).2 = (code r, None) ∨
   (resolveLoop codePath st (replicate n imp) r).2 = (EmptyString, Some (unresolved imp))).
Proof.
  intros Hidx. induction n as [|n IH]; cbn [replicate resolveLoop]; [by split; [|left]|].
  destruct (negb _); [|by split; [|right]].
  unfold replaceImport. rewrite Replace1_absent by done.
  replace {| code := code r; program := program r |} with r by by destruct r.
  apply IH.
Qed.

(** X12.  [ResolveImports] rewrites nothing but the quoted text of the zero
    address: on a code that does not hold ["0000000000000000"] in quotes, the
    call returns the code as it is, or fails with the error that names
    [0000000000000000], and the resolver stays as it was, whatever imports
    the program has and whatever the configuration holds. *)
Theorem ResolveImports_rewrites_zero_address_only r codePath contracts aliases aliasOrder :
  strings.Index (code r) (quoted "0000000000000000") = None →
  let res := ResolveImports r codePath contracts aliases aliasOrder in
  res.1 = r ∧
  (res.2 = (code r, None) ∨
   res.2 = (EmptyString, Some (unresolved "0000000000000000"))).
Proof.
  intros Hidx. unfold ResolveImports.
  rewrite getFileImports_replicate.
  by apply resolveLoop_absent.
Qed.

(** X27.  [NewResolver] fails with the error of the parser exactly when the
    code does not parse; otherwise the resolver holds the code and the parsed
    program, and while [HasFileImports] is false, [ResolveImports] hands the
    code back as it was given, whatever the configuration holds. *)
Theorem NewResolver_round_trip (ParseProgram : string → option ast.Program) text :
  (ParseProgram text = None → NewResolver ParseProgram text = inr (ParseError text)) ∧
  (∀ prog, ParseProgram text = Some prog →
     ∃ r, NewResolver ParseProgram text = inl r ∧ code r = text ∧ program r = prog ∧
          (HasFileImports r = false →
           ∀ codePath contracts aliases aliasOrder,
             ResolveImports r codePath contracts aliases aliasOrder
             = (r, (text, None)))).
Proof.
  unfold NewResolver. split; [by intros ->|].
  intros prog ->. eexists. split; [done|]. split; [done|]. split; [done|].
  unfold HasFileImports, ResolveImports. intros Hno%Nat.ltb_ge.
  destruct (getFileImports _) as [|imp imps]; [done|]. cbn in Hno. lia.
Qed.

End ResolverCases.

(* ===================================================================== *)
(** * Part XIX.  Locations, alias keys and transpiled text                *)
(* ===================================================================== *)

Section LocationCases.
Import project_contracts.
#[local] Arguments String.append : simpl nomatch.

(** X13.  [imports] returns the locations of the import declarations whose
    location is a string location, in the order of the declarations and with
    repetitions; a location is among them exactly when some declaration
    imports it as a string location, so address imports never are. *)
Theorem imports_string_locations c :
  imports c = stringLocations (ast.ImportDeclarations (program c)) ∧
  (∀ loc, loc ∈ imports c ↔
          ∃ d, d ∈ ast.ImportDeclarations (program c) ∧
               ast.Location d = common.StringLocation loc).
Proof.
  split; [apply imports_stringLocations|].
  intros loc. rewrite imports_stringLocations. unfold stringLocations.
  rewrite list_elem_of_omap. split.
  - intros (d & Hd & Hloc). exists d. split; [done|].
    destruct (ast.Location d) as [s|l]; [|done]. by injection Hloc as ->.
  - intros (d & Hd & Hloc). exists d. split; [done|]. by rewrite Hloc.
Qed.

(** ** The alias key *)

Lemma Contains_slash_cons c s :
  strings.Contains (String c s) "/" = Ascii.eqb "/" c || strings.Contains s "/".
Proof.
  cbn [strings.Contains strings.HasPrefix].
  destruct (Ascii.eqb "/" c); [by destruct s|done].
Qed.

Lemma Contains_slash_app a b :
  strings.Contains (a +:+ "/" +:+ b) "/" = true.
Proof.
  induction a as [|c a IH].
  - change (EmptyString +:+ "/" +:+ b) with (String "/" b).
    by rewrite Contains_slash_cons.
  - change (String c a +:+ "/" +:+ b) with (String c (a +:+ "/" +:+ b)).
    rewrite Contains_slash_cons, IH. by destruct (Ascii.eqb "/" c).
Qed.

Lemma stripTrailingSlashes_name name :
  name ≠ EmptyString → strings.Contains name "/" = false →
  filepath.stripTrailingSlashes name = name.
Proof.
  induction name as [|c name IH]; [done|]. intros _.
  rewrite Contains_slash_cons. intros [Hc Hname]%orb_false_iff.
  cbn [filepath.stripTrailingSlashes].
  destruct name as [|d name].
  - cbn. unfold path.slash. rewrite Ascii.eqb_sym, Hc. done.
  - rewrite IH by done. done.
Qed.

Lemma stripTrailingSlashes_app x name :
  name ≠ EmptyString → strings.Contains name "/" = false →
  filepath.stripTrailingSlashes (x +:+ name) = x +:+ name.
Proof.
  intros Hne Hname. induction x as [|c x IH].
  - by apply stripTrailingSlashes_name.
  - change (String c x +:+ name) with (String c (x +:+ name)).
    cbn [filepath.stripTrailingSlashes]. rewrite IH.
    destruct (x +:+ name) eqn:Heq; [|done].
    destruct x; [|done]. by destruct name.
Qed.

Lemma lastElement_name name :
  strings.Contains name "/" = false → filepath.lastElement name = name.
Proof.
  destruct name as [|c name]; [done|].
  rewrite Contains_slash_cons. intros [Hc Hname]%orb_false_iff.
  cbn [filepath.lastElement]. rewrite Hname.
  unfold path.slash. by rewrite Ascii.eqb_sym, Hc.
Qed.

Lemma lastElement_app dir name :
  strings.Contains name "/" = false →
  filepath.lastElement (dir +:+ "/" +:+ name) = name.
Proof.
  intros Hname. induction dir as [|c dir IH].
  - change (EmptyString +:+ "/" +:+ name) with (String "/" name).
    cbn [filepath.lastElement]. by rewrite Hname.
  - change (String c dir +:+ "/" +:+ name) with (String c (dir +:+ "/" +:+ name)).
    cbn [filepath.lastElement]. by rewrite Contains_slash_app.
Qed.

Lemma lastElement_no_slash p : strings.Contains (filepath.lastElement p) "/" = false.
Proof.
  induction p as [|c p IH]; [done|]. cbn [filepath.lastElement].
  destruct (strings.Contains p "/") eqn:Hp; [done|].
  destruct (Ascii.eqb c path.slash) eqn:Hc; [done|].
  rewrite Contains_slash_cons, Hp. unfold path.slash in Hc.
  by rewrite Ascii.eqb_sym, Hc.
Qed.

Lemma lastElement_stripped p :
  filepath.lastElement (filepath.stripTrailingSlashes p) = EmptyString →
  filepath.stripTrailingSlashes p = EmptyString.
Proof.
  induction p as [|c p IH]; [done|]. cbn [filepath.stripTrailingSlashes].
  destruct (filepath.stripTrailingSlashes p) as [|d s] eqn:Hs.
  - destruct (Ascii.eqb c path.slash) eqn:Hc; [done|].
    cbn [filepath.lastElement strings.Contains strings.HasPrefix]. by rewrite Hc.
  - cbn [filepath.lastElement].
    destruct (strings.Contains (String d s) "/"); [intros Hl; by specialize (IH Hl)|].
    by destruct (Ascii.eqb c path.slash).
Qed.

Lemma replaceAll_no_slash s :
  strings.Contains s "/" = false →
  ∀ skip, strings.Contains (strings.replaceAll ".cdc" EmptyString skip s) "/" = false.
Proof.
  induction s as [|c s IH]; [done|].
  rewrite Contains_slash_cons. intros [Hc Hs]%orb_false_iff skip.
  cbn [strings.replaceAll]. destruct skip as [|k]; [|by apply IH].
  destruct (strings.HasPrefix (String c s) ".cdc").
  - change (EmptyString +:+ ?x) with x. by apply IH.
  - rewrite Contains_slash_cons, Hc. by apply IH.
Qed.

(** X14.  The alias key of a location depends on its last path element only:
    a location that ends in a slash and a non-empty name without slashes has
    the alias key of the name alone, which is the name with every [.cdc]
    removed.  Imports of files with the same name from different directories
    are therefore looked up under one alias key. *)
Theorem getAliasForImport_ignores_directory dir name :
  name ≠ EmptyString → strings.Contains name "/" = false →
  getAliasForImport (dir +:+ "/" +:+ name) = getAliasForImport name ∧
  getAliasForImport name = strings.ReplaceAll name ".cdc" EmptyString.
Proof.
  intros Hne Hname. unfold getAliasForImport.
  assert (filepath.Base name = name) as Hb1.
  { unfold filepath.Base.
    rewrite stripTrailingSlashes_name, lastElement_name by done. by destruct name. }
  assert (filepath.Base (dir +:+ "/" +:+ name) = name) as Hb2.
  { unfold filepath.Base.
    destruct (dir +:+ "/" +:+ name) eqn:Heq; [by destruct dir|]. rewrite <- Heq.
    replace (dir +:+ "/" +:+ name) with ((dir +:+ "/") +:+ name) at 1
      by apply append_assoc.
    rewrite stripTrailingSlashes_app by done.
    rewrite append_assoc, lastElement_app by done. by destruct name. }
  by rewrite Hb1, Hb2.
Qed.

(** X15.  An alias key holds no slash, with one exception: a non-empty
    location made of slashes only has the key [/].  The empty location has
    the key [.]. *)
Theorem getAliasForImport_no_slash location :
  (strings.Contains (getAliasForImport location) "/" = false ∨
   (getAliasForImport location = "/" ∧ location ≠ EmptyString ∧
    filepath.stripTrailingSlashes location = EmptyString)) ∧
  getAliasForImport EmptyString = ".".
Proof.
  split; [|done]. unfold getAliasForImport, filepath.Base.
  destruct location as [|c rest] eqn:Heq; [by left|]. rewrite <- Heq.
  destruct (filepath.lastElement (filepath.stripTrailingSlashes location)) as [|d s] eqn:Hlast.
  - right. split; [done|]. split; [by rewrite Heq|]. by apply lastElement_stripped.
  - left. unfold strings.ReplaceAll. cbn [String.eqb].
    apply replaceAll_no_slash. rewrite <- Hlast. apply lastElement_no_slash.
Qed.

(** ** Transpiled text *)

(** X16.  [TranspiledCode] returns the code of the contract as it is when
    the quoted form of none of its recorded locations occurs in it, and so
    in particular for a contract without recorded dependencies and
    aliases. *)
Theorem TranspiledCode_no_occurrence h c depOrder aliasOrder :
  (∀ loc, is_Some (dependencies c !! loc) ∨ is_Some (aliases c !! loc) →
          strings.Index (code c) (quoted loc) = None) →
  TranspiledCode h c depOrder aliasOrder = code c.
Proof.
  intros Hno. unfold TranspiledCode.
  assert (∀ l,
            fold_left
              (fun code0 location =>
                 match dependencies c !! location with
                 | Some dep =>
                     strings.Replace1 code0 (quoted location)
                       ("0x" +:+ flow.Address_String (Target h dep))
                 | None => code0
                 end) l (code c) = code c) as Hdeps.
  { induction l as [|loc l IH]; cbn [fold_left]; [done|].
    destruct (dependencies c !! loc) as [d|] eqn:Hd; [|done].
    rewrite Replace1_absent; [done|]. apply Hno. left. by eexists. }
  rewrite Hdeps.
  induction (aliasOrder (keys (aliases c))) as [|loc l IH]; cbn [fold_left]; [done|].
  destruct (aliases c !! loc) as [a|] eqn:Ha; [|done].
  rewrite Replace1_absent; [done|]. apply Hno. right. by eexists.
Qed.

End LocationCases.

(* ===================================================================== *)
(** * Part XX.  What resolution records                                   *)
(* ===================================================================== *)

Section Recorded.
Import project_contracts.
#[local] Arguments String.append : simpl nomatch.

Lemma lookup_deref (h : heap) c v : (c < length h)%nat → deref h c = v → h !! c = Some v.
Proof.
  intros Hlt <-. unfold deref. destruct (h !! c) as [w|] eqn:Hc; [done|].
  apply lookup_ge_None in Hc. lia.
Qed.

(** The first loop of [PrepareForDeployment] on a working set in which every
    import of the contracts of [order] resolves: each of these contracts has
    its imports resolved in the order of its declarations, and every other
    contract of the store stays as it is. *)
Lemma resolveContracts_resolved p order :
  ∀ h, wf p h → NoDup order →
    (∀ k c loc, k ∈ order → p_contracts p !! k = Some c →
                loc ∈ imports (deref h c) → resolves p k loc) →
    ∃ h', resolveContracts p order h = (h', None) ∧
          length h' = length h ∧ wf p h' ∧
          (∀ k c, k ∈ order → p_contracts p !! k = Some c →
                  deref h' c = resolved p (deref h c) (imports (deref h c))) ∧
          (∀ c, (∀ k, k ∈ order → p_contracts p !! k ≠ Some c) → h' !! c = h !! c).
Proof.
  induction order as [|k order IH]; intros h Hwf Hnd Hres; cbn [resolveContracts].
  - exists h. split; [done|]. split; [done|]. split; [done|]. split; [|done].
    intros k c Hk. by apply elem_of_nil in Hk.
  - apply NoDup_cons in Hnd as [Hk Hnd].
    destruct (p_contracts p !! k) as [c|] eqn:Hc.
    + destruct (wf_ptr _ _ Hwf k c Hc) as (v & Hv & Hsrc).
      pose proof (deref_lookup _ _ _ Hv) as Hderef.
      pose proof (lookup_lt_Some _ _ _ Hv) as Hlt.
      rewrite (resolveLocations_spec p c _ h v Hv). rewrite Hderef.
      assert (firstUnresolved p (name v) (source v) (imports v) = None) as ->.
      { apply firstUnresolved_None. intros loc Hloc. rewrite Hsrc.
        apply (Hres k c loc); [left|done|by rewrite Hderef]. }
      set (v' := resolved p v (imports v)).
      assert (wf p (<[c := v']> h)) as Hwf1.
      { apply (wf_update p h k c v' Hwf Hc).
        - rewrite Hderef. apply resolved_same.
        - rewrite <- Hsrc. apply resolved_consistent; [|done].
          rewrite Hsrc. rewrite <- Hderef. by apply (wf_deps _ _ Hwf). }
      assert (∀ k' c', k' ∈ order → p_contracts p !! k' = Some c' → c ≠ c') as Hother.
      { intros k' c' Hk' Hc' <-.
        apply Hk. by rewrite <- (wf_ptr_inj p h k' k c Hwf Hc' Hc). }
      destruct (IH (<[c := v']> h) Hwf1 Hnd) as (h' & -> & Hlen & Hwf' & Hin & Hout).
      { intros k' c' loc Hk' Hc'. rewrite deref_insert_ne by by eapply Hother.
        intros Hloc. apply (Hres k' c' loc); [by right|done|done]. }
      exists h'. split; [done|]. split; [by rewrite Hlen, length_insert|].
      split; [done|]. split.
      * intros k' c' [->|Hk']%elem_of_cons Hc'.
        -- assert (c' = c) as -> by congruence.
           unfold deref at 1. rewrite Hout.
           ++ rewrite list_lookup_insert_eq by done. by rewrite Hderef.
           ++ intros k' Hk' Hc''. by apply (Hother k' c Hk' Hc'').
        -- rewrite (Hin k' c' Hk' Hc').
           by rewrite deref_insert_ne by by eapply Hother.
      * intros c0 Hc0. rewrite Hout.
        -- apply list_lookup_insert_ne. intros <-. by apply (Hc0 k ltac:(left)).
        -- intros k' Hk'. apply Hc0. by right.
    + destruct (IH h Hwf Hnd) as (h' & -> & Hlen & Hwf' & Hin & Hout).
      { intros k' c' loc Hk' Hc' Hloc. apply (Hres k' c' loc); [by right|done|done]. }
      exists h'. split; [done|]. split; [done|]. split; [done|]. split.
      * intros k' c' [->|Hk']%elem_of_cons Hc'; [congruence|by apply (Hin k' c')].
      * intros c0 Hc0. apply Hout. intros k' Hk'. apply Hc0. by right.
Qed.

Lemma resolvedStore_lookup p (h : heap) c :
  resolvedStore p h !! c
  = (fun v => if decide (p_contracts p !! source v = Some c)
              then resolved p v (imports v) else v) <$> h !! c.
Proof. unfold resolvedStore. apply list_lookup_imap. Qed.

(** With every import resolving, [PrepareForDeployment] leaves the store
    [resolvedStore p h] and goes on to sort it. *)
Lemma PrepareForDeployment_unfold s p h :
  admissible s → wf p h → resolvable p h →
  wf p (resolvedStore p h) ∧
  PrepareForDeployment s p h
  = (resolvedStore p h,
     outcome_bind (sortByDeploymentOrder s (p_contracts p) (resolvedStore p h))
       (fun '(sorted, err) =>
          match err with
          | Some e => Returns ([], Some e)
          | None => Returns (sorted, None)
          end)).
Proof.
  intros (Hresolve & _) Hwf Hres. unfold PrepareForDeployment.
  destruct (resolveContracts_resolved p (rangeResolve s (keys (p_contracts p))) h Hwf)
    as (h' & -> & Hlen & Hwf' & Hin & Hout).
  { rewrite Hresolve. apply NoDup_fst_map_to_list. }
  { intros k c loc _. apply Hres. }
  assert (h' = resolvedStore p h) as <-; [|done].
  apply list_eq. intros c. rewrite resolvedStore_lookup.
  destruct (h !! c) as [v|] eqn:Hv; cbn.
  - pose proof (lookup_lt_Some _ _ _ Hv) as Hlt.
    destruct (decide (p_contracts p !! source v = Some c)) as [Hreg|Hreg].
    + apply lookup_deref; [lia|].
      rewrite (Hin (source v) c); [by rewrite (deref_lookup _ _ _ Hv)| |done].
      rewrite Hresolve. apply keys_elem_of_string. by eexists.
    + rewrite Hout; [done|]. intros k _ Hk.
      destruct (wf_ptr _ _ Hwf k c Hk) as (v0 & Hv0 & Hsrc). congruence.
  - apply lookup_ge_None. rewrite Hlen. by apply lookup_ge_None.
Qed.

(** X17.  When every import resolves, the store that
    [PrepareForDeployment] leaves does not depend on the order in which the
    maps are visited: every registered contract has had its imports resolved
    one after the other, in the order of its import declarations, and every
    other contract of the store is as it was. *)
Theorem PrepareForDeployment_store s p h :
  admissible s → wf p h → resolvable p h →
  (PrepareForDeployment s p h).1 = resolvedStore p h.
Proof.
  intros Hs Hwf Hres.
  destruct (PrepareForDeployment_unfold s p h Hs Hwf Hres) as [_ ->]. done.
Qed.

(** ** Contracts before aliases *)

Lemma resolved_alias p v locs loc a :
  p_contracts p !! absolutePath (source v) loc = None →
  p_aliases p !! getAliasForImport loc = Some a →
  firstUnresolved p (name v) (source v) locs = None →
  aliases v !! loc = Some (flow.HexToAddress a) ∨ loc ∈ locs →
  aliases (resolved p v locs) !! loc = Some (flow.HexToAddress a).
Proof.
  intros Hd Ha. revert v Hd.
  induction locs as [|l rest IH]; intros v Hd Herr Hin; cbn [resolved].
  - destruct Hin as [Hin|Hin]; [done|by apply elem_of_nil in Hin].
  - cbn [firstUnresolved] in Herr.
    destruct (p_contracts p !! absolutePath (source v) l) as [d'|] eqn:Hd';
      [|destruct (p_aliases p !! getAliasForImport l) as [a'|] eqn:Ha'; [|done]].
    + apply (IH (withDependency v l d')); [done|done|]. cbn.
      destruct Hin as [Hin|Hin]; [by left|right].
      apply elem_of_cons in Hin as [->|Hin]; [congruence|done].
    + apply (IH (withAlias v l (flow.HexToAddress a'))); [done|done|]. cbn.
      destruct (decide (l = loc)) as [->|Hne].
      * left. rewrite lookup_insert_eq. congruence.
      * rewrite lookup_insert_ne by done.
        destruct Hin as [Hin|Hin]; [by left|right]. set_solver.
Qed.

Lemma resolved_no_alias p v locs loc d :
  p_contracts p !! absolutePath (source v) loc = Some d →
  aliases v !! loc = None →
  aliases (resolved p v locs) !! loc = None.
Proof.
  intros Hd. revert v Hd.
  induction locs as [|l rest IH]; intros v Hd Hno; cbn [resolved]; [done|].
  destruct (p_contracts p !! absolutePath (source v) l) as [d'|] eqn:Hd';
    [|destruct (p_aliases p !! getAliasForImport l) as [a'|] eqn:Ha'; [|done]].
  - by apply (IH (withDependency v l d')).
  - apply (IH (withAlias v l (flow.HexToAddress a'))); [done|]. cbn.
    rewrite lookup_insert_ne; [done|]. intros ->. congruence.
Qed.

(** X18.  After a call of [PrepareForDeployment] in which every import
    resolves, each import of a registered contract is recorded according to
    what it matches.  An import whose normalized path is registered is
    recorded as a dependency on the registered contract, also when its alias
    key is in the alias table, and no alias is recorded for it.  An import
    whose normalized path is not registered is recorded as an alias, with the
    address that [flow.HexToAddress] reads from the entry of its alias key,
    and no dependency is recorded for it. *)
Theorem PrepareForDeployment_records s p h k c loc :
  admissible s → wf p h → resolvable p h →
  p_contracts p !! k = Some c → loc ∈ imports (deref h c) →
  let h' := (PrepareForDeployment s p h).1 in
  (∀ d, p_contracts p !! absolutePath k loc = Some d →
        Dependencies h' c !! loc = Some d ∧
        (aliases (deref h c) !! loc = None → aliases (deref h' c) !! loc = None)) ∧
  (∀ a, p_contracts p !! absolutePath k loc = None →
        p_aliases p !! getAliasForImport loc = Some a →
        aliases (deref h' c) !! loc = Some (flow.HexToAddress a) ∧
        Dependencies h' c !! loc = None).
Proof.
  intros Hs Hwf Hres Hc Hloc.
  destruct (PrepareForDeployment_unfold s p h Hs Hwf Hres) as [Hwf' ->]. cbn [fst].
  destruct (wf_ptr _ _ Hwf k c Hc) as (v & Hv & Hsrc).
  rewrite (deref_lookup _ _ _ Hv) in *.
  assert (deref (resolvedStore p h) c = resolved p v (imports v)) as Hderef.
  { unfold deref. rewrite resolvedStore_lookup, Hv. cbn.
    by rewrite decide_True by by rewrite Hsrc. }
  assert (firstUnresolved p (name v) (source v) (imports v) = None) as Hnone.
  { apply firstUnresolved_None. intros l Hl. rewrite Hsrc.
    apply (Hres k c l Hc). by rewrite (deref_lookup _ _ _ Hv). }
  unfold Dependencies. rewrite Hderef. rewrite <- Hsrc. split.
  - intros d Hd. split.
    + apply resolved_keeps; [done|done|by right].
    + by apply resolved_no_alias with d.
  - intros a Hd Ha. split.
    + apply resolved_alias; [done|done|done|by right].
    + destruct (dependencies (resolved p v (imports v)) !! loc) as [d|] eqn:Hdep; [|done].
      pose proof (wf_deps _ _ Hwf' k c Hc) as Hcons. rewrite Hderef in Hcons.
      destruct (Hcons loc d Hdep) as [_ Hreg]. rewrite Hsrc in Hd. congruence.
Qed.

(** ** A second call *)

Lemma withDependency_id v loc d :
  dependencies v !! loc = Some d → withDependency v loc d = v.
Proof. intros Hd. destruct v. unfold withDependency. cbn in *. by rewrite insert_id. Qed.

Lemma withAlias_id v loc a :
  aliases v !! loc = Some a → withAlias v loc a = v.
Proof. intros Ha. destruct v. unfold withAlias. cbn in *. by rewrite insert_id. Qed.

Lemma resolved_fixed p w locs :
  (∀ loc d, loc ∈ locs → p_contracts p !! absolutePath (source w) loc = Some d →
            dependencies w !! loc = Some d) →
  (∀ loc a, loc ∈ locs → p_contracts p !! absolutePath (source w) loc = None →
            p_aliases p !! getAliasForImport loc = Some a →
            aliases w !! loc = Some (flow.HexToAddress a)) →
  resolved p w locs = w.
Proof.
  induction locs as [|l rest IH]; intros Hdep Hal; cbn [resolved]; [done|].
  destruct (p_contracts p !! absolutePath (source w) l) as [d|] eqn:Hd;
    [|destruct (p_aliases p !! getAliasForImport l) as [a|] eqn:Ha; [|done]].
  - rewrite withDependency_id by (apply Hdep; [left|done]).
    apply IH; intros loc x Hloc; [apply Hdep|apply Hal]; by right.
  - rewrite withAlias_id by (apply Hal; [left|done|done]).
    apply IH; intros loc x Hloc; [apply Hdep|apply Hal]; by right.
Qed.

Lemma resolved_idempotent p v locs :
  firstUnresolved p (name v) (source v) locs = None →
  resolved p (resolved p v locs) locs = resolved p v locs.
Proof.
  intros Hnone. destruct (resolved_same p v locs) as (_ & _ & Hsrc & _).
  apply resolved_fixed; rewrite Hsrc.
  - intros loc d Hloc Hd. apply resolved_keeps; [done|done|by right].
  - intros loc a Hloc Hd Ha. apply resolved_alias; [done|done|done|by right].
Qed.

Lemma resolvedStore_idempotent p h :
  wf p h → resolvable p h → resolvedStore p (resolvedStore p h) = resolvedStore p h.
Proof.
  intros Hwf Hres. apply list_eq. intros c.
  rewrite !resolvedStore_lookup. destruct (h !! c) as [v|] eqn:Hv; cbn; [|done].
  f_equal. destruct (decide (p_contracts p !! source v = Some c)) as [Hreg|Hreg].
  - destruct (resolved_same p v (imports v)) as (_ & _ & Hsrc & _ & _ & Hprog).
    rewrite Hsrc. rewrite decide_True by done.
    replace (imports (resolved p v (imports v))) with (imports v)
      by (symmetry; apply imports_same, resolved_same).
    apply resolved_idempotent, firstUnresolved_None.
    intros loc Hloc. apply (Hres (source v) c loc Hreg).
    by rewrite (deref_lookup _ _ _ Hv).
  - by rewrite decide_False by done.
Qed.

Lemma resolvable_resolvedStore p h :
  wf p h → resolvable p h → resolvable p (resolvedStore p h).
Proof.
  intros Hwf Hres k c loc Hc Hloc. apply (Hres k c loc Hc).
  destruct (wf_ptr _ _ Hwf k c Hc) as (v & Hv & Hsrc).
  unfold deref in Hloc. rewrite resolvedStore_lookup, Hv in Hloc. cbn in Hloc.
  rewrite (deref_lookup _ _ _ Hv).
  destruct (decide _); [|done].
  by rewrite (imports_same _ _ (resolved_same p v (imports v))) in Hloc.
Qed.

(** X19.  When every import resolves, a second call of
    [PrepareForDeployment] on the store that the first call left, with the
    maps visited in the same orders, returns what the first call returned and
    leaves the store as it found it: the dependencies and aliases are
    recorded once, not added to. *)
Theorem PrepareForDeployment_again s p h :
  admissible s → wf p h → resolvable p h →
  PrepareForDeployment s p (PrepareForDeployment s p h).1 = PrepareForDeployment s p h.
Proof.
  intros Hs Hwf Hres.
  destruct (PrepareForDeployment_unfold s p h Hs Hwf Hres) as [Hwf' Heq].
  rewrite Heq at 1. cbn [fst].
  destruct (PrepareForDeployment_unfold s p (resolvedStore p h) Hs Hwf'
              (resolvable_resolvedStore p h Hwf Hres)) as [_ ->].
  by rewrite resolvedStore_idempotent, Heq.
Qed.

(** ** From registration to the transpiled text *)

Lemma resolved_single p v locs loc d :
  p_contracts p !! absolutePath (source v) loc = Some d →
  (∀ l, l ∈ locs → l = loc) → locs ≠ [] →
  dependencies v = ∅ → aliases v = ∅ →
  dependencies (resolved p v locs) = {[loc := d]} ∧ aliases (resolved p v locs) = ∅.
Proof.
  intros Hd Hall Hne Hdeps Hal.
  assert (∀ n w, source w = source v → dependencies w = {[loc := d]} → aliases w = ∅ →
                 dependencies (resolved p w (replicate n loc)) = {[loc := d]} ∧
                 aliases (resolved p w (replicate n loc)) = ∅) as Hrep.
  { induction n as [|n IH]; intros w Hsrc Hw Hwa; cbn [replicate resolved]; [done|].
    rewrite Hsrc, Hd. apply IH; [done| |done]. cbn. rewrite Hw.
    apply insert_id. by rewrite lookup_singleton_eq. }
  assert (locs = replicate (length locs) loc) as ->.
  { clear -Hall. induction locs as [|l locs IH]; [done|]. cbn.
    rewrite (Hall l ltac:(left)). f_equal. apply IH. intros l' Hl'. apply Hall. by right. }
  destruct (length locs) as [|n] eqn:Hlen; [by destruct locs|].
  cbn [replicate resolved]. rewrite Hd. apply Hrep; [done| |done].
  cbn. by rewrite Hdeps.
Qed.

(** X20.  Registration, resolution and transpilation together: when a
    registered contract, with nothing recorded yet, imports one location
    (once or several times) whose normalized path is the source path of the
    registered contract [d], then after [PrepareForDeployment] the
    transpiled code of the contract is its code with the leftmost quoted
    occurrence of the location replaced by [0x] and the target address of
    [d]; the rest of the text is as it was. *)
Theorem TranspiledCode_after_resolution s p h k c loc d pre post depOrder aliasOrder :
  admissible s → wf p h → resolvable p h →
  (∀ l, depOrder l ≡ₚ l) →
  p_contracts p !! k = Some c →
  loc ∈ imports (deref h c) → (∀ l, l ∈ imports (deref h c) → l = loc) →
  p_contracts p !! absolutePath k loc = Some d →
  dependencies (deref h c) = ∅ → aliases (deref h c) = ∅ →
  Code h c = pre +:+ quoted loc +:+ post →
  strings.Index (Code h c) (quoted loc) = Some (strings.len pre) →
  let h' := (PrepareForDeployment s p h).1 in
  TranspiledCode h' (deref h' c) depOrder aliasOrder
  = pre +:+ ("0x" +:+ flow.Address_String (Target h d)) +:+ post.
Proof.
  intros Hs Hwf Hres Hperm Hc Hloc Hall Hd Hdeps Hal Hcode Hidx.
  destruct (PrepareForDeployment_unfold s p h Hs Hwf Hres) as [Hwf' ->]. cbn [fst].
  destruct (wf_ptr _ _ Hwf k c Hc) as (v & Hv & Hsrc).
  unfold Code in *. rewrite (deref_lookup _ _ _ Hv) in *.
  assert (deref (resolvedStore p h) c = resolved p v (imports v)) as Hderef.
  { unfold deref. rewrite resolvedStore_lookup, Hv. cbn.
    by rewrite decide_True by by rewrite Hsrc. }
  assert (Target (resolvedStore p h) d = Target h d) as Htgt.
  { unfold Target, deref. rewrite resolvedStore_lookup.
    destruct (h !! d) as [w|]; cbn; [|done]. destruct (decide _); [|done].
    by destruct (resolved_same p w (imports w)) as (_ & _ & _ & -> & _). }
  rewrite Hderef. rewrite <- Hsrc in Hd.
  destruct (resolved_single p v (imports v) loc d Hd Hall) as [Hrd Hra]; [|done|done|].
  { intros Hnil. rewrite Hnil in Hloc. by apply elem_of_nil in Hloc. }
  destruct (resolved_same p v (imports v)) as (_ & _ & _ & _ & Hcode' & _).
  unfold TranspiledCode. rewrite Hrd, Hra, Hcode'.
  rewrite (keys_singleton loc d), (keys_empty (A:=flow.Address)).
  rewrite (proj1 (Permutation_singleton_r _ _) (Hperm [loc])).
  cbn [fold_left]. rewrite lookup_singleton_eq.
  assert (∀ l : list string, fold_left
            (fun code0 location =>
               match (∅ : gmap string flow.Address) !! location with
               | Some tgt => strings.Replace1 code0 (quoted location)
                               ("0x" +:+ flow.Address_String tgt)
               | None => code0
               end) l
            (strings.Replace1 (code v) (quoted loc)
               ("0x" +:+ flow.Address_String (Target (resolvedStore p h) d)))
          = strings.Replace1 (code v) (quoted loc)
              ("0x" +:+ flow.Address_String (Target (resolvedStore p h) d))) as ->.
  { induction l as [|x l IH]; cbn [fold_left]; [done|]. by rewrite lookup_empty. }
  rewrite Htgt. by apply Replace1_first.
Qed.

End Recorded.

(* ===================================================================== *)
(** * Part XXI.  Path normalization, element by element                   *)
(* ===================================================================== *)

Section CleanElements.
#[local] Arguments String.append : simpl nomatch.

Lemma append_empty_r s : s +:+ EmptyString = s.
Proof. induction s as [|c s IH]; cbn; [done|by rewrite IH]. Qed.

Lemma slashFree_cons c s : slashFree (String c s) ↔ c ≠ "/"%char ∧ slashFree s.
Proof.
  unfold slashFree. rewrite Contains_slash_cons, orb_false_iff.
  destruct (Ascii.eqb_spec "/" c) as [<-|Hne]; split; intros [? ?]; done.
Qed.

Lemma slashFree_eqb c s : slashFree (String c s) → Ascii.eqb c path.slash = false.
Proof. intros [Hc _]%slashFree_cons. by apply Ascii.eqb_neq. Qed.

Lemma joinSegs_cons seg rest : joinSegs (seg :: rest) = seg +:+ tailOf rest.
Proof. destruct rest; cbn; [by rewrite append_empty_r|done]. Qed.

Lemma joinSegs_snoc l s : l ≠ [] → joinSegs (l ++ [s]) = joinSegs l +:+ "/" +:+ s.
Proof.
  induction l as [|x l IH]; [done|]. intros _.
  destruct l as [|y l]; [done|].
  change ((x :: y :: l) ++ [s]) with (x :: (y :: l) ++ [s]).
  cbn [joinSegs app] in *. rewrite IH by done. by rewrite !append_assoc.
Qed.

Lemma joinSegs_app l1 l2 :
  l1 ≠ [] → l2 ≠ [] → joinSegs (l1 ++ l2) = joinSegs l1 +:+ "/" +:+ joinSegs l2.
Proof.
  intros H1 H2. induction l1 as [|x l1 IH]; [done|].
  destruct l1 as [|y l1].
  - cbn [app]. rewrite joinSegs_cons. by destruct l2.
  - change ((x :: y :: l1) ++ l2) with (x :: (y :: l1) ++ l2).
    cbn [joinSegs app] in *. rewrite IH by done. by rewrite !append_assoc.
Qed.

Lemma joinSegs_splitSegs p : joinSegs (splitSegs p) = p.
Proof.
  induction p as [|c p IH]; [done|]. cbn [splitSegs].
  destruct (Ascii.eqb_spec c "/") as [->|Hne].
  - rewrite joinSegs_cons. destruct (splitSegs p) as [|s rest] eqn:Hs; [by destruct p|].
    cbn [tailOf]. by rewrite IH.
  - destruct (splitSegs p) as [|s rest] eqn:Hs; [by destruct p|].
    rewrite joinSegs_cons in *. cbn. by rewrite IH.
Qed.

Lemma splitSegs_nonempty p : splitSegs p ≠ [].
Proof. destruct p as [|c p]; [done|]. cbn. destruct (Ascii.eqb c "/"); [done|]. by destruct (splitSegs p). Qed.

Lemma splitSegs_slashFree p : Forall slashFree (splitSegs p).
Proof.
  induction p as [|c p IH]; [by repeat constructor|]. cbn [splitSegs].
  destruct (Ascii.eqb_spec c "/") as [->|Hne].
  - by constructor.
  - destruct (splitSegs p) as [|s rest] eqn:Heq; [by destruct (splitSegs_nonempty p)|].
    apply Forall_cons in IH as [Hs Hrest]. constructor; [|done].
    by apply slashFree_cons.
Qed.

(** ** The loop of [Clean] on one element *)

Lemma atBoundary_tailOf rest : path.atBoundary (tailOf rest) = true.
Proof. by destruct rest. Qed.

Lemma atBoundary_app seg rest :
  slashFree seg →
  path.atBoundary (seg +:+ tailOf rest)
  = match seg with EmptyString => true | _ => false end.
Proof.
  destruct seg as [|c seg]; intros Hs.
  - apply atBoundary_tailOf.
  - cbn. by apply slashFree_eqb in Hs.
Qed.

Lemma cleanLoop_tail rooted copying rest out dotdot :
  path.cleanLoop rooted copying (tailOf rest) out dotdot
  = path.cleanLoop rooted false (joinSegs rest) out dotdot.
Proof. destruct rest as [|s rest]; [by destruct copying|]. by destruct copying. Qed.

Lemma cleanLoop_copy rooted seg rest dotdot :
  slashFree seg →
  ∀ out,
    path.cleanLoop rooted true (seg +:+ tailOf rest) out dotdot
    = path.cleanLoop rooted false (joinSegs rest)
        (rev (list_ascii_of_string seg) ++ out) dotdot.
Proof.
  induction seg as [|c seg IH]; intros Hs out.
  - apply cleanLoop_tail.
  - pose proof (slashFree_eqb _ _ Hs) as Hc. apply slashFree_cons in Hs as [_ Hs].
    change (String c seg +:+ tailOf rest) with (String c (seg +:+ tailOf rest)).
    cbn [path.cleanLoop]. rewrite Hc, IH by done.
    cbn [list_ascii_of_string rev]. by rewrite <- app_assoc.
Qed.

(** A name starts the copying loop, behind a slash when the buffer holds an
    element. *)
Lemma cleanLoop_name rooted seg rest out dotdot :
  plain seg →
  path.cleanLoop rooted false (seg +:+ tailOf rest) out dotdot
  = path.cleanLoop rooted false (joinSegs rest)
      (rev (list_ascii_of_string seg)
       ++ (if (rooted && negb (length out =? 1)%nat)
              || (negb rooted && negb (length out =? 0)%nat)
           then path.slash :: out else out)) dotdot.
Proof.
  intros (Hne & Hdot & Hdotdot & Hs).
  destruct seg as [|c seg]; [done|].
  pose proof (slashFree_eqb _ _ Hs) as Hc. apply slashFree_cons in Hs as [_ Hs].
  change (String c seg +:+ tailOf rest) with (String c (seg +:+ tailOf rest)).
  cbn [path.cleanLoop]. rewrite Hc.
  rewrite (atBoundary_app seg rest Hs).
  assert (Ascii.eqb c path.dot && match seg with EmptyString => true | _ => false end
          = false) as ->.
  { destruct (Ascii.eqb_spec c path.dot) as [->|?]; [|done]. by destruct seg. }
  destruct (seg +:+ tailOf rest) as [|c2 rest''] eqn:Heq.
  - rewrite <- Heq, cleanLoop_copy by done.
    cbn [list_ascii_of_string rev]. by rewrite <- app_assoc.
  - assert (Ascii.eqb c path.dot && Ascii.eqb c2 path.dot && path.atBoundary rest''
            = false) as ->.
    { destruct (Ascii.eqb_spec c path.dot) as [->|?]; [|done].
      destruct (Ascii.eqb_spec c2 path.dot) as [->|?]; [|done]. cbn.
      destruct seg as [|c3 seg].
      - destruct rest; [done|]. by injection Heq.
      - change (String c3 seg +:+ tailOf rest) with (String c3 (seg +:+ tailOf rest)) in Heq.
        injection Heq as -> <-. apply slashFree_cons in Hs as [_ Hs].
        rewrite (atBoundary_app seg rest Hs). by destruct seg. }
    rewrite <- Heq, cleanLoop_copy by done.
    cbn [list_ascii_of_string rev]. by rewrite <- app_assoc.
Qed.

(** ** The buffer *)

Lemma plain_nonempty s : plain s → s ≠ EmptyString.
Proof. by intros [? _]. Qed.

Lemma length_chars_pos s : s ≠ EmptyString → (0 < length (list_ascii_of_string s))%nat.
Proof. destruct s; [done|]. cbn. lia. Qed.

Lemma stack_nonempty plains n :
  Forall plain plains → Forall (fun s => s ≠ EmptyString) (plains ++ replicate n "..").
Proof.
  intros Hp. apply Forall_app. split.
  - eapply Forall_impl; [done|]. apply plain_nonempty.
  - apply Forall_replicate. done.
Qed.

Lemma bufOf_length rooted st :
  Forall (fun s => s ≠ EmptyString) st →
  (length (bufOf rooted st) =? (if rooted then 1 else 0))%nat
  = match st with [] => true | _ => false end.
Proof.
  destruct st as [|seg st]; [by destruct rooted|].
  intros [Hseg _]%Forall_cons. apply length_chars_pos in Hseg.
  cbn [bufOf]. rewrite length_app, length_rev. apply Nat.eqb_neq.
  destruct st, rooted; cbn [length]; lia.
Qed.

Lemma bufOf_dotdot rooted plains n :
  Forall plain plains → (rooted = true → n = 0%nat) →
  (dotdotOf rooted n ≤ length (bufOf rooted (plains ++ replicate n "..")))%nat ∧
  ((dotdotOf rooted n <? length (bufOf rooted (plains ++ replicate n "..")))%nat
   = match plains with [] => false | _ => true end).
Proof.
  intros Hp Hr.
  assert (dotdotOf rooted n = length (bufOf rooted (replicate n ".."))) as Hdd.
  { unfold dotdotOf. destruct rooted; [|done]. by rewrite Hr. }
  rewrite Hdd. clear Hdd.
  induction Hp as [|seg plains Hseg Hp IH]; cbn [app].
  - split; [done|]. apply Nat.ltb_ge. done.
  - destruct IH as [IH _]. apply plain_nonempty, length_chars_pos in Hseg.
    cbn [bufOf]. rewrite length_app, length_rev.
    destruct (plains ++ replicate n "..") as [|x l] eqn:Heq.
    + destruct plains; [|done]. cbn [app] in Heq. rewrite Heq in *.
      cbn [bufOf]. split; [|apply Nat.ltb_lt]; destruct rooted; cbn [length]; lia.
    + cbn [length]. split; [lia|]. apply Nat.ltb_lt. lia.
Qed.

Lemma backtrack_name dotdot (cs : list ascii) T B :
  Forall (fun c => c ≠ path.slash) cs →
  (T = path.slash :: B ∧ (dotdot ≤ length B)%nat) ∨ (T = B ∧ length B = dotdot) →
  ∀ x out', x :: out' = cs ++ T → cs ≠ [] → path.backtrack dotdot x out' = B.
Proof.
  intros Hcs HT. induction Hcs as [|c cs Hc Hcs IH]; intros x out' Hout Hne; [done|].
  clear Hne. injection Hout as -> ->.
  assert (Ascii.eqb c path.slash = false) as Hcb by by apply Ascii.eqb_neq.
  destruct cs as [|c' cs].
  - cbn [app]. destruct HT as [[-> Hle]|[-> Hlen]].
    + cbn [path.backtrack]. rewrite Hcb.
      replace (dotdot <? length (path.slash :: B))%nat with true
        by (symmetry; apply Nat.ltb_lt; cbn; lia).
      cbn [andb negb]. destruct B as [|b B]; [done|].
      cbn [path.backtrack]. by rewrite Ascii.eqb_refl, andb_false_r.
    + destruct B as [|b B]; [done|]. cbn [path.backtrack].
      replace (dotdot <? length (b :: B))%nat with false
        by (symmetry; apply Nat.ltb_ge; lia). done.
  - change ((c' :: cs) ++ T) with (c' :: cs ++ T).
    cbn [path.backtrack]. rewrite Hcb.
    replace (dotdot <? length (c' :: cs ++ T))%nat with true.
    + cbn [andb negb]. by apply IH.
    + symmetry. apply Nat.ltb_lt. cbn [length]. rewrite length_app.
      destruct HT as [[-> Hle]|[-> Hlen]]; cbn [length]; lia.
Qed.

Lemma chars_no_slash s :
  slashFree s → Forall (fun c => c ≠ path.slash) (rev (list_ascii_of_string s)).
Proof.
  induction s as [|d s IH]; intros Hs; cbn [list_ascii_of_string rev]; [constructor|].
  apply slashFree_cons in Hs as [Hd Hs]. apply Forall_app. split; [by apply IH|].
  by repeat constructor.
Qed.

Lemma slashFree_cases seg :
  slashFree seg → seg = EmptyString ∨ seg = "." ∨ seg = ".." ∨ plain seg.
Proof.
  intros Hs. destruct (decide (seg = EmptyString)); [by left|].
  destruct (decide (seg = ".")); [by right; left|].
  destruct (decide (seg = "..")); [by right; right; left|].
  by right; right; right.
Qed.

(** One element of the path: the loop of [Clean] does to its buffer what
    [stepSeg] does to the elements kept. *)
Lemma cleanLoop_element rooted seg rest plains n :
  slashFree seg → Forall plain plains → (rooted = true → n = 0%nat) →
  ∃ plains' n',
    stepSeg rooted (plains ++ replicate n "..") seg = plains' ++ replicate n' ".." ∧
    Forall plain plains' ∧ (rooted = true → n' = 0%nat) ∧
    path.cleanLoop rooted false (seg +:+ tailOf rest)
      (bufOf rooted (plains ++ replicate n "..")) (dotdotOf rooted n)
    = path.cleanLoop rooted false (joinSegs rest)
        (bufOf rooted (plains' ++ replicate n' "..")) (dotdotOf rooted n').
Proof.
  intros Hs Hp Hr.
  destruct (slashFree_cases seg Hs) as [->|[->|[->|Hplain]]].
  - exists plains, n. split; [done|]. split; [done|]. split; [done|].
    change (EmptyString +:+ tailOf rest) with (tailOf rest). apply cleanLoop_tail.
  - exists plains, n. split; [done|]. split; [done|]. split; [done|].
    change ("." +:+ tailOf rest) with (String "." (tailOf rest)).
    cbn [path.cleanLoop]. rewrite atBoundary_tailOf.
    change (Ascii.eqb "." path.slash) with false.
    change (Ascii.eqb "." path.dot) with true. cbn [andb].
    apply cleanLoop_tail.
  - change (".." +:+ tailOf rest) with (String "." (String "." (tailOf rest))).
    cbn [path.cleanLoop path.atBoundary]. rewrite atBoundary_tailOf.
    change (Ascii.eqb "." path.slash) with false.
    change (Ascii.eqb "." path.dot) with true. cbn [andb].
    destruct (bufOf_dotdot rooted plains n Hp Hr) as [Hle ->].
    destruct plains as [|p ps].
    + destruct n as [|m].
      * destruct rooted.
        -- exists [], 0%nat. split; [done|]. split; [done|]. split; [done|].
           cbn [negb]. by rewrite cleanLoop_tail.
        -- exists [], 1%nat. split; [done|]. split; [done|]. split; [done|].
           cbn [negb]. by rewrite cleanLoop_tail.
      * assert (rooted = false) as -> by (destruct rooted; [by specialize (Hr eq_refl)|done]).
        exists [], (S (S m)). split; [done|]. split; [done|]. split; [done|].
        cbn [negb]. rewrite cleanLoop_tail. f_equal.
    + apply Forall_cons in Hp as [Hp Hps].
      exists ps, n. split.
      { unfold stepSeg. rewrite decide_False by (intros [?|?]; done).
        rewrite decide_True by done. cbn [app].
        rewrite decide_False; [done|]. by destruct Hp as (_ & _ & ? & _). }
      split; [done|]. split; [done|].
      pose proof (bufOf_length rooted _ (stack_nonempty (p :: ps) n
                    ltac:(by constructor))) as Hlen.
      destruct (bufOf rooted ((p :: ps) ++ replicate n "..")) as [|x out'] eqn:Hout.
      { unfold dotdotOf in Hle. destruct rooted; cbn in Hle, Hlen; [lia|done]. }
      clear Hlen.
      rewrite cleanLoop_tail. f_equal.
      cbn [app bufOf] in Hout.
      apply (backtrack_name (dotdotOf rooted n) (rev (list_ascii_of_string p))
               (match ps ++ replicate n ".." with
                | [] => if rooted then [path.slash] else []
                | _ => path.slash :: bufOf rooted (ps ++ replicate n "..")
                end)).
      * apply chars_no_slash. by destruct Hp as (_ & _ & _ & ?).
      * destruct (ps ++ replicate n "..") as [|y l] eqn:Heq.
        -- right. split; [done|]. destruct ps; [|done]. cbn [app] in Heq.
           destruct n; [|done]. unfold dotdotOf. by destruct rooted.
        -- left. split; [done|]. rewrite <- Heq.
           apply (bufOf_dotdot rooted ps n Hps Hr).
      * done.
      * intros Hnil. apply (f_equal (@rev ascii)) in Hnil. rewrite rev_involutive in Hnil.
        destruct Hp as (Hne & _). by destruct p.
  - exists (seg :: plains), n. split.
    { unfold stepSeg. destruct Hplain as (H1 & H2 & H3 & _).
      rewrite decide_False by (intros [?|?]; done). by rewrite decide_False by done. }
    split; [by constructor|]. split; [done|].
    rewrite (cleanLoop_name rooted seg rest _ _ Hplain). f_equal.
    cbn [app bufOf]. f_equal.
    pose proof (bufOf_length rooted _ (stack_nonempty plains n Hp)) as Hlen.
    destruct rooted; cbn [andb orb negb] in *.
    + rewrite Hlen. by destruct (plains ++ replicate n "..").
    + rewrite Hlen. by destruct (plains ++ replicate n "..").
Qed.

(** The loop of [Clean] on a whole path. *)
Lemma cleanLoop_elements rooted segs :
  Forall slashFree segs →
  ∀ plains n, Forall plain plains → (rooted = true → n = 0%nat) →
    ∃ plains' n',
      cleanSegs rooted segs (plains ++ replicate n "..") = plains' ++ replicate n' ".." ∧
      Forall plain plains' ∧ (rooted = true → n' = 0%nat) ∧
      path.cleanLoop rooted false (joinSegs segs)
        (bufOf rooted (plains ++ replicate n "..")) (dotdotOf rooted n)
      = bufOf rooted (plains' ++ replicate n' "..").
Proof.
  induction 1 as [|seg rest Hseg Hrest IH]; intros plains n Hp Hr.
  - exists plains, n. split; [done|]. split; [done|]. split; [done|]. done.
  - destruct (cleanLoop_element rooted seg rest plains n Hseg Hp Hr)
      as (plains1 & n1 & Hstep & Hp1 & Hr1 & Hloop).
    destruct (IH plains1 n1 Hp1 Hr1) as (plains' & n' & Hsegs & Hp' & Hr' & Hloop').
    exists plains', n'. split; [|split; [done|split; [done|]]].
    + unfold cleanSegs in *. cbn [fold_left]. by rewrite Hstep.
    + by rewrite joinSegs_cons, Hloop.
Qed.

(** ** [Clean] on the elements of a path *)

Lemma string_of_list_ascii_append (a b : list ascii) :
  string_of_list_ascii (a ++ b) = string_of_list_ascii a +:+ string_of_list_ascii b.
Proof. induction a as [|c a IH]; cbn; [done|by rewrite IH]. Qed.

Lemma bufString_bufOf rooted st :
  path.bufString (bufOf rooted st)
  = (if rooted then "/" else EmptyString) +:+ joinSegs (rev st).
Proof.
  unfold path.bufString. induction st as [|seg st IH].
  - destruct rooted; done.
  - cbn [bufOf rev]. rewrite rev_app_distr, rev_involutive, string_of_list_ascii_append.
    rewrite string_of_list_ascii_of_string.
    destruct st as [|seg' st].
    + cbn [rev app joinSegs]. by destruct rooted.
    + cbn [rev] in *. rewrite string_of_list_ascii_append, IH.
      rewrite (joinSegs_snoc (rev st ++ [seg']) seg) by (by intros [? ?]%app_eq_nil).
      change (string_of_list_ascii [path.slash]) with "/".
      by rewrite !append_assoc.
Qed.

Lemma bufOf_rooted_nonempty st : bufOf true st ≠ [].
Proof.
  destruct st as [|seg [|s st]]; cbn [bufOf]; [done| |];
    intros [_ H]%app_eq_nil; done.
Qed.

(** [Clean] on the path that the elements [segs] spell. *)
Lemma Clean_segments segs :
  Forall slashFree segs → joinSegs segs ≠ EmptyString →
  ∃ plains n,
    cleanSegs (isRooted (joinSegs segs)) segs [] = plains ++ replicate n ".." ∧
    Forall plain plains ∧ (isRooted (joinSegs segs) = true → n = 0%nat) ∧
    path.Clean (joinSegs segs)
    = renderPath (isRooted (joinSegs segs)) (plains ++ replicate n "..").
Proof.
  intros Hs Hne. destruct segs as [|seg rest]; [done|].
  apply Forall_cons in Hs as [Hseg Hrest].
  rewrite joinSegs_cons in *. destruct seg as [|c seg].
  - change (EmptyString +:+ tailOf rest) with (tailOf rest) in *.
    destruct rest as [|s rest]; [done|]. clear Hne.
    change (tailOf (s :: rest)) with (String "/" (joinSegs (s :: rest))).
    cbn [isRooted path.Clean]. change (Ascii.eqb "/" "/") with true.
    change (Ascii.eqb "/" path.slash) with true. cbv iota.
    destruct (cleanLoop_elements true (s :: rest) Hrest [] 0%nat)
      as (plains & n & Hsegs & Hp & Hr & Hloop); [done|done|].
    exists plains, n. split; [done|]. split; [done|]. split; [done|].
    change (bufOf true ([] ++ replicate 0 "..")) with [path.slash] in Hloop.
    change (dotdotOf true 0) with 1%nat in Hloop. rewrite Hloop.
    destruct (bufOf true (plains ++ replicate n "..")) as [|x out] eqn:Hout.
    { by destruct (bufOf_rooted_nonempty _ Hout). }
    rewrite <- Hout, bufString_bufOf. done.
  - assert (Ascii.eqb c "/" = false) as Hc by by apply slashFree_eqb in Hseg.
    change (String c seg +:+ tailOf rest) with (String c (seg +:+ tailOf rest)) in *.
    cbn [isRooted path.Clean]. unfold path.slash. rewrite Hc.
    change (String c (seg +:+ tailOf rest)) with (String c seg +:+ tailOf rest).
    rewrite <- joinSegs_cons.
    destruct (cleanLoop_elements false (String c seg :: rest)
                ltac:(by constructor) [] 0%nat)
      as (plains & n & Hsegs & Hp & Hr & Hloop); [done|done|].
    exists plains, n. split; [done|]. split; [done|]. split; [done|].
    change (bufOf false ([] ++ replicate 0 "..")) with (@nil ascii) in Hloop.
    change (dotdotOf false 0) with 0%nat in Hloop. rewrite Hloop.
    pose proof (bufOf_length false _ (stack_nonempty plains n Hp)) as Hlen.
    destruct (bufOf false (plains ++ replicate n "..")) as [|x out] eqn:Hout.
    { destruct (plains ++ replicate n ".."); done. }
    rewrite <- Hout, bufString_bufOf. cbn [renderPath].
    destruct (plains ++ replicate n ".."); done.
Qed.

(** ** The elements of a cleaned path *)

Lemma cleanSegs_app rooted l1 l2 st :
  cleanSegs rooted (l1 ++ l2) st = cleanSegs rooted l2 (cleanSegs rooted l1 st).
Proof. apply fold_left_app. Qed.

Lemma cleanSegs_names rooted l :
  Forall plain l → ∀ st, cleanSegs rooted l st = rev l ++ st.
Proof.
  induction 1 as [|s l Hs Hl IH]; intros st; [done|].
  unfold cleanSegs in *. cbn [fold_left rev]. rewrite IH, <- app_assoc. cbn [app].
  f_equal. unfold stepSeg. destruct Hs as (H1 & H2 & H3 & _).
  rewrite decide_False by (intros [?|?]; done). by rewrite decide_False by done.
Qed.

Lemma cleanSegs_dotdots n :
  ∀ m, cleanSegs false (replicate n "..") (replicate m "..") = replicate (n + m) "..".
Proof.
  induction n as [|n IH]; intros m; [done|].
  unfold cleanSegs in *. cbn [replicate fold_left].
  replace (stepSeg false (replicate m "..") "..") with (replicate (S m) "..")
    by by destruct m.
  rewrite IH. f_equal. lia.
Qed.

Lemma rev_replicate {A : Type} n (x : A) : rev (replicate n x) = replicate n x.
Proof. by rewrite rev_reverse, reverse_replicate. Qed.

Lemma cleanSegs_stack rooted plains n :
  Forall plain plains → (rooted = true → n = 0%nat) →
  cleanSegs rooted (rev (plains ++ replicate n "..")) [] = plains ++ replicate n "..".
Proof.
  intros Hp Hr. rewrite rev_app_distr, rev_replicate, cleanSegs_app.
  assert (cleanSegs rooted (replicate n "..") [] = replicate n "..") as ->.
  { destruct rooted; [by rewrite Hr|].
    pose proof (cleanSegs_dotdots n 0) as Hd. cbn [replicate] in Hd.
    rewrite Hd. f_equal. lia. }
  rewrite cleanSegs_names, rev_involutive; [done|].
  by apply List.Forall_rev.
Qed.

Lemma plain_slashFree s : plain s → slashFree s.
Proof. by intros (_ & _ & _ & ?). Qed.

Lemma stack_slashFree plains n :
  Forall plain plains → Forall slashFree (plains ++ replicate n "..").
Proof.
  intros Hp. apply Forall_app. split.
  - eapply Forall_impl; [done|]. apply plain_slashFree.
  - by apply Forall_replicate.
Qed.

Lemma isRooted_name s rest :
  s ≠ EmptyString → slashFree s → isRooted (joinSegs (s :: rest)) = false.
Proof.
  intros Hne Hs. rewrite joinSegs_cons. destruct s as [|c s]; [done|].
  cbn. by apply slashFree_eqb in Hs.
Qed.

(** A cleaned path, read as a sequence of elements: cleaning these elements
    gives them back. *)
Lemma render_segments rooted plains n :
  Forall plain plains → (rooted = true → n = 0%nat) →
  ∃ S, S ≠ [] ∧ Forall slashFree S ∧
       joinSegs S = renderPath rooted (plains ++ replicate n "..") ∧
       cleanSegs rooted S [] = plains ++ replicate n ".." ∧
       ∀ ls, isRooted (joinSegs (S ++ ls)) = rooted.
Proof.
  intros Hp Hr.
  pose proof (cleanSegs_stack rooted plains n Hp Hr) as Hstack.
  pose proof (stack_slashFree plains n Hp) as Hfree.
  pose proof (stack_nonempty plains n Hp) as Hne.
  destruct (plains ++ replicate n "..") as [|top st] eqn:Hst.
  - destruct rooted.
    + exists [EmptyString; EmptyString]. repeat split; try done.
      by repeat constructor.
    + exists ["."]. repeat split; try done.
      * by repeat constructor.
      * intros ls. by apply isRooted_name.
  - assert (rev (top :: st) ≠ []) as Hrev.
    { cbn [rev]. by intros [? ?]%app_eq_nil. }
    destruct rooted.
    + exists (EmptyString :: rev (top :: st)). split; [done|].
      split; [constructor; [done|by apply List.Forall_rev]|].
      split; [|split; [done|]].
      * unfold renderPath. rewrite joinSegs_cons.
        destruct (rev (top :: st)); [by destruct Hrev|done].
      * intros ls. cbn [app]. rewrite joinSegs_cons.
        destruct (rev (top :: st) ++ ls) eqn:Heq; [|done].
        by apply app_eq_nil in Heq as [? _].
    + exists (rev (top :: st)). split; [done|].
      split; [by apply List.Forall_rev|]. split; [done|]. split; [done|].
      intros ls. destruct (rev (top :: st)) as [|x l] eqn:Heq; [done|].
      cbn [app]. apply isRooted_name.
      * assert (x ∈ top :: st) as Hx.
        { apply elem_of_reverse. rewrite <- rev_reverse, Heq. left. }
        by eapply Forall_forall in Hne.
      * assert (x ∈ top :: st) as Hx.
        { apply elem_of_reverse. rewrite <- rev_reverse, Heq. left. }
        by eapply (proj1 (Forall_forall _ _)) in Hfree.
Qed.

Lemma Clean_idempotent p : path.Clean (path.Clean p) = path.Clean p.
Proof.
  destruct (decide (p = EmptyString)) as [->|Hne]; [done|].
  rewrite <- (joinSegs_splitSegs p) in Hne |- *.
  destruct (Clean_segments (splitSegs p) (splitSegs_slashFree p) Hne)
    as (plains & n & _ & Hp & Hr & Hclean).
  rewrite Hclean.
  destruct (render_segments _ plains n Hp Hr) as (S & HS & Hfree & Hjoin & Hsegs & Hroot).
  rewrite <- Hjoin.
  destruct (Clean_segments S Hfree) as (plains' & n' & Hsegs' & _ & _ & Hclean').
  { rewrite Hjoin, <- Hclean. apply Clean_nonempty. }
  rewrite Hclean', <- Hsegs'. specialize (Hroot []). rewrite app_nil_r in Hroot.
  by rewrite Hroot, Hsegs.
Qed.

(** ** The directory of a path *)

Lemma splitDir_slashFree f : slashFree f → path.splitDir f = EmptyString.
Proof.
  induction f as [|c f IH]; [done|]. intros Hs.
  pose proof (slashFree_eqb _ _ Hs) as Hc. apply slashFree_cons in Hs as [_ Hs].
  cbn [path.splitDir]. by rewrite IH, Hc.
Qed.

Lemma splitDir_app x f :
  slashFree f → path.splitDir (x +:+ "/" +:+ f) = x +:+ "/".
Proof.
  intros Hs. induction x as [|c x IH].
  - change (EmptyString +:+ "/" +:+ f) with (String "/" f).
    cbn [path.splitDir]. by rewrite splitDir_slashFree.
  - change (String c x +:+ "/" +:+ f) with (String c (x +:+ "/" +:+ f)).
    cbn [path.splitDir]. rewrite IH. by destruct x.
Qed.

Lemma isRooted_app a x y :
  isRooted (a +:+ "/" +:+ x) = isRooted (a +:+ "/" +:+ y).
Proof. by destruct a. Qed.

(** [absolutePath] on a base path and a location, each given by its
    elements: the last element of the base path is dropped, the elements of
    the location are added, and the whole is normalized. *)
Lemma absolutePath_segments bs f ls :
  Forall slashFree bs → slashFree f → Forall slashFree ls → ls ≠ [] →
  ∃ plains n,
    cleanSegs (isRooted (joinSegs (bs ++ [f]))) (bs ++ ls) []
    = plains ++ replicate n ".." ∧
    Forall plain plains ∧ (isRooted (joinSegs (bs ++ [f])) = true → n = 0%nat) ∧
    project_contracts.absolutePath (joinSegs (bs ++ [f])) (joinSegs ls)
    = renderPath (isRooted (joinSegs (bs ++ [f]))) (plains ++ replicate n "..").
Proof.
  intros Hbs Hf Hls Hne. unfold project_contracts.absolutePath.
  rewrite Join_nonempty by apply Dir_nonempty. unfold path.Dir.
  destruct bs as [|b bs'].
  - cbn [app joinSegs]. rewrite splitDir_slashFree by done.
    change (path.Clean EmptyString) with ".".
    assert (isRooted f = false) as ->.
    { destruct f as [|c f]; [done|]. cbn. by apply slashFree_eqb in Hf. }
    replace ("." +:+ "/" +:+ joinSegs ls) with (joinSegs ("." :: ls))
      by (rewrite joinSegs_cons; by destruct ls).
    destruct (Clean_segments ("." :: ls)) as (plains & n & Hsegs & Hp & Hr & Hclean).
    { by constructor. }
    { rewrite joinSegs_cons. done. }
    rewrite (isRooted_name "." ls) in * by done.
    exists plains, n. split; [|done].
    rewrite <- Hsegs. done.
  - set (bs := b :: bs') in *.
    assert (bs ≠ []) as Hbne by done.
    rewrite (joinSegs_snoc bs f Hbne).
    rewrite splitDir_app by done.
    rewrite (isRooted_app _ f EmptyString).
    change (joinSegs bs +:+ "/") with (joinSegs bs +:+ "/" +:+ EmptyString).
    rewrite <- (joinSegs_snoc bs EmptyString Hbne).
    destruct (Clean_segments (bs ++ [EmptyString]))
      as (plains1 & n1 & Hsegs1 & Hp1 & Hr1 & Hclean1).
    { apply Forall_app. split; [done|]. by repeat constructor. }
    { rewrite joinSegs_snoc by done. by destruct (joinSegs bs). }
    set (r := isRooted (joinSegs (bs ++ [EmptyString]))) in *.
    rewrite Hclean1.
    destruct (render_segments r plains1 n1 Hp1 Hr1)
      as (S & HS & Hfree & Hjoin & HsegsS & Hroot).
    rewrite <- Hjoin, <- (joinSegs_app S ls HS Hne).
    destruct (Clean_segments (S ++ ls)) as (plains & n & Hsegs & Hp & Hr & Hclean).
    { by apply Forall_app. }
    { rewrite joinSegs_app by done. by destruct (joinSegs S). }
    rewrite Hroot in *.
    exists plains, n. split; [|done].
    rewrite <- Hsegs, !cleanSegs_app, HsegsS, <- Hsegs1, cleanSegs_app. done.
Qed.

End CleanElements.

(* ===================================================================== *)
(** * Part XXII.  Normalized paths in both resolution modes              *)
(* ===================================================================== *)

Section NormalizedPaths.
Import project_contracts.
#[local] Arguments String.append : simpl nomatch.

(** X21.  [path.Clean], the byte loop with its lazily written buffer that
    normalizes the source paths of the table of [getSourceTarget] and the
    joined paths of [absolutePath], computes the lexical normal form of a
    path: the path is read as its elements between slashes, empty elements
    and [.] are dropped, [..] removes the name before it (at the root it is
    dropped, at the start of a path that is not rooted it is kept), and the
    elements that are left are joined by slashes, behind a slash when the
    path is rooted; the empty result is [.]. *)
Theorem Clean_elements p :
  path.Clean p
  = match p with
    | EmptyString => "."
    | _ => renderPath (isRooted p) (cleanSegs (isRooted p) (splitSegs p) [])
    end.
Proof.
  destruct (decide (p = EmptyString)) as [->|Hne]; [done|].
  replace (match p with EmptyString => "." | _ => _ end)
    with (renderPath (isRooted p) (cleanSegs (isRooted p) (splitSegs p) []))
    by by destruct p.
  rewrite <- (joinSegs_splitSegs p) in Hne.
  destruct (Clean_segments (splitSegs p) (splitSegs_slashFree p) Hne)
    as (plains & n & Hsegs & _ & _ & Hclean).
  rewrite (joinSegs_splitSegs p) in *. by rewrite Hsegs.
Qed.

(** X22.  [absolutePath] resolves a location from the directory of the base
    path, lexically: the result is the normal form of the elements of the
    base path without the last one (the file name), followed by the elements
    of the location.  It is rooted exactly when the base path is; whether
    the location starts with a slash makes no difference. *)
Theorem absolutePath_elements basePath location :
  absolutePath basePath location
  = renderPath (isRooted basePath)
      (cleanSegs (isRooted basePath)
         (removelast (splitSegs basePath) ++ splitSegs location) []).
Proof.
  pose proof (splitSegs_slashFree basePath) as Hb.
  rewrite (app_removelast_last EmptyString (splitSegs_nonempty basePath)) in Hb.
  apply Forall_app in Hb as [Hbs Hf]. apply Forall_cons in Hf as [Hf _].
  destruct (absolutePath_segments _ _ (splitSegs location) Hbs Hf
              (splitSegs_slashFree location) (splitSegs_nonempty location))
    as (plains & n & Hsegs & _ & _ & Habs).
  rewrite <- (app_removelast_last EmptyString (splitSegs_nonempty basePath)) in *.
  rewrite !joinSegs_splitSegs in *. by rewrite Hsegs.
Qed.

(** X23.  The path that [absolutePath] returns is in normal form:
    [path.Clean] leaves it as it is. *)
Theorem absolutePath_normal basePath location :
  path.Clean (absolutePath basePath location) = absolutePath basePath location.
Proof.
  unfold absolutePath. rewrite Join_nonempty by apply Dir_nonempty.
  apply Clean_idempotent.
Qed.

(** X24.  An import of a file by its name, from a contract whose source
    path is a rooted path of names, leads to the file of that name in the
    directory of the contract, with or without [./] before the name; with
    [../] before the name it leads to the file in the directory above. *)
Theorem absolutePath_sibling ds d f g :
  Forall plain ds → plain d → slashFree f → plain g →
  absolutePath ("/" +:+ joinSegs (ds ++ [d; f])) g = "/" +:+ joinSegs (ds ++ [d; g]) ∧
  absolutePath ("/" +:+ joinSegs (ds ++ [d; f])) ("./" +:+ g)
  = "/" +:+ joinSegs (ds ++ [d; g]) ∧
  absolutePath ("/" +:+ joinSegs (ds ++ [d; f])) ("../" +:+ g)
  = "/" +:+ joinSegs (ds ++ [g]).
Proof.
  intros Hds Hd Hf Hg.
  assert (Forall plain (ds ++ [d])) as Hdd by (apply Forall_app; split; [done|by constructor]).
  assert (Forall slashFree (EmptyString :: ds ++ [d])) as Hbs.
  { constructor; [done|]. eapply Forall_impl; [done|]. apply plain_slashFree. }
  assert ("/" +:+ joinSegs (ds ++ [d; f])
          = joinSegs ((EmptyString :: ds ++ [d]) ++ [f])) as ->.
  { cbn [app]. rewrite <- app_assoc, joinSegs_cons. cbn [app].
    by destruct (ds ++ [d; f]) eqn:Heq; [apply app_eq_nil in Heq as [_ ?]|]. }
  assert (∀ ls, Forall slashFree ls → ls ≠ [] →
            absolutePath (joinSegs ((EmptyString :: ds ++ [d]) ++ [f])) (joinSegs ls)
            = "/" +:+ joinSegs (rev (cleanSegs true ls (d :: rev ds)))) as Habs.
  { intros ls Hls Hne.
    destruct (absolutePath_segments _ f ls Hbs Hf Hls Hne)
      as (plains & n & Hsegs & _ & _ & ->).
    assert (isRooted (joinSegs ((EmptyString :: ds ++ [d]) ++ [f])) = true) as Hr.
    { cbn [app]. rewrite joinSegs_cons.
      by destruct ((ds ++ [d]) ++ [f]) eqn:Heq; [apply app_eq_nil in Heq as [_ ?]|]. }
    rewrite Hr in *. rewrite <- Hsegs. cbn [renderPath]. do 3 f_equal.
    change (EmptyString :: ds ++ [d]) with ([EmptyString] ++ (ds ++ [d])).
    rewrite (cleanSegs_app true ([EmptyString] ++ (ds ++ [d])) ls).
    rewrite (cleanSegs_app true [EmptyString] (ds ++ [d])).
    change (cleanSegs true [EmptyString] []) with (@nil string).
    rewrite (cleanSegs_names true _ Hdd), app_nil_r, rev_app_distr. done. }
  assert (∀ st, stepSeg true st g = g :: st) as Hpush.
  { intros st. unfold stepSeg. destruct Hg as (H1 & H2 & H3 & _).
    rewrite decide_False by (intros [?|?]; done). by rewrite decide_False by done. }
  assert (stepSeg true (d :: rev ds) ".." = rev ds) as Hpop.
  { unfold stepSeg. rewrite decide_False by (intros [?|?]; done).
    rewrite decide_True by done.
    rewrite decide_False; [done|]. by destruct Hd as (_ & _ & ? & _). }
  pose proof (plain_slashFree g Hg) as Hgs.
  split; [|split].
  - pose proof (Habs [g] ltac:(by repeat constructor)
                  ltac:(done)) as Hg1.
    change (joinSegs [g]) with g in Hg1. rewrite Hg1.
    unfold cleanSegs. cbn [fold_left]. rewrite Hpush. cbn [rev].
    by rewrite rev_involutive, <- app_assoc.
  - change ("./" +:+ g) with (joinSegs ["."; g]).
    rewrite (Habs ["."; g]) by (by repeat constructor).
    unfold cleanSegs. cbn [fold_left]. change (stepSeg true (d :: rev ds) ".") with (d :: rev ds).
    rewrite Hpush. cbn [rev]. by rewrite rev_involutive, <- app_assoc.
  - change ("../" +:+ g) with (joinSegs [".."; g]).
    rewrite (Habs [".."; g]) by (by repeat constructor).
    unfold cleanSegs. cbn [fold_left]. rewrite Hpop, Hpush. cbn [rev].
    by rewrite rev_involutive.
Qed.

(** X25.  A contract registered under a source path that is not in normal
    form (one that [path.Clean] would change, such as a path that starts
    with [./]) is never a dependency of a registered contract: the working
    set is keyed by the source paths as given, and an import is looked up
    under a normalized path. *)
Theorem unnormalized_source_no_dependency p h k d :
  wf p h → p_contracts p !! k = Some d → path.Clean k ≠ k →
  ∀ m, ¬ depends p h m d.
Proof.
  intros Hwf Hk Hclean m (k' & loc & _ & _ & Hd).
  apply Hclean. rewrite (wf_ptr_inj p h k _ d Hwf Hk Hd).
  unfold absolutePath. rewrite Join_nonempty by apply Dir_nonempty.
  apply Clean_idempotent.
Qed.

(** X26.  The table of [getSourceTarget] is keyed by normalized paths: a
    path has a target in the table exactly when it is the normal form of the
    source path of a configured contract or of an alias, and each such path
    is left as it is by [path.Clean]. *)
Theorem getSourceTarget_keys contracts aliases aliasOrder k :
  (∀ l, aliasOrder l ≡ₚ l) →
  (is_Some (flowcli_contracts.getSourceTarget contracts aliases aliasOrder !! k) ↔
   (∃ c, c ∈ contracts ∧ path.Clean (project.Source c) = k) ∨
   (∃ src, is_Some (aliases !! src) ∧ path.Clean src = k)) ∧
  (is_Some (flowcli_contracts.getSourceTarget contracts aliases aliasOrder !! k) →
   path.Clean k = k).
Proof.
  intros Hperm.
  assert (is_Some (flowcli_contracts.getSourceTarget contracts aliases aliasOrder !! k) ↔
          (∃ c, c ∈ contracts ∧ path.Clean (project.Source c) = k) ∨
          (∃ src, is_Some (aliases !! src) ∧ path.Clean src = k)) as Hiff.
  { unfold flowcli_contracts.getSourceTarget. rewrite aliases_fold_lookup.
    destruct (last (filter _ _)) as [src|] eqn:Hlast.
    - apply last_Some_elem_of in Hlast.
      apply list_elem_of_filter in Hlast as [[[tgt Ht] Hc] _].
      rewrite Ht. cbn. split; [|by eexists]. intros _. right. exists src.
      split; [by eexists|done].
    - apply last_None in Hlast. rewrite contracts_fold_lookup.
      destruct (last (withSource k contracts)) as [c|] eqn:Hc.
      + apply last_Some_elem_of in Hc. apply list_elem_of_filter in Hc as [Hk Hc].
        split; [|by eexists]. intros _. left. by exists c.
      + apply last_None in Hc. rewrite lookup_empty. split; [by intros [? ?]|].
        intros [(c & Hin & Hk)|(src & Hsrc & Hk)].
        * assert (c ∈ withSource k contracts) as Hc' by by apply list_elem_of_filter.
          rewrite Hc in Hc'. by apply elem_of_nil in Hc'.
        * assert (src ∈ filter (fun src => is_Some (aliases !! src) ∧ path.Clean src = k)
                          (aliasOrder (keys aliases))) as Hin.
          { apply list_elem_of_filter. split; [done|].
            rewrite Hperm. by apply keys_elem_of_string. }
          rewrite Hlast in Hin. by apply elem_of_nil in Hin. }
  split; [done|]. intros [(c & _ & <-)|(src & _ & <-)]%Hiff; apply Clean_idempotent.
Qed.

End NormalizedPaths.

(* ===================================================================== *)
(** * Part XXIII.  Where the order comes from                              *)
(* ===================================================================== *)

Section OrderSource.
Import project_contracts.

Lemma foldOutcome_ext {A B : Type} (f g : B → A → outcome B) l :
  (∀ b x, f b x = g b x) → ∀ b, foldOutcome f l b = foldOutcome g l b.
Proof.
  intros Hfg. induction l as [|x l IH]; intros b; cbn [foldOutcome]; [done|].
  rewrite Hfg. destruct (g b x); cbn [outcome_bind]; [apply IH|done|done].
Qed.

Lemma strongconnect_ext (succ1 succ2 : Z → list Z) :
  (∀ id, succ1 id = succ2 id) →
  ∀ fuel v t, topo.strongconnect succ1 fuel v t = topo.strongconnect succ2 fuel v t.
Proof.
  intros Hsucc. induction fuel as [|fuel IH]; intros v t; cbn [topo.strongconnect]; [done|].
  rewrite Hsucc. f_equal. apply foldOutcome_ext. intros t0 w.
  destruct (decide (topo.indexOf t0 w = 0%nat)); [|done]. by rewrite IH.
Qed.

Lemma Sort_ext (succ1 succ2 : Z → list Z) nodes :
  (∀ id, succ1 id = succ2 id) → topo.Sort succ1 nodes = topo.Sort succ2 nodes.
Proof.
  intros Hsucc. unfold topo.Sort, topo.TarjanSCC. do 2 f_equal.
  apply foldOutcome_ext. intros t v.
  destruct (decide (topo.indexOf t v = 0%nat)); [|done]. by apply strongconnect_ext.
Qed.

Lemma toContracts_ext (g1 g2 : simple.DirectedGraph ptr) sorted :
  simple.nodes g1 = simple.nodes g2 → toContracts g1 sorted = toContracts g2 sorted.
Proof.
  intros Hn. induction sorted as [|s sorted IH]; cbn [toContracts]; [done|].
  by rewrite Hn, IH.
Qed.

Lemma resolvedStore_extends p h : extends h (resolvedStore p h).
Proof.
  split; [apply length_imap|].
  intros c v Hv. rewrite resolvedStore_lookup, Hv. cbn.
  destruct (decide _).
  - eexists. split; [done|]. split; [apply resolved_same|apply resolved_dom].
  - exists v. split; [done|]. split; [apply sameContract_refl|done].
Qed.

(** The graph that [sortByDeploymentOrder] builds does not depend on the
    order in which the maps of contracts and of dependencies are visited. *)
Lemma dependency_graph s p h :
  admissible s → wf p h → (∀ m, ¬ depends p h m m) →
  ∃ g1 g,
    addNodes (p_contracts p) h (rangeNodes s (keys (p_contracts p)))
      simple.NewDirectedGraph = Returns g1 ∧
    addEdges (p_contracts p) h (rangeEdges s (keys (p_contracts p)))
      (rangeDependencies s) g1 = Returns g ∧
    (∀ id c, simple.nodes g !! id = Some c ↔ member p c ∧ ID h c = id) ∧
    (∀ f t, t ∈ simple.From g f ↔
            ∃ k c loc d, p_contracts p !! k = Some c ∧
              dependencies (deref h c) !! loc = Some d ∧ f = ID h d ∧ t = ID h c).
Proof.
  intros (_ & HpN & HpE & HpD & _) Hwf Hnoself.
  destruct (addNodes_spec p h Hwf (rangeNodes s (keys (p_contracts p)))
              simple.NewDirectedGraph) as (g1 & Hrun1 & Hfrom1 & Hnodes1).
  { rewrite HpN. apply NoDup_fst_map_to_list. }
  { intros id c Hl. cbn in Hl. by rewrite lookup_empty in Hl. }
  assert (∀ id c, simple.nodes g1 !! id = Some c ↔ member p c ∧ ID h c = id) as HN1.
  { intros id c. rewrite Hnodes1. cbn. rewrite lookup_empty. split.
    - intros [?|(k & _ & Hk & Hid)]; [done|]. split; [by exists k|done].
    - intros [[k Hk] Hid]. right. exists k. split; [|done].
      rewrite HpN. apply keys_elem_of_string. by rewrite Hk. }
  destruct (addEdges_spec p h Hwf Hnoself (simple.nodes g1)
              ltac:(intros c Hc; by apply HN1)
              (rangeDependencies s) (rangeEdges s (keys (p_contracts p))) HpD g1 eq_refl)
    as (g & Hrun & Hnodes & Hfrom).
  exists g1, g. split; [done|]. split; [done|]. split.
  - intros id c. rewrite Hnodes. apply HN1.
  - intros f t. rewrite Hfrom. unfold simple.From at 1. rewrite Hfrom1. cbn.
    rewrite lookup_empty. cbn. split.
    + intros [Hin|(k & c & loc & d & _ & Hk & Hd & -> & ->)]; [set_solver|].
      by exists k, c, loc, d.
    + intros (k & c & loc & d & Hk & Hd & -> & ->). right.
      exists k, c, loc, d. split; [|done].
      rewrite HpE. apply keys_elem_of_string. by rewrite Hk.
Qed.

(** X28.  The order that [PrepareForDeployment] returns depends on gonum's
    iterators only: two runs on the same working set, in which every import
    resolves and no contract imports itself, return the same result and
    leave the same store when gonum lists the nodes and the successors of
    each node in the same orders, however differently Go visits the maps of
    contracts and of dependencies in the two runs. *)
Theorem PrepareForDeployment_order_source s1 s2 p h :
  admissible s1 → admissible s2 → wf p h → resolvable p h →
  (∀ m, ¬ depends p h m m) →
  (∀ l, graphNodes s1 l = graphNodes s2 l) →
  (∀ id l, graphFrom s1 id l = graphFrom s2 id l) →
  PrepareForDeployment s1 p h = PrepareForDeployment s2 p h.
Proof.
  intros Hs1 Hs2 Hwf Hres Hnoself HG HF.
  destruct (PrepareForDeployment_unfold s1 p h Hs1 Hwf Hres) as [Hwf' ->].
  destruct (PrepareForDeployment_unfold s2 p h Hs2 Hwf Hres) as [_ ->].
  f_equal. f_equal.
  assert (∀ m, ¬ depends p (resolvedStore p h) m m) as Hnoself'.
  { intros m Hm. apply (Hnoself m).
    by apply (depends_extends p h _ m m Hwf (resolvedStore_extends p h)). }
  destruct (dependency_graph s1 p _ Hs1 Hwf' Hnoself')
    as (ga1 & ga & Hna1 & Hea & Hnodesa & Hfroma).
  destruct (dependency_graph s2 p _ Hs2 Hwf' Hnoself')
    as (gb1 & gb & Hnb1 & Heb & Hnodesb & Hfromb).
  unfold sortByDeploymentOrder. rewrite Hna1, Hnb1. cbn [outcome_bind].
  rewrite Hea, Heb. cbn [outcome_bind].
  assert (simple.nodes ga = simple.nodes gb) as Hnodes.
  { apply map_eq. intros id. apply option_eq. intros c.
    by rewrite Hnodesa, Hnodesb. }
  assert (∀ id, simple.From ga id = simple.From gb id) as Hfrom.
  { intros id. apply set_eq. intros t. by rewrite Hfroma, Hfromb. }
  rewrite Hnodes, HG.
  rewrite (Sort_ext _ (fun id => graphFrom s2 id (elements (simple.From gb id))))
    by (intros id; by rewrite Hfrom, HF).
  destruct (topo.Sort _ _) as [[sorted [e|]]| |]; cbn [outcome_bind]; try done.
  by rewrite (toContracts_ext ga gb sorted Hnodes).
Qed.

End OrderSource.

Section OrderSourceExample.
Import project_contracts.

(** X28 on the chain, with the three maps of contracts visited backwards in
    the second run. *)
Lemma PrepareForDeployment_order_source_witness :
  PrepareForDeployment Example.inOrder Example.chain.1 Example.chain.2
  = PrepareForDeployment Cases.mapsReversed Example.chain.1 Example.chain.2.
Proof.
  apply (PrepareForDeployment_order_source Example.inOrder Cases.mapsReversed
           Example.chain.1 Example.chain.2).
  - apply inOrder_admissible.
  - repeat split; intros; try reflexivity; apply reverse_Permutation.
  - apply chain_wf.
  - apply resolvableb_spec. vm_compute. reflexivity.
  - apply noSelfImportb_spec. vm_compute. reflexivity.
  - done.
  - done.
Defined.

End OrderSourceExample.

(* ===================================================================== *)
(** * Part XXIV.  The further theorems on examples                       *)
(* ===================================================================== *)

Section FurtherExamples.
Import project_contracts.

Lemma selfImport_wf : wf Example.selfImport.1 Example.selfImport.2.
Proof.
  apply (registerAll_wf Example.readFile Example.parseProgram ∅ Example.selfCalls).
  - vm_compute. reflexivity.
  - apply (bool_decide_unpack _). vm_compute. exact I.
Qed.

Lemma relative_wf : wf Cases.relative.1 Cases.relative.2.
Proof.
  apply (registerAll_wf (Example.readFrom Cases.relativeFiles)
           (Example.parseFrom Cases.relativeFiles) ∅ Cases.relativeCalls).
  - vm_compute. reflexivity.
  - apply (bool_decide_unpack _). vm_compute. exact I.
Qed.

Lemma plain_name s :
  s ≠ EmptyString → s ≠ "." → s ≠ ".." → strings.Contains s "/" = false → plain s.
Proof. by repeat split. Qed.

(** X2 on the first registration of [A.cdc]. *)
Lemma AddContractSource_registers_witness :
  ∃ p' h',
    AddContractSource Example.readFile Example.parseProgram
      (NewPreprocessor ∅) [] "A" "/proj/A.cdc" 1%Z = (p', h', None) ∧
    p_contracts p' !! "/proj/A.cdc" = Some 0%nat ∧
    Name h' 0%nat = "A" ∧ Target h' 0%nat = 1%Z ∧
    Code h' 0%nat = Example.codeA ∧ Dependencies h' 0%nat = ∅ ∧
    ID h' 0%nat = Z.of_nat (size (p_contracts (NewPreprocessor ∅))) ∧
    (∀ k, k ≠ "/proj/A.cdc" →
          p_contracts p' !! k = p_contracts (NewPreprocessor ∅) !! k) ∧
    (∀ c, (c < 0)%nat → deref h' c = deref [] c) ∧
    p_aliases p' = p_aliases (NewPreprocessor ∅) ∧
    size (p_contracts p')
    = (if decide (is_Some (p_contracts (NewPreprocessor ∅) !! "/proj/A.cdc"))
       then size (p_contracts (NewPreprocessor ∅))
       else S (size (p_contracts (NewPreprocessor ∅)))).
Proof.
  apply (AddContractSource_registers Example.readFile Example.parseProgram
           (NewPreprocessor ∅) [] "A" "/proj/A.cdc" 1%Z Example.codeA
           (ast.mkProgram [])); reflexivity.
Defined.

(** X3 on [A.cdc], registered twice, and [D.cdc]. *)
Lemma AddContractSource_again_collides_witness :
  ∃ c1 c2, p_contracts Cases.again.1 !! "/proj/A.cdc" = Some c1 ∧
           p_contracts Cases.again.1 !! "/proj/D.cdc" = Some c2 ∧
           c1 ≠ c2 ∧ ID Cases.again.2 c1 = ID Cases.again.2 c2.
Proof.
  apply (AddContractSource_again_collides Example.readFile Example.parseProgram
           Cases.once.1 Cases.once.2 "A2" "/proj/A.cdc" 8%Z "D" "/proj/D.cdc" 2%Z
           Cases.twice.1 Cases.twice.2 Cases.again.1 Cases.again.2).
  - exists 0%nat. by vm_compute.
  - by vm_compute.
  - by vm_compute.
  - by vm_compute.
Defined.


(** X5 on the contract that imports its own file. *)
Lemma PrepareForDeployment_self_import_witness :
  ∃ h', PrepareForDeployment Example.inOrder Example.selfImport.1 Example.selfImport.2
        = (h', Panics "simple: adding self edge").
Proof.
  apply (PrepareForDeployment_self_import Example.inOrder
           Example.selfImport.1 Example.selfImport.2).
  - apply inOrder_admissible.
  - apply selfImport_wf.
  - apply resolvableb_spec. vm_compute. reflexivity.
  - exists 0%nat, "/proj/S.cdc", "./S.cdc". split; [by vm_compute|]. split; [|by vm_compute].
    replace (imports (deref Example.selfImport.2 0%nat)) with ["./S.cdc"] by by vm_compute.
    apply list_elem_of_here.
Defined.

(** X6 with the maps visited in the order of their keys. *)
Lemma PrepareForDeployment_empty_witness :
  PrepareForDeployment Example.inOrder (NewPreprocessor ∅) []
  = ([], Returns ([], None)).
Proof.
  apply (PrepareForDeployment_empty Example.inOrder ∅ []). apply inOrder_admissible.
Defined.

(** X17 on the chain [A], [B], [C]. *)
Lemma PrepareForDeployment_store_witness :
  (PrepareForDeployment Example.inOrder Example.chain.1 Example.chain.2).1
  = resolvedStore Example.chain.1 Example.chain.2.
Proof.
  apply (PrepareForDeployment_store Example.inOrder Example.chain.1 Example.chain.2).
  - apply inOrder_admissible.
  - apply chain_wf.
  - apply resolvableb_spec. vm_compute. reflexivity.
Defined.

(** X18 on the import of [A.cdc] by [B]. *)
Lemma PrepareForDeployment_records_witness :
  (∀ d, p_contracts Example.chain.1 !! absolutePath "/proj/B.cdc" "./A.cdc" = Some d →
        Dependencies (PrepareForDeployment Example.inOrder Example.chain.1 Example.chain.2).1
          1%nat !! "./A.cdc" = Some d ∧
        (aliases (deref Example.chain.2 1%nat) !! "./A.cdc" = None →
         aliases (deref (PrepareForDeployment Example.inOrder Example.chain.1
                           Example.chain.2).1 1%nat) !! "./A.cdc" = None)) ∧
  (∀ a, p_contracts Example.chain.1 !! absolutePath "/proj/B.cdc" "./A.cdc" = None →
        p_aliases Example.chain.1 !! getAliasForImport "./A.cdc" = Some a →
        aliases (deref (PrepareForDeployment Example.inOrder Example.chain.1
                          Example.chain.2).1 1%nat) !! "./A.cdc"
        = Some (flow.HexToAddress a) ∧
        Dependencies (PrepareForDeployment Example.inOrder Example.chain.1 Example.chain.2).1
          1%nat !! "./A.cdc" = None).
Proof.
  apply (PrepareForDeployment_records Example.inOrder Example.chain.1 Example.chain.2
           "/proj/B.cdc" 1%nat "./A.cdc").
  - apply inOrder_admissible.
  - apply chain_wf.
  - apply resolvableb_spec. vm_compute. reflexivity.
  - by vm_compute.
  - replace (imports (deref Example.chain.2 1%nat)) with ["./A.cdc"] by by vm_compute.
    apply list_elem_of_here.
Defined.

(** X19 on the chain. *)
Lemma PrepareForDeployment_again_witness :
  PrepareForDeployment Example.inOrder Example.chain.1
    (PrepareForDeployment Example.inOrder Example.chain.1 Example.chain.2).1
  = PrepareForDeployment Example.inOrder Example.chain.1 Example.chain.2.
Proof.
  apply (PrepareForDeployment_again Example.inOrder Example.chain.1 Example.chain.2).
  - apply inOrder_admissible.
  - apply chain_wf.
  - apply resolvableb_spec. vm_compute. reflexivity.
Defined.

(** X20 on the contract [B] of the chain. *)
Lemma TranspiledCode_after_resolution_witness :
  TranspiledCode (PrepareForDeployment Example.inOrder Example.chain.1 Example.chain.2).1
    (deref (PrepareForDeployment Example.inOrder Example.chain.1 Example.chain.2).1 1%nat)
    id id
  = "import A from " +:+ ("0x" +:+ flow.Address_String (Target Example.chain.2 0%nat))
    +:+ " pub contract B {}".
Proof.
  apply (TranspiledCode_after_resolution Example.inOrder Example.chain.1 Example.chain.2
           "/proj/B.cdc" 1%nat "./A.cdc" 0%nat "import A from " " pub contract B {}" id id).
  - apply inOrder_admissible.
  - apply chain_wf.
  - apply resolvableb_spec. vm_compute. reflexivity.
  - done.
  - by vm_compute.
  - replace (imports (deref Example.chain.2 1%nat)) with ["./A.cdc"] by by vm_compute.
    apply list_elem_of_here.
  - replace (imports (deref Example.chain.2 1%nat)) with ["./A.cdc"] by by vm_compute.
    by intros l ->%list_elem_of_singleton.
  - by vm_compute.
  - by vm_compute.
  - by vm_compute.
  - by vm_compute.
  - by vm_compute.
Defined.

(** X25 on the contract registered under [./A.cdc]. *)
Lemma unnormalized_source_no_dependency_witness :
  path.Clean "./A.cdc" ≠ "./A.cdc" ∧
  ∀ m, ¬ depends Cases.relative.1 Cases.relative.2 m 0%nat.
Proof.
  split; [done|].
  apply (unnormalized_source_no_dependency Cases.relative.1 Cases.relative.2
           "./A.cdc" 0%nat).
  - apply relative_wf.
  - by vm_compute.
  - done.
Defined.

End FurtherExamples.

Section FurtherStringExamples.

(** X8 on the script that imports from an address. *)
Lemma ResolveImports_address_imports_only_witness :
  flowcli_contracts.ResolveImports Cases.addressOnly "/proj/tx/s.cdc"
    Cases.configured Cases.aliasTable id
  = (Cases.addressOnly, (flowcli_contracts.code Cases.addressOnly, None)) ∧
  flowcli_contracts.HasFileImports Cases.addressOnly = false.
Proof.
  apply (ResolveImports_address_imports_only Cases.addressOnly "/proj/tx/s.cdc"
           Cases.configured Cases.aliasTable id).
  intros d ->%list_elem_of_singleton. by eexists.
Defined.

(** X9 on the alias [./X.cdc], whose normal form is the source path of the
    contract [X]. *)
Lemma getSourceTarget_alias_wins_witness :
  flowcli_contracts.getSourceTarget Cases.configured Cases.aliasTable id
    !! path.Clean "./X.cdc"
  = Some (flow.Address_String (flow.HexToAddress "0000000000000003")).
Proof.
  apply (getSourceTarget_alias_wins Cases.configured Cases.aliasTable id
           "./X.cdc" "0000000000000003").
  - done.
  - by vm_compute.
  - intros src' [tgt Hsrc]. unfold Cases.aliasTable in Hsrc.
    apply lookup_singleton_Some in Hsrc as [<- _]. done.
Defined.

(** X10 on the path [Y.cdc], the normal form of the source paths of [Y] and
    [Y2]. *)
Lemma getSourceTarget_last_contract_witness :
  flowcli_contracts.getSourceTarget Cases.configured Cases.aliasTable id !! "Y.cdc"
  = (fun c => flow.Address_String (project.Target c))
      <$> last (withSource "Y.cdc" Cases.configured).
Proof.
  apply (getSourceTarget_last_contract Cases.configured Cases.aliasTable id "Y.cdc").
  intros src [tgt Hsrc]. unfold Cases.aliasTable in Hsrc.
  apply lookup_singleton_Some in Hsrc as [<- _]. done.
Defined.

(** X12 on the script that imports ["./X.cdc"]. *)
Lemma ResolveImports_rewrites_zero_address_only_witness :
  (flowcli_contracts.ResolveImports Example.script "/proj/tx/Mod.cdc"
     Cases.configured Cases.aliasTable id).1 = Example.script ∧
  ((flowcli_contracts.ResolveImports Example.script "/proj/tx/Mod.cdc"
      Cases.configured Cases.aliasTable id).2
   = (flowcli_contracts.code Example.script, None) ∨
   (flowcli_contracts.ResolveImports Example.script "/proj/tx/Mod.cdc"
      Cases.configured Cases.aliasTable id).2
   = (EmptyString, Some (flowcli_contracts.unresolved "0000000000000000"))).
Proof.
  apply (ResolveImports_rewrites_zero_address_only Example.script "/proj/tx/Mod.cdc"
           Cases.configured Cases.aliasTable id).
  by vm_compute.
Defined.

(** X14 on the location [../lib/Token.cdc]. *)
Lemma getAliasForImport_ignores_directory_witness :
  project_contracts.getAliasForImport ("../lib" +:+ "/" +:+ "Token.cdc")
  = project_contracts.getAliasForImport "Token.cdc" ∧
  project_contracts.getAliasForImport "Token.cdc"
  = strings.ReplaceAll "Token.cdc" ".cdc" EmptyString.
Proof.
  apply (getAliasForImport_ignores_directory "../lib" "Token.cdc"); done.
Defined.

(** X16 on a contract whose recorded location is not in its text. *)
Lemma TranspiledCode_no_occurrence_witness :
  project_contracts.TranspiledCode [] Cases.stale id id
  = project_contracts.code Cases.stale.
Proof.
  apply (TranspiledCode_no_occurrence [] Cases.stale id id).
  intros loc [[d Hd]|[a Ha]].
  - cbn [Cases.stale project_contracts.dependencies] in Hd.
    apply lookup_singleton_Some in Hd as [<- _]. by vm_compute.
  - cbn [Cases.stale project_contracts.aliases] in Ha. by rewrite lookup_empty in Ha.
Defined.

(** X24 on the contract [/proj/contracts/B.cdc] and the file [A.cdc]. *)
Lemma absolutePath_sibling_witness :
  project_contracts.absolutePath ("/" +:+ joinSegs (["proj"] ++ ["contracts"; "B.cdc"]))
    "A.cdc"
  = "/" +:+ joinSegs (["proj"] ++ ["contracts"; "A.cdc"]) ∧
  project_contracts.absolutePath ("/" +:+ joinSegs (["proj"] ++ ["contracts"; "B.cdc"]))
    ("./" +:+ "A.cdc")
  = "/" +:+ joinSegs (["proj"] ++ ["contracts"; "A.cdc"]) ∧
  project_contracts.absolutePath ("/" +:+ joinSegs (["proj"] ++ ["contracts"; "B.cdc"]))
    ("../" +:+ "A.cdc")
  = "/" +:+ joinSegs (["proj"] ++ ["A.cdc"]).
Proof.
  apply (absolutePath_sibling ["proj"] "contracts" "B.cdc" "A.cdc").
  - repeat constructor; done.
  - by apply plain_name.
  - done.
  - by apply plain_name.
Defined.

(** X26 on the path [X.cdc]. *)
Lemma getSourceTarget_keys_witness :
  (is_Some (flowcli_contracts.getSourceTarget Cases.configured Cases.aliasTable id
              !! "X.cdc") ↔
   (∃ c, c ∈ Cases.configured ∧ path.Clean (project.Source c) = "X.cdc") ∨
   (∃ src, is_Some (Cases.aliasTable !! src) ∧ path.Clean src = "X.cdc")) ∧
  (is_Some (flowcli_contracts.getSourceTarget Cases.configured Cases.aliasTable id
              !! "X.cdc") →
   path.Clean "X.cdc" = "X.cdc").
Proof.
  apply (getSourceTarget_keys Cases.configured Cases.aliasTable id "X.cdc"). done.
Defined.

End FurtherStringExamples.

